(** * Radiosity: light-transport solver, specular pass and normaliser

    A shallow embedding of the numerical core of the radiosity demo
    (cube.cpp, transfers.cpp, rendering.cpp) and the proofs of its
    specification.

    Numbers.  The program computes with C++ [double], that is IEEE 754
    binary64.  The embedding uses Rocq's primitive [float], which is the same
    format with the same rounding (to nearest, ties to even), so that
    division by zero, infinities and NaN behave as they do in the program.
    General facts about the arithmetic are obtained from the library's
    specification of the primitives ([FloatAxioms]) and proved on
    [SpecFloat].

    Containers.  A [std::vector] is a list; [v[i]] is stdpp's total lookup
    [v !!! i] and [v[i] = e] is [<[i:=e]> v].  Reading or writing out of
    range is undefined in C++; the loops below stay in range (for the
    transfer matrix, when it holds n * n entries), and the embedding
    returns the default element (reads) or leaves the list unchanged
    (writes) out of range.

    Missing sources.  geom.h and geom.cpp are not among the sources.  The
    component-wise arithmetic of colours and vertices is modelled from the
    spec; the geometric queries ([paraCentre], [paraCross], [paraArea],
    [len], [norm], [dot], [asGrey]) are parameters of the development,
    collected in the class [Geom], and every theorem holds for all of
    them.  A reference geometry instantiates them where a concrete scene
    is evaluated. *)

From Stdlib Require Import ZArith Floats Lia.
From stdpp Require Import base list list_numbers.

Local Open Scope nat_scope.

(** ** Doubles *)

Module Dbl.

Definition zero : float := 0%float.
Definition one : float := 1%float.

(** [x > y] on doubles is [y < x]. *)
Definition gtb (a c : float) : bool := PrimFloat.ltb c a.

(** [std::max(a, c)]: [(a < c) ? c : a]. *)
Definition std_max (a c : float) : float :=
  if PrimFloat.ltb a c then c else a.

(** [fmax(a, c)] of <cmath>: a NaN argument is treated as missing data,
    otherwise the larger argument (the first one when they compare equal;
    the C standard leaves the choice between zeros of opposite sign
    open). *)
Definition fmax (a c : float) : float :=
  if PrimFloat.is_nan a then c
  else if PrimFloat.is_nan c then a
  else if PrimFloat.ltb a c then c else a.

(** [fabs] *)
Definition fabs (a : float) : float := PrimFloat.abs a.

End Dbl.

#[global] Instance float_inhabited : Inhabited float := populate Dbl.zero.

(** ** Geometry and colour data (geom.h) *)

Record Vertex := mkVertex { x : float; y : float; z : float }.

Record Colour := mkColour { r : float; g : float; b : float }.

Record Quad := mkQuad {
  indices : list nat;
  materialColour : Colour;
  screenColour : Colour;
  isEmitter : bool;
  isSpecular : bool
}.

(** Modelled from the spec: the [Colour] class of geom.h is not among the
    sources.  The spec describes its arithmetic as component-wise per RGB
    channel; a default-constructed colour is black. *)
Definition black : Colour := mkColour Dbl.zero Dbl.zero Dbl.zero.

(** Modelled from the spec: [Colour * Colour], component-wise. *)
Definition cmul (c d : Colour) : Colour :=
  mkColour (r c * r d)%float (g c * g d)%float (b c * b d)%float.

(** Modelled from the spec: [Colour * double], each channel scaled. *)
Definition cscale (c : Colour) (s : float) : Colour :=
  mkColour (r c * s)%float (g c * s)%float (b c * s)%float.

(** Modelled from the spec: [Colour + Colour] and [+=], component-wise. *)
Definition cadd (c d : Colour) : Colour :=
  mkColour (r c + r d)%float (g c + g d)%float (b c + b d)%float.

(** Modelled from the spec: [Vertex - Vertex], component-wise. *)
Definition vsub (u v : Vertex) : Vertex :=
  mkVertex (x u - x v)%float (y u - y v)%float (z u - z v)%float.

(** Modelled from the spec: [Vertex * double], each coordinate scaled. *)
Definition vscale (u : Vertex) (s : float) : Vertex :=
  mkVertex (x u * s)%float (y u * s)%float (z u * s)%float.

#[global] Instance Colour_inhabited : Inhabited Colour := populate black.
#[global] Instance Vertex_inhabited : Inhabited Vertex :=
  populate (mkVertex Dbl.zero Dbl.zero Dbl.zero).
#[global] Instance Quad_inhabited : Inhabited Quad :=
  populate (mkQuad [] black black false false).

(** [q.screenColour = c] *)
Definition setScreenColour (q : Quad) (c : Colour) : Quad :=
  mkQuad (indices q) (materialColour q) c (isEmitter q) (isSpecular q).

(** The geometric queries of geom.h that the sources call but do not
    define.  The development is parametric in them; [refGeom] below gives
    the textbook instance used to evaluate concrete scenes. *)
Class Geom := {
  paraCentre : Quad -> list Vertex -> Vertex;
  paraCross : Quad -> list Vertex -> Vertex;
  paraArea : Quad -> list Vertex -> float;
  len : Vertex -> float;
  norm : Vertex -> Vertex;
  dot : Vertex -> Vertex -> float;
  asGrey : Colour -> float
}.

(** ** Loops *)

(** [for (int i = 0; i < n; ++i) body], threading the state the body
    mutates. *)
Definition for_loop {S : Type} (n : nat) (body : nat -> S -> S) (s : S) : S :=
  foldl (fun st i => body i st) s (seq 0 n).

(** ** cube.cpp: iterateLighting *)

(** The inner loop over sources [j], skipping [j == i]. *)
Definition gatherIncoming (qs : list Quad) (transfers : list float)
    (n i : nat) : Colour :=
  for_loop n (fun j incoming =>
    if (i =? j)%nat then incoming
    else cadd incoming
           (cscale (screenColour (qs !!! j)) (transfers !!! (i * n + j))))
    black.

Definition iterateLighting (qs : list Quad) (transfers : list float)
    : list Quad :=
  let n := length qs in
  let updatedColours :=
    for_loop n (fun i upd =>
      let incoming :=
        if isEmitter (qs !!! i)
        then mkColour Dbl.one Dbl.one Dbl.one
        else gatherIncoming qs transfers n i in
      <[i := cmul incoming (materialColour (qs !!! i))]> upd)
      (replicate n black) in
  for_loop n (fun i qs' =>
    <[i := setScreenColour (qs' !!! i) (updatedColours !!! i)]> qs') qs.

(** *** What one solver step computes, in the spec's words *)

Definition white : Colour := mkColour Dbl.one Dbl.one Dbl.one.

(** Entry [T[i][j]] of the flattened n-by-n matrix. *)
Definition entry (transfers : list float) (n i j : nat) : float :=
  transfers !!! (i * n + j).

(** Sum, in index order, of [screenColour[j] * T[i][j]] over all [j <> i]. *)
Definition sumOthers (qs : list Quad) (transfers : list float) (i : nat)
    : Colour :=
  foldl cadd black
    ((fun j => cscale (screenColour (qs !!! j))
                 (entry transfers (length qs) i j))
       <$> filter (fun j => j <> i) (seq 0 (length qs))).

(** [k] solver steps in a row. *)
Fixpoint iterateTimes (k : nat) (qs : list Quad) (transfers : list float)
    : list Quad :=
  match k with
  | 0 => qs
  | S k' => iterateLighting (iterateTimes k' qs transfers) transfers
  end.

(** ** cube.cpp: initLighting *)

(** Integral promotion of a [bool] and contextual conversion of an [int]
    to [bool]. *)
Definition int_of_bool (c : bool) : Z := if c then 1%Z else 0%Z.
Definition bool_of_int (n : Z) : bool := negb (n =? 0)%Z.

(** The emitter-placement test as the compiler parses it: relational
    operators bind tighter than [&], which binds tighter than [&&], so the
    condition is [fabs(c.x()) < 0.5 && ((fabs(c.z()) < 0.5) & (c.y() > 0.9))];
    [&&] evaluates its right operand only when the left one holds, and [&]
    works on the operands promoted to [int]. *)
Definition emitterTest (c : Vertex) : bool :=
  if PrimFloat.ltb (Dbl.fabs (x c)) 0x1p-1
  then bool_of_int
         (Z.land (int_of_bool (PrimFloat.ltb (Dbl.fabs (z c)) 0x1p-1))
                 (int_of_bool (Dbl.gtb (y c) 0x1.ccccccccccccdp-1)))
  else false.

(** The fully parenthesised logical AND of the three comparisons. *)
Definition emitterTestLogical (c : Vertex) : bool :=
  PrimFloat.ltb (Dbl.fabs (x c)) 0x1p-1
  && (PrimFloat.ltb (Dbl.fabs (z c)) 0x1p-1
      && Dbl.gtb (y c) 0x1.ccccccccccccdp-1).

Section InitLighting.
Context {G : Geom}.

(** The body of the loop of [initLighting], for one quad, with the
    emitter test as a parameter. *)
Definition initQuad (test : Vertex -> bool) (vs : list Vertex) (q : Quad)
    : Quad :=
  let c := paraCentre q vs in
  let q1 :=
    if test c
    then mkQuad (indices q) (mkColour 2 2 2) (mkColour 2 2 2) true
                (isSpecular q)
    else q in
  if PrimFloat.ltb (x c) (-0x1.ff7ced916872bp-1)
  then mkQuad (indices q1)
         (cmul (materialColour q1) (mkColour 1 0x1p-1 0x1p-1))
         (screenColour q1) (isEmitter q1) (isSpecular q1)
  else if Dbl.gtb (x c) 0x1.ff7ced916872bp-1
  then mkQuad (indices q1)
         (cmul (materialColour q1) (mkColour 0x1p-1 0x1p-1 1))
         (screenColour q1) (isEmitter q1) (isSpecular q1)
  else q1.

Definition initLightingWith (test : Vertex -> bool) (qs : list Quad)
    (vs : list Vertex) : list Quad :=
  initQuad test vs <$> qs.

Definition initLighting (qs : list Quad) (vs : list Vertex) : list Quad :=
  initLightingWith emitterTest qs vs.

End InitLighting.

(** ** cube.cpp: calcLight and the convergence loop of main *)

Definition CONVERGENCE_TARGET : float := 0x1.0624dd2f1a9fcp-10.

Section Convergence.
Context {G : Geom}.

(** Total light: area-weighted sum of the grey value of [screenColour]. *)
Definition calcLight (qs : list Quad) (vs : list Vertex) : float :=
  foldl (fun totalLight q =>
           (totalLight + asGrey (screenColour q) * paraArea q vs)%float)
        Dbl.zero qs.

(** [fabs(light / newLight - 1.0)] *)
Definition relChange (light newLight : float) : float :=
  Dbl.fabs (light / newLight - 1)%float.

(** The [do ... while (relChange > CONVERGENCE_TARGET)] loop of [main].
    The loop has no iteration cap, so the embedding takes fuel: the
    result is [None] when the loop is still running after [fuel]
    iterations, and otherwise the number of iterations executed together
    with the scene and total light the loop leaves. *)
Fixpoint convergeLoop (fuel : nat) (transfers : list float)
    (vs : list Vertex) (qs : list Quad) (light : float)
    : option (nat * list Quad * float) :=
  match fuel with
  | 0 => None
  | S fuel' =>
      let qs1 := iterateLighting qs transfers in
      let newLight := calcLight qs1 vs in
      if Dbl.gtb (relChange light newLight) CONVERGENCE_TARGET
      then match convergeLoop fuel' transfers vs qs1 newLight with
           | Some (k, qsk, lk) => Some (S k, qsk, lk)
           | None => None
           end
      else Some (1, qs1, newLight)
  end.

(** [main] enters the loop with [light = 0.0]. *)
Definition converge (fuel : nat) (transfers : list float)
    (vs : list Vertex) (qs : list Quad) : option (nat * list Quad * float) :=
  convergeLoop fuel transfers vs qs Dbl.zero.

(** The variable [light] after [k] iterations of a loop entered with
    [light = light0]: the total light after [k] solver steps. *)
Definition lightFrom (light0 : float) (k : nat) (transfers : list float)
    (vs : list Vertex) (qs : list Quad) : float :=
  match k with
  | 0 => light0
  | S _ => calcLight (iterateTimes k qs transfers) vs
  end.

(** The relative change the loop computes in its [k]-th iteration. *)
Definition relChangeFrom (light0 : float) (k : nat)
    (transfers : list float) (vs : list Vertex) (qs : list Quad) : float :=
  relChange (lightFrom light0 (k - 1) transfers vs qs)
            (lightFrom light0 k transfers vs qs).

Definition lightAfter := lightFrom Dbl.zero.
Definition relChangeAt := relChangeFrom Dbl.zero.

End Convergence.

(** ** transfers.cpp: the analytic transfer calculator *)

(** [Camera(eye, lookAt, up)] with its accessors. *)
Record Camera := mkCamera {
  getEyePos : Vertex;
  getLookAt : Vertex;
  getUp : Vertex
}.

Record AnalyticTransferCalculator := mkAnalytic {
  m_vertices : list Vertex;
  m_faces : list Quad
}.

Definition M_PI : float := 0x1.921fb54442d18p+1.

Section Analytic.
Context {G : Geom}.

Definition calcSingleQuadSubtended (this : AnalyticTransferCalculator)
    (cam : Camera) (quad : Quad) : float :=
  let centre := paraCentre quad (m_vertices this) in
  let dir := vsub centre (getEyePos cam) in
  (* Inverse square component. *)
  let l := len dir in
  let r2 := (1 / (l * l))%float in
  (* Area, scaled by angle to camera. *)
  let dir := norm dir in
  let nrm := paraCross quad (m_vertices this) in
  let area := Dbl.fmax 0 (dot nrm dir) in
  (* Normalise to surface area of 6. *)
  (0x1.8p+0 * r2 * area / M_PI)%float.

Definition calcSingleQuadLight (this : AnalyticTransferCalculator)
    (cam : Camera) (quad : Quad) : float :=
  let eyePos := getEyePos cam in
  let centre := paraCentre quad (m_vertices this) in
  let dir := vsub centre eyePos in
  (* Inverse square component. *)
  let l := len dir in
  let r2 := (1 / (l * l))%float in
  (* Area, scaled by angle to camera. *)
  let dir := norm dir in
  let nrm := paraCross quad (m_vertices this) in
  let area := Dbl.fmax 0 (dot nrm dir) in
  (* And angle to surface. *)
  let lookVec := norm (vsub (getLookAt cam) eyePos) in
  let cosCamAngle := Dbl.fmax 0 (dot lookVec dir) in
  (* Normalise to surface area of 6. *)
  (cosCamAngle * r2 * area / M_PI)%float.

(** The camera [calcAllLights] places on target [i]. *)
Definition cameraOn (this : AnalyticTransferCalculator) (i : nat)
    : Camera :=
  let currQuad := m_faces this !!! i in
  let eye := paraCentre currQuad (m_vertices this) in
  let lookAt := vsub eye (paraCross currQuad (m_vertices this)) in
  mkCamera eye lookAt (mkVertex 0 0 0).

(** [calcAllLights(weights)]: [weights] is cleared and then filled row by
    row with [push_back]. *)
Definition calcAllLights (this : AnalyticTransferCalculator)
    : list float :=
  let n := length (m_faces this) in
  for_loop n (fun i weights =>
    let cam := cameraOn this i in
    for_loop n (fun j weights =>
      weights ++ [calcSingleQuadLight this cam (m_faces this !!! j)])
      weights)
    [].

End Analytic.

(** ** cube.cpp: computeSpecularity *)

(** Conversion of a [double] to [float] (IEEE binary32: 24 bits of
    precision, exponent bound 128), rounding to nearest; the value is held
    in a [double] again, which represents every binary32 number. *)
Definition to_float32 (a : float) : float :=
  SF2Prim
    match Prim2SF a with
    | S754_finite s m e => binary_round 24 128 s m e
    | other => other
    end.

Definition specularPower : float := 32.
(** [0.02f], as the [double] it is promoted to. *)
Definition specularFactor : float := 0x1.47ae14p-6.

Section Specular.
Context {G : Geom}.
(** [std::pow] on [float] arguments, from the C library. *)
Variable powf : float -> float -> float.

(** The specular quantity a source [qj] adds to a target [qi], seen from
    the camera position [pos]. *)
Definition specularVal (vs : list Vertex) (pos : list float)
    (qi qj : Quad) : float :=
  (* Get the light vector *)
  let lightVector := vsub (paraCentre qi vs) (paraCentre qj vs) in
  let lightVector := norm lightVector in
  (* Get the normal vector *)
  let normalVector := paraCross qi vs in
  let normalVector := norm normalVector in
  (* Get the reflected vector *)
  let dotProduct := to_float32 (2 * dot normalVector lightVector)%float in
  let reflectedVector :=
    vsub (vscale normalVector dotProduct) lightVector in
  let reflectedVector := norm reflectedVector in
  (* Get the view vector *)
  let viewVector :=
    vsub (mkVertex (pos !!! 0) (pos !!! 1) (pos !!! 2))
         (paraCentre qi vs) in
  let viewVector := vscale (norm viewVector) (-1) in
  (* Get the specular quantity *)
  powf (Dbl.std_max (to_float32 (dot reflectedVector viewVector)) 0)
       specularPower.

(** The inner loop over sources [j]: skips [j == i] and every source
    that is not an emitter. *)
Definition gatherSpecular (qs : list Quad) (vs : list Vertex)
    (pos : list float) (n i : nat) : Colour :=
  for_loop n (fun j incoming =>
    if (i =? j)%nat then incoming
    else if isEmitter (qs !!! j)
    then cadd incoming
           (cscale (cscale (mkColour 1 1 1)
                      (specularVal vs pos (qs !!! i) (qs !!! j)))
                   specularFactor)
    else incoming)
    (mkColour 0 0 0).

Definition computeSpecularity (qs : list Quad) (vs : list Vertex)
    (pos : list float) : list Quad :=
  let n := length qs in
  let updatedColours :=
    for_loop n (fun i upd =>
      let upd := <[i := screenColour (qs !!! i)]> upd in
      if isSpecular (qs !!! i)
      then <[i := cadd (upd !!! i) (gatherSpecular qs vs pos n i)]> upd
      else upd)
      (replicate n black) in
  for_loop n (fun i qs' =>
    <[i := setScreenColour (qs' !!! i) (updatedColours !!! i)]> qs') qs.

(** *** The pass in the spec's words *)

(** The white highlight one emitter [qj] adds to the target [qi]. *)
Definition highlight (vs : list Vertex) (pos : list float) (qi qj : Quad)
    : Colour :=
  cscale (cscale white (specularVal vs pos qi qj)) specularFactor.

(** The indices of the emitters other than [i], in order. *)
Definition emittersOther (qs : list Quad) (i : nat) : list nat :=
  filter (fun j => j <> i /\ isEmitter (qs !!! j) = true)
         (seq 0 (length qs)).

(** Sum of the highlights of all emitters other than the target. *)
Definition specularSum (qs : list Quad) (vs : list Vertex)
    (pos : list float) (i : nat) : Colour :=
  foldl cadd black
    ((fun j => highlight vs pos (qs !!! i) (qs !!! j))
       <$> emittersOther qs i).

(** The sum read as "for every emitter element": the target is among its
    own sources when it is an emitter itself. *)
Definition emittersAll (qs : list Quad) : list nat :=
  filter (fun j => isEmitter (qs !!! j) = true) (seq 0 (length qs)).

Definition specularSumEveryEmitter (qs : list Quad) (vs : list Vertex)
    (pos : list float) (i : nat) : Colour :=
  foldl cadd black
    ((fun j => highlight vs pos (qs !!! i) (qs !!! j))
       <$> emittersAll qs).

End Specular.

(** ** rendering.cpp: facesUs and normaliseBrightness *)

Definition TARGET : float := 1.

Section Normalise.
Context {G : Geom}.
(** [sceneCamera.Position], the current camera position. *)
Variable Position : Vertex.

Definition facesUs (q : Quad) (vs : list Vertex) : bool :=
  Dbl.gtb (dot (vsub (paraCentre q vs)
                     (mkVertex (x Position) (y Position) (z Position)))
               (paraCross q vs))
          0.

(** The first loop: the largest channel of the non-emitters facing the
    camera, starting from [max]. *)
Definition scanMax (max : float) (qs : list Quad) (vs : list Vertex)
    : float :=
  foldl (fun max q =>
           if negb (isEmitter q) && facesUs q vs
           then
             let max := Dbl.std_max max (r (screenColour q)) in
             let max := Dbl.std_max max (g (screenColour q)) in
             Dbl.std_max max (b (screenColour q))
           else max)
        max qs.

(** [double max = 0.0] and the first loop. *)
Definition visibleMax (qs : list Quad) (vs : list Vertex) : float :=
  scanMax Dbl.zero qs vs.

(** The channels the scan looks at: those of the non-emitters that face
    the camera. *)
Definition visibleChannel (qs : list Quad) (vs : list Vertex)
    (c : float) : Prop :=
  exists q, q ∈ qs /\ isEmitter q = false /\ facesUs q vs = true /\
            (c = r (screenColour q) \/ c = g (screenColour q) \/
             c = b (screenColour q)).

Definition brightnessScale (qs : list Quad) (vs : list Vertex) : float :=
  let max := visibleMax qs vs in
  if PrimFloat.ltb max TARGET then (TARGET / max)%float else 1%float.

Definition normaliseBrightness (qs : list Quad) (vs : list Vertex)
    : list Quad :=
  let scale := brightnessScale qs vs in
  (fun q =>
     if negb (isEmitter q)
     then setScreenColour q (cscale (screenColour q) scale)
     else q) <$> qs.

End Normalise.

(** ** Signs of doubles *)

(** A double is NaN or has its sign bit clear: it is [+0], a positive
    number or [+infinity]. *)
Definition sf_sign_clear (v : spec_float) : bool :=
  match v with
  | S754_nan => true
  | S754_zero s | S754_infinity s | S754_finite s _ _ => negb s
  end.

Definition sign_clear (a : float) : Prop :=
  sf_sign_clear (Prim2SF a) = true.

(** A double is [+infinity] or NaN. *)
Definition inf_or_nan (a : float) : Prop :=
  a = infinity \/ a = nan.

(** A double is not less than zero: it is NaN, a zero of either sign, a
    positive number or [+infinity]. *)
Definition sf_not_negative (v : spec_float) : bool :=
  match v with
  | S754_infinity true | S754_finite true _ _ => false
  | _ => true
  end.

(** The mantissa of 1.0, two to the power 52. *)
Definition two52 : positive := 4503599627370496.

(** ** Comparing colours channel by channel *)

(** The channel [after] is not below the channel [before]: it never
    compares less, and it compares greater or equal unless it is NaN. *)
Definition channel_not_below (after before : float) : Prop :=
  PrimFloat.ltb after before = false /\
  (PrimFloat.is_nan after = false -> PrimFloat.leb before after = true).

Definition colour_not_below (after before : Colour) : Prop :=
  channel_not_below (r after) (r before) /\
  channel_not_below (g after) (g before) /\
  channel_not_below (b after) (b before).

(** Every channel of a colour is not negative. *)
Definition colour_not_negative (c : Colour) : Prop :=
  PrimFloat.ltb (r c) 0 = false /\
  PrimFloat.ltb (g c) 0 = false /\
  PrimFloat.ltb (b c) 0 = false.

(** Every channel of a colour is NaN or has its sign bit clear. *)
Definition colour_sign_clear (c : Colour) : Prop :=
  sign_clear (r c) /\ sign_clear (g c) /\ sign_clear (b c).

(** ** A reference geometry *)

(** Modelled from the spec: geom.cpp is not among the sources.  The spec
    speaks of an element's centroid, its outward normal, its area, of
    normalised direction vectors and of a greyscale reduction ("e.g.
    average"); these are the textbook definitions for a planar
    quadrilateral given by four vertex indices. *)
Module Ref.

Definition vadd (u v : Vertex) : Vertex :=
  mkVertex (x u + x v)%float (y u + y v)%float (z u + z v)%float.

Definition dot (u v : Vertex) : float :=
  (x u * x v + y u * y v + z u * z v)%float.

Definition cross (u v : Vertex) : Vertex :=
  mkVertex (y u * z v - z u * y v)%float
           (z u * x v - x u * z v)%float
           (x u * y v - y u * x v)%float.

Definition len (u : Vertex) : float := PrimFloat.sqrt (dot u u).

Definition norm (u : Vertex) : Vertex :=
  let l := len u in
  mkVertex (x u / l)%float (y u / l)%float (z u / l)%float.

Definition corner (q : Quad) (vs : list Vertex) (k : nat) : Vertex :=
  vs !!! (indices q !!! k).

Definition paraCentre (q : Quad) (vs : list Vertex) : Vertex :=
  vscale (vadd (vadd (corner q vs 0) (corner q vs 1))
               (vadd (corner q vs 2) (corner q vs 3)))
         0x1p-2.

Definition paraCross (q : Quad) (vs : list Vertex) : Vertex :=
  cross (vsub (corner q vs 1) (corner q vs 0))
        (vsub (corner q vs 3) (corner q vs 0)).

Definition paraArea (q : Quad) (vs : list Vertex) : float :=
  len (paraCross q vs).

Definition asGrey (c : Colour) : float := ((r c + g c + b c) / 3)%float.

(** A stand-in for [std::pow(a, 32.0f)], used where a concrete scene is
    evaluated: five squarings in [double], without the final rounding to
    binary32; only the exponent 32 of the specular pass is provided.
    Every general statement about the specular pass is made for an
    arbitrary [powf]. *)
Definition powf (a e : float) : float :=
  let sq v := (v * v)%float in
  sq (sq (sq (sq (sq a)))).

End Ref.

#[global] Instance refGeom : Geom := {
  paraCentre := Ref.paraCentre;
  paraCross := Ref.paraCross;
  paraArea := Ref.paraArea;
  len := Ref.len;
  norm := Ref.norm;
  dot := Ref.dot;
  asGrey := Ref.asGrey
}.

(** ** Test scenes *)

Module Scene.

(** A unit square in the plane [z = 0] and a second one in the plane
    [z = 1]. *)
Definition vertices : list Vertex :=
  [ mkVertex (-0x1p-1) (-0x1p-1) 0; mkVertex 0x1p-1 (-0x1p-1) 0;
    mkVertex 0x1p-1 0x1p-1 0; mkVertex (-0x1p-1) 0x1p-1 0;
    mkVertex (-0x1p-1) (-0x1p-1) 1; mkVertex 0x1p-1 (-0x1p-1) 1;
    mkVertex 0x1p-1 0x1p-1 1; mkVertex (-0x1p-1) 0x1p-1 1 ].

Definition grey : Colour := mkColour 0x1p-1 0x1p-1 0x1p-1.

(** The two sides of the lower square: the same four corners, wound in
    opposite directions. *)
Definition front (c : Colour) : Quad :=
  mkQuad [0; 1; 2; 3] grey c false false.
Definition back (c : Colour) : Quad :=
  mkQuad [3; 2; 1; 0] grey c false false.

(** The upper square, as a lamp looking down on the lower one. *)
Definition lamp : Quad :=
  mkQuad [4; 5; 6; 7] (mkColour 2 2 2) (mkColour 2 2 2) true false.

(** The default camera of rendering.cpp, [EYE_POS]. *)
Definition EYE_POS : Vertex := mkVertex 0 0 (-3).

(** The upper side of the lower square as a mirror. *)
Definition mirror (c : Colour) : Quad :=
  mkQuad [3; 2; 1; 0] grey c false true.

(** 49/64: a colour channel whose reciprocal is not exact. *)
Definition dim : Colour := mkColour 0x1.88p-1 0x1p-1 0x1p-2.

(** The mirror as a light source of its own: specular and an emitter. *)
Definition glowingMirror (c : Colour) : Quad :=
  mkQuad [3; 2; 1; 0] grey c true true.

(** The lamp before the first solver step has lit it: its colour on
    screen is still black. *)
Definition unlitLamp : Quad :=
  mkQuad [4; 5; 6; 7] (mkColour 2 2 2) black true false.

End Scene.

(** ** transfers.cpp: the rows of the analytic calculator *)

Module Analytic.
Section Rows.
Context {G : Geom}.

(** [AnalyticTransferCalculator::calcSubtended(cam)] *)
Definition calcSubtended (this : AnalyticTransferCalculator) (cam : Camera)
    : list float :=
  for_loop (length (m_faces this)) (fun i weights =>
    weights ++ [calcSingleQuadSubtended this cam (m_faces this !!! i)])
    [].

(** [AnalyticTransferCalculator::calcLight(cam)] *)
Definition calcLight (this : AnalyticTransferCalculator) (cam : Camera)
    : list float :=
  for_loop (length (m_faces this)) (fun i weights =>
    weights ++ [calcSingleQuadLight this cam (m_faces this !!! i)])
    [].

(** The factors of [calcSingleQuadLight], named as its local variables
    are. *)
Definition r2 (this : AnalyticTransferCalculator) (cam : Camera)
    (quad : Quad) : float :=
  let l := len (vsub (paraCentre quad (m_vertices this)) (getEyePos cam)) in
  (1 / (l * l))%float.

Definition dir (this : AnalyticTransferCalculator) (cam : Camera)
    (quad : Quad) : Vertex :=
  norm (vsub (paraCentre quad (m_vertices this)) (getEyePos cam)).

Definition cosCamAngle (this : AnalyticTransferCalculator) (cam : Camera)
    (quad : Quad) : float :=
  Dbl.fmax 0 (dot (norm (vsub (getLookAt cam) (getEyePos cam)))
                  (dir this cam quad)).

End Rows.
End Analytic.

(** ** transfers.cpp: the rendering calculator *)

(** The calculator draws every face in a colour that encodes its index,
    reads the frame buffer back and adds up a weight per pixel.  The
    rasteriser (GLUT and OpenGL) is outside the program: the bytes that
    [glReadPixels] delivers are a parameter of the embedding, and so are
    the weight tables of weighting.cpp and [Vertex::perp] of geom.h, which
    are not among the sources. *)

From Stdlib Require Strings.Byte Strings.String.

#[global] Instance byte_inhabited : Inhabited Byte.byte := populate Byte.x00.

Module Render.

(** The six directions of the cube map ([viewFront] ... [viewDown], the
    functions handed to [calcFace]). *)
Inductive viewFn :=
  viewFront | viewBack | viewRight | viewLeft | viewUp | viewDown.

Record RenderTransferCalculator := mkRender {
  m_vertices : list Vertex;
  m_faces : list Quad;
  m_resolution : Z;
  m_sums : list float;
  m_subtendWeights : list float;
  m_forwardLightWeights : list float;
  m_sideLightWeights : list float
}.

Definition set_sums (this : RenderTransferCalculator) (sums : list float)
    : RenderTransferCalculator :=
  mkRender (m_vertices this) (m_faces this) (m_resolution this) sums
    (m_subtendWeights this) (m_forwardLightWeights this)
    (m_sideLightWeights this).

Definition set_subtendWeights (this : RenderTransferCalculator)
    (ws : list float) : RenderTransferCalculator :=
  mkRender (m_vertices this) (m_faces this) (m_resolution this)
    (m_sums this) ws (m_forwardLightWeights this) (m_sideLightWeights this).

Definition set_forwardLightWeights (this : RenderTransferCalculator)
    (ws : list float) : RenderTransferCalculator :=
  mkRender (m_vertices this) (m_faces this) (m_resolution this)
    (m_sums this) (m_subtendWeights this) ws (m_sideLightWeights this).

Definition set_sideLightWeights (this : RenderTransferCalculator)
    (ws : list float) : RenderTransferCalculator :=
  mkRender (m_vertices this) (m_faces this) (m_resolution this)
    (m_sums this) (m_subtendWeights this) (m_forwardLightWeights this) ws.

Definition NUM_CHANS : nat := 4.

(** A [GLubyte] promoted to [int]. *)
Definition ubyte (p : Byte.byte) : Z := Z.of_N (Byte.to_N p).

(** [(r + (g << 6) + (b << 12)) >> 2] on [int]; with operands below 256
    the sum stays below 2^31, so no wrap-around is involved. *)
Definition decodeIndex (red green blue : Z) : Z :=
  Z.shiftr (red + Z.shiftl green 6 + Z.shiftl blue 12) 2.

(** [index] for the pixel that starts at byte [i] of the buffer. *)
Definition pixelIndex (pixels : list Byte.byte) (i : nat) : Z :=
  decodeIndex (ubyte (pixels !!! i)) (ubyte (pixels !!! (i + 1)))
              (ubyte (pixels !!! (i + 2))).

(** The loop of [sumWeights]:
    [for (int i = 0, n = pixels.size(); i < n; i += NUM_CHANS)], that is
    round [k] with [i = NUM_CHANS * k] as long as [i < n].  The buffer
    holds [NUM_CHANS] bytes per weight, so the loop runs once per
    weight.  An index past the last face is outside [m_sums], which is
    undefined in C++; the embedding leaves the sums as they are, and
    [showsFacesOnly] below is the condition under which no such index
    occurs. *)
Definition sumPixels (pixels : list Byte.byte) (weights : list float)
    (sums : list float) : list float :=
  for_loop ((length pixels + (NUM_CHANS - 1)) / NUM_CHANS) (fun k sums =>
    let i := NUM_CHANS * k in
    let index := pixelIndex pixels i in
    if (0 <? index)%Z
    then <[Z.to_nat (index - 1) :=
             PrimFloat.add (sums !!! Z.to_nat (index - 1))
                           (weights !!! (i / 4))]>
           sums
    else sums)
    sums.

(** Every pixel of a buffer shows the background (index 0) or one of [n]
    faces (index 1 to [n]).  [render] draws face [i] in the colour of
    index [i + 1] and nothing else, and [sumWeights] relies on it when it
    writes [m_sums[index - 1]] without a bounds check. *)
Definition showsFacesOnly (n : nat) (pixels : list Byte.byte) : bool :=
  forallb (fun k =>
             (pixelIndex pixels (NUM_CHANS * k) <=? Z.of_nat n)%Z)
          (seq 0 ((length pixels + (NUM_CHANS - 1)) / NUM_CHANS)).

Section Calculator.
Context {G : Geom}.

(** The bytes [glReadPixels(0, 0, width, height, GL_RGBA,
    GL_UNSIGNED_BYTE, ...)] delivers once [calcFace] has drawn the faces
    of the scene from the camera, turned towards the given direction, with
    the scissor test enabled or not. *)
Variable glReadPixels :
  list Vertex -> list Quad -> bool -> viewFn -> Camera -> Z -> Z ->
  list Byte.byte.

(** weighting.cpp: each function fills the vector it is handed for the
    given resolution. *)
Variable calcSubtendWeights : Z -> list float -> list float.
Variable calcForwardLightWeights : Z -> list float -> list float.
Variable calcSideLightWeights : Z -> list float -> list float.

(** geom.h: [Vertex::perp]. *)
Variable perp : Vertex -> Vertex.

(** The buffer of [sumWeights] once the frame is read back: [pixels] is a
    vector of [NUM_CHANS * weights.size()] bytes, zero at first, into
    which [glReadPixels] writes a frame of [m_resolution] by
    [weights.size() / m_resolution] pixels.  [scissor], [view] and [cam]
    are the state of the rasteriser that [calcFace] has set up. *)
Definition readPixels (vertices : list Vertex) (faces : list Quad)
    (resolution : Z) (scissor : bool) (view : viewFn) (cam : Camera)
    (weights : list float) : list Byte.byte :=
  resize (NUM_CHANS * length weights) Byte.x00
    (glReadPixels vertices faces scissor view cam resolution
       (Z.of_nat (length weights) / resolution)).

(** The rasteriser draws the scene it is given: whatever the view, the
    camera and the size of the weight table are, the buffer that is read
    back shows faces of the scene only. *)
Definition drawsFacesOnly (vertices : list Vertex) (faces : list Quad)
    (resolution : Z) : Prop :=
  forall scissor view cam weights,
    showsFacesOnly (length faces)
      (readPixels vertices faces resolution scissor view cam weights)
    = true.

(** [sumWeights(weights)], after the scene was drawn. *)
Definition sumWeights (this : RenderTransferCalculator) (scissor : bool)
    (view : viewFn) (cam : Camera) (weights : list float)
    : RenderTransferCalculator :=
  let pixels :=
    readPixels (m_vertices this) (m_faces this) (m_resolution this)
      scissor view cam weights in
  set_sums this (sumPixels pixels weights (m_sums this)).

(** [calcFace(cam, view, weights)]: set the view up, clear, draw the
    scene and sum the weights of what is seen. *)
Definition calcFace (this : RenderTransferCalculator) (scissor : bool)
    (cam : Camera) (view : viewFn) (weights : list float)
    : RenderTransferCalculator :=
  sumWeights this scissor view cam weights.

(** The three weight tables are computed on first use and kept. *)
Definition getSubtendWeights (this : RenderTransferCalculator)
    : RenderTransferCalculator * list float :=
  let this :=
    match m_subtendWeights this with
    | [] => set_subtendWeights this
              (calcSubtendWeights (m_resolution this)
                 (m_subtendWeights this))
    | _ => this
    end in
  (this, m_subtendWeights this).

Definition getForwardLightWeights (this : RenderTransferCalculator)
    : RenderTransferCalculator * list float :=
  let this :=
    match m_forwardLightWeights this with
    | [] => set_forwardLightWeights this
              (calcForwardLightWeights (m_resolution this)
                 (m_forwardLightWeights this))
    | _ => this
    end in
  (this, m_forwardLightWeights this).

Definition getSideLightWeights (this : RenderTransferCalculator)
    : RenderTransferCalculator * list float :=
  let this :=
    match m_sideLightWeights this with
    | [] => set_sideLightWeights this
              (calcSideLightWeights (m_resolution this)
                 (m_sideLightWeights this))
    | _ => this
    end in
  (this, m_sideLightWeights this).

(** [m_sums.clear(); m_sums.resize(m_faces.size())]: one sum per face,
    all of them [0.0]. *)
Definition resetSums (this : RenderTransferCalculator)
    : RenderTransferCalculator :=
  set_sums this (resize (length (m_faces this)) Dbl.zero []).

(** [calcSubtended(cam)]: the full cube map. *)
Definition calcSubtended (this : RenderTransferCalculator) (cam : Camera)
    : RenderTransferCalculator * list float :=
  let this := resetSums this in
  let '(this, ws) := getSubtendWeights this in
  let this := calcFace this false cam viewFront ws in
  let this := calcFace this false cam viewBack ws in
  let this := calcFace this false cam viewRight ws in
  let this := calcFace this false cam viewLeft ws in
  let this := calcFace this false cam viewUp ws in
  let this := calcFace this false cam viewDown ws in
  (this, m_sums this).

(** [calcLight(cam)]: the front face and, with the scissor test on, the
    near halves of the four side faces. *)
Definition calcLight (this : RenderTransferCalculator) (cam : Camera)
    : RenderTransferCalculator * list float :=
  let this := resetSums this in
  let '(this, fws) := getForwardLightWeights this in
  let '(this, sws) := getSideLightWeights this in
  let this := calcFace this false cam viewFront fws in
  let this := calcFace this true cam viewRight sws in
  let this := calcFace this true cam viewLeft sws in
  let this := calcFace this true cam viewUp sws in
  let this := calcFace this true cam viewDown sws in
  (this, m_sums this).

(** The camera [calcAllLights] places on target [i]. *)
Definition cameraOn (this : RenderTransferCalculator) (i : nat) : Camera :=
  let currQuad := m_faces this !!! i in
  let eye := paraCentre currQuad (m_vertices this) in
  let dir := paraCross currQuad (m_vertices this) in
  let lookAt := vsub eye dir in
  let up := perp dir in
  mkCamera eye lookAt up.

(** [calcAllLights(weights)]: [weights] is cleared, and the row of every
    target is appended to it.  (The progress dots written to [std::cerr]
    are left out.) *)
Definition calcAllLights (this : RenderTransferCalculator)
    : RenderTransferCalculator * list float :=
  let n := length (m_faces this) in
  for_loop n (fun i '(this, weights) =>
    let cam := cameraOn this i in
    let '(this, faceWeights) := calcLight this cam in
    (this, weights ++ faceWeights))
    (this, []).

(** The weight tables a calculator works with: the ones it holds, or, as
    long as it holds none, the ones it computes. *)
Definition subtendWeights (this : RenderTransferCalculator)
    : list float :=
  snd (getSubtendWeights this).

Definition forwardLightWeights (this : RenderTransferCalculator)
    : list float :=
  snd (getForwardLightWeights this).

Definition sideLightWeights (this : RenderTransferCalculator)
    : list float :=
  snd (getSideLightWeights this).

(** *** The sums of [calcLight] as a function of the weight tables *)

(** One [calcFace]: the sums after the weights of the pixels seen in one
    direction were added to [sums]. *)
Definition faceSums (vertices : list Vertex) (faces : list Quad)
    (resolution : Z) (scissor : bool) (view : viewFn) (cam : Camera)
    (weights : list float) (sums : list float) : list float :=
  sumPixels
    (readPixels vertices faces resolution scissor view cam weights)
    weights sums.

(** The five faces of [calcLight], starting from sums that are all
    zero. *)
Definition lightSums (vertices : list Vertex) (faces : list Quad)
    (resolution : Z) (fws sws : list float) (cam : Camera) : list float :=
  let sums := replicate (length faces) Dbl.zero in
  let sums :=
    faceSums vertices faces resolution false viewFront cam fws sums in
  let sums :=
    faceSums vertices faces resolution true viewRight cam sws sums in
  let sums :=
    faceSums vertices faces resolution true viewLeft cam sws sums in
  let sums :=
    faceSums vertices faces resolution true viewUp cam sws sums in
  faceSums vertices faces resolution true viewDown cam sws sums.

(** The six faces of [calcSubtended], starting from sums that are all
    zero. *)
Definition subtendSums (vertices : list Vertex) (faces : list Quad)
    (resolution : Z) (ws : list float) (cam : Camera) : list float :=
  let sums := replicate (length faces) Dbl.zero in
  let sums :=
    faceSums vertices faces resolution false viewFront cam ws sums in
  let sums :=
    faceSums vertices faces resolution false viewBack cam ws sums in
  let sums :=
    faceSums vertices faces resolution false viewRight cam ws sums in
  let sums :=
    faceSums vertices faces resolution false viewLeft cam ws sums in
  let sums :=
    faceSums vertices faces resolution false viewUp cam ws sums in
  faceSums vertices faces resolution false viewDown cam ws sums.

(** The constructor: no sums and no weight tables yet. *)
Definition new (vertices : list Vertex) (faces : list Quad)
    (resolution : Z) : RenderTransferCalculator :=
  mkRender vertices faces resolution [] [] [] [].

End Calculator.
End Render.

(** ** rendering.cpp: screenshotPNG, getCameraPos *)

Section Screenshot.
(** defines.h: the size of the window. *)
Variables WIDTH HEIGHT : nat.

Definition format_nchannels : nat := 4.

Definition nvals : nat := format_nchannels * WIDTH * HEIGHT.

(** The table of row pointers handed to [png_write_image].  A pointer
    into [pixels] is the offset it points at; a pointer that was never set
    is [None]. *)
Definition png_rows : list (option nat) :=
  for_loop HEIGHT (fun i png_rows =>
    <[HEIGHT - i - 1 := Some (i * WIDTH * format_nchannels)]> png_rows)
    (replicate HEIGHT None).

End Screenshot.

(** ** rendering.cpp: display *)

Module Display.
Import String.

(** The file the first frame is saved to. *)
Definition scene_png : string := "../png/scene.png".

(** What [display] asks of the outside world, in the order it asks. *)
Inductive call :=
  | glClear
  | drawScene
  | screenshotPNG (filename : string)
  | glutSwapBuffers.

(** [display()], with the static flag [firstRender] passed in and out. *)
Definition display (firstRender : bool) : list call * bool :=
  let calls := [glClear; drawScene] in
  let '(calls, firstRender) :=
    if firstRender
    then (calls ++ [screenshotPNG scene_png], false)
    else (calls, firstRender) in
  (calls ++ [glutSwapBuffers], firstRender).

(** [n] frames in a row: [render] calls [display] once itself, and
    [glutMainLoop] calls it for every further frame. *)
Fixpoint frames (n : nat) (firstRender : bool) : list call * bool :=
  match n with
  | 0 => ([], firstRender)
  | S n' =>
      let '(calls, firstRender) := display firstRender in
      let '(later, firstRender) := frames n' firstRender in
      (calls ++ later, firstRender)
  end.

End Display.

(** [getCameraPos()]: the three coordinates of [sceneCamera.Position],
    which are binary32 numbers and are stored as they are. *)
Definition getCameraPos (Position : Vertex) : list float :=
  let pos := replicate 3 0%float in
  let pos := <[0 := x Position]> pos in
  let pos := <[1 := y Position]> pos in
  <[2 := z Position]> pos.

(** ** cube.cpp: main *)

Section Main.
Context {G : Geom}.
(** The rasteriser, the weight tables and [Vertex::perp], as for the
    rendering calculator. *)
Variable glReadPixels :
  list Vertex -> list Quad -> bool -> Render.viewFn -> Camera -> Z -> Z ->
  list Byte.byte.
Variable calcForwardLightWeights : Z -> list float -> list float.
Variable calcSideLightWeights : Z -> list float -> list float.
Variable perp : Vertex -> Vertex.
Variable powf : float -> float -> float.
(** [sceneCamera.Position] while [main] computes. *)
Variable Position : Vertex.

(** The lighting computation of [main], from the geometry that
    [initGeometry] has set up to the colours that are handed on to the
    Gouraud shading and the renderer.  The loop of [main] has no iteration
    cap: the result is [None] when it is still running after [fuel]
    iterations. *)
Definition main (fuel : nat) (faces : list Quad) (vertices : list Vertex)
    : option (list Quad) :=
  let faces := initLighting faces vertices in
  let transfers :=
    snd (Render.calcAllLights glReadPixels calcForwardLightWeights
           calcSideLightWeights perp (Render.new vertices faces 256)) in
  match converge fuel transfers vertices faces with
  | Some (_, faces, _) =>
      let faces :=
        computeSpecularity powf faces vertices (getCameraPos Position) in
      Some (normaliseBrightness Position faces vertices)
  | None => None
  end.

End Main.

(** ** A second test scene *)

Module Room.

(** A small square in the ceiling [y = 1], a unit square in the left
    wall [x = -1] and one in the floor [y = -1]. *)
Definition vertices : list Vertex :=
  [ mkVertex (-0x1p-2) 1 (-0x1p-2); mkVertex 0x1p-2 1 (-0x1p-2);
    mkVertex 0x1p-2 1 0x1p-2; mkVertex (-0x1p-2) 1 0x1p-2;
    mkVertex (-1) (-0x1p-1) (-0x1p-1); mkVertex (-1) 0x1p-1 (-0x1p-1);
    mkVertex (-1) 0x1p-1 0x1p-1; mkVertex (-1) (-0x1p-1) 0x1p-1;
    mkVertex (-0x1p-1) (-1) (-0x1p-1); mkVertex 0x1p-1 (-1) (-0x1p-1);
    mkVertex 0x1p-1 (-1) 0x1p-1; mkVertex (-0x1p-1) (-1) 0x1p-1 ].

Definition plain (ix : list nat) : Quad :=
  mkQuad ix (mkColour 1 1 1) black false false.

Definition ceiling : Quad := plain [0; 1; 2; 3].
Definition leftWall : Quad := plain [4; 5; 6; 7].
Definition floor : Quad := plain [8; 9; 10; 11].

Definition faces : list Quad := [ceiling; leftWall; floor].

End Room.

(** ** A stand-in for the rasteriser *)

Module Demo.

(** A pixel that shows the face with index 1 (the first face): red 4,
    green 0, blue 0, alpha 255. *)
Definition screen : list Byte.byte :=
  [Byte.x04; Byte.x00; Byte.x00; Byte.xff].

(** A rasteriser that sees the first face wherever it looks: a frame of
    [width] by [height] pixels, all of them showing that face. *)
Definition glReadPixels (vertices : list Vertex) (faces : list Quad)
    (scissor : bool) (view : Render.viewFn) (cam : Camera)
    (width height : Z) : list Byte.byte :=
  concat (replicate (Z.to_nat (width * height)) screen).

(** Weight tables for a frame of a single row, every weight 1/4. *)
Definition weightTable (resolution : Z) (weights : list float)
    : list float :=
  replicate (Z.to_nat resolution) 0x1p-2%float.

Definition perp (v : Vertex) : Vertex := mkVertex (y v) (x v) (z v).

End Demo.

(** * Proofs *)

(** ** Loop lemmas *)

Lemma for_loop_S {S : Type} (n : nat) (body : nat -> S -> S) (s : S) :
  for_loop (Datatypes.S n) body s = body n (for_loop n body s).
Proof.
  unfold for_loop. rewrite seq_S, foldl_app. reflexivity.
Qed.

Lemma for_loop_0 {S : Type} (body : nat -> S -> S) (s : S) :
  for_loop 0 body s = s.
Proof. reflexivity. Qed.

(** A loop that stores [f i] at index [i] of a vector, for [i < n]. *)
Lemma for_loop_store_length {A : Type} (f : nat -> list A -> A) (n : nat)
    (v : list A) :
  length (for_loop n (fun i w => <[i := f i w]> w) v) = length v.
Proof.
  induction n as [|n IH]; [reflexivity|].
  rewrite for_loop_S, length_insert. exact IH.
Qed.

Lemma for_loop_store_lookup {A : Type} (f : nat -> A) (n : nat) (v : list A)
    (i : nat) :
  for_loop n (fun k w => <[k := f k]> w) v !! i =
  if decide (i < n) then (fun _ => f i) <$> v !! i else v !! i.
Proof.
  induction n as [|n IH].
  - rewrite for_loop_0. case_decide; [lia | reflexivity].
  - rewrite for_loop_S.
    destruct (decide (i = n)) as [->|Hne].
    + rewrite decide_True by lia.
      destruct (decide (n < length v)) as [Hlt|Hge].
      * rewrite list_lookup_insert_eq
          by (rewrite (for_loop_store_length (fun k _ => f k)); exact Hlt).
        destruct (lookup_lt_is_Some_2 v n Hlt) as [a ->]. reflexivity.
      * rewrite list_insert_ge
          by (rewrite (for_loop_store_length (fun k _ => f k)); lia).
        rewrite IH, decide_False by lia.
        rewrite (lookup_ge_None_2 v n) by lia. reflexivity.
    + rewrite list_lookup_insert_ne by congruence.
      rewrite IH. repeat case_decide; try lia; reflexivity.
Qed.

(** A loop that rewrites element [k] of a vector from its current value. *)
Lemma for_loop_alter_length {A : Type} `{!Inhabited A} (h : nat -> A -> A)
    (n : nat) (v : list A) :
  length (for_loop n (fun k w => <[k := h k (w !!! k)]> w) v) = length v.
Proof.
  exact (for_loop_store_length (fun k w => h k (w !!! k)) n v).
Qed.

Lemma for_loop_alter_lookup {A : Type} `{!Inhabited A} (h : nat -> A -> A)
    (n : nat) (v : list A) (i : nat) :
  for_loop n (fun k w => <[k := h k (w !!! k)]> w) v !! i =
  if decide (i < n) then h i <$> v !! i else v !! i.
Proof.
  induction n as [|n IH].
  - rewrite for_loop_0. case_decide; [lia | reflexivity].
  - rewrite for_loop_S.
    set (w := for_loop n _ v) in *.
    assert (Hlen : length w = length v) by apply for_loop_alter_length.
    destruct (decide (i = n)) as [->|Hne].
    + rewrite decide_True by lia.
      rewrite decide_False in IH by lia.
      destruct (decide (n < length v)) as [Hlt|Hge].
      * rewrite list_lookup_insert_eq by lia.
        rewrite list_lookup_total_alt, IH.
        destruct (lookup_lt_is_Some_2 v n Hlt) as [a ->]. reflexivity.
      * rewrite list_insert_ge by lia.
        rewrite IH, (lookup_ge_None_2 v n) by lia. reflexivity.
    + rewrite list_lookup_insert_ne by congruence.
      rewrite IH. repeat case_decide; try lia; reflexivity.
Qed.

Lemma foldl_ext_fun {A B : Type} (f h : A -> B -> A) (l : list B) (a : A) :
  (forall st u, f st u = h st u) -> foldl f a l = foldl h a l.
Proof.
  intros Hfh. revert a.
  induction l as [|u l IH]; intros a; [reflexivity|].
  cbn [foldl]. rewrite Hfh. apply IH.
Qed.

(** A loop body that only acts on the indices it keeps is a fold over
    those indices. *)
Lemma foldl_keep {A : Type} (op : A -> A -> A) (term : nat -> A)
    (keep : nat -> bool) (P : nat -> Prop) `{!forall j, Decision (P j)}
    (l : list nat) (acc : A) :
  (forall j, keep j = true <-> P j) ->
  foldl (fun st j => if keep j then op st (term j) else st) acc l =
  foldl op acc (term <$> filter P l).
Proof.
  intros Hkeep. revert acc.
  induction l as [|j l IH]; intros acc; [reflexivity|].
  cbn [foldl]. rewrite filter_cons.
  destruct (keep j) eqn:Hj.
  - rewrite decide_True by (apply Hkeep; exact Hj).
    cbn [fmap list_fmap foldl]. apply IH.
  - rewrite decide_False
      by (intros HP; apply Hkeep in HP; congruence).
    apply IH.
Qed.

Lemma gatherIncoming_sumOthers (qs : list Quad) (transfers : list float)
    (i : nat) :
  gatherIncoming qs transfers (length qs) i = sumOthers qs transfers i.
Proof.
  unfold gatherIncoming, sumOthers, for_loop, entry.
  rewrite <- (foldl_keep cadd
                (fun j => cscale (screenColour (qs !!! j))
                            (transfers !!! (i * length qs + j)))
                (fun j => negb (i =? j)%nat)).
  - apply foldl_ext_fun. intros st j. destruct (i =? j)%nat; reflexivity.
  - intros j. rewrite negb_true_iff, Nat.eqb_neq. split; congruence.
Qed.

(** ** One solver step *)

(** Element [i] after one solver step. *)
Lemma iterateLighting_at (qs : list Quad) (transfers : list float)
    (i : nat) :
  iterateLighting qs transfers !! i =
  (fun q =>
     setScreenColour q
       (cmul (if isEmitter q then white else sumOthers qs transfers i)
             (materialColour q))) <$> qs !! i.
Proof.
  unfold iterateLighting.
  set (n := length qs).
  set (f := fun i : nat =>
              cmul (if isEmitter (qs !!! i)
                    then mkColour Dbl.one Dbl.one Dbl.one
                    else gatherIncoming qs transfers n i)
                   (materialColour (qs !!! i))).
  set (upd := for_loop n _ (replicate n black)).
  assert (Hupd : forall i, i < n -> upd !!! i = f i).
  { intros k Hk. rewrite list_lookup_total_alt.
    change upd with
      (for_loop n (fun k w => <[k := f k]> w) (replicate n black)).
    rewrite (for_loop_store_lookup f n (replicate n black) k).
    rewrite decide_True by exact Hk.
    rewrite lookup_replicate_2 by exact Hk. reflexivity. }
  rewrite (for_loop_alter_lookup
             (fun k q => setScreenColour q (upd !!! k)) n qs i).
  destruct (qs !! i) as [q|] eqn:Hq.
  - assert (Hi : i < n) by (apply lookup_lt_Some in Hq; exact Hq).
    rewrite decide_True by exact Hi. cbn [fmap option_fmap option_map].
    rewrite (Hupd i Hi). unfold f.
    rewrite (list_lookup_total_correct qs i q Hq).
    unfold n. rewrite gatherIncoming_sumOthers. reflexivity.
  - case_decide; reflexivity.
Qed.

(** ** The solver across iterations *)

Lemma iterateLighting_length (qs : list Quad) (transfers : list float) :
  length (iterateLighting qs transfers) = length qs.
Proof.
  unfold iterateLighting.
  apply (for_loop_alter_length
           (fun k q => setScreenColour q (_ !!! k))).
Qed.

Lemma iterateLighting_lookup (qs : list Quad) (transfers : list float)
    (i : nat) :
  i < length qs ->
  iterateLighting qs transfers !!! i =
  setScreenColour (qs !!! i)
    (cmul (if isEmitter (qs !!! i) then white else sumOthers qs transfers i)
          (materialColour (qs !!! i))).
Proof.
  intros Hi. rewrite !list_lookup_total_alt, iterateLighting_at.
  destruct (lookup_lt_is_Some_2 qs i Hi) as [q ->]. reflexivity.
Qed.

(** A channel of a sum of colours is the sum of the channels, in the same
    order. *)
Lemma foldl_cadd_channel {A : Type} (ch : Colour -> float)
    (f : A -> Colour) (l : list A) (acc : Colour) :
  (forall c d, ch (cadd c d) = (ch c + ch d)%float) ->
  ch (foldl cadd acc (f <$> l)) =
  foldl (fun sum j => (sum + ch (f j))%float) (ch acc) l.
Proof.
  intros Hch. revert acc.
  induction l as [|j l IH]; intros acc; [reflexivity|].
  cbn [fmap list_fmap foldl]. rewrite IH, Hch. reflexivity.
Qed.

(** C1: one step of the iterative light solver gives every element [i] the
    radiance [incoming * materialColour[i]], channel by channel, where
    [incoming] is the fixed white (1,1,1) for an emitter and otherwise the
    sum, in index order, over all [j <> i] of [screenColour[j] * T[i][j]].
    Every term is read from the scene as it was before the step, so no
    element sees a colour written in the same step, and the step writes
    [screenColour] only: the scene keeps its length, and every element its
    material colour, flags and vertex indices. *)
Theorem iterateLighting_step (qs : list Quad) (transfers : list float)
    (i : nat) :
  i < length qs ->
  let n := length qs in
  let q := qs !!! i in
  let q' := iterateLighting qs transfers !!! i in
  let incoming (ch : Colour -> float) : float :=
    if isEmitter q then 1%float
    else foldl (fun sum j =>
                  (sum + ch (screenColour (qs !!! j))
                         * transfers !!! (i * n + j)%nat)%float)
               0%float (filter (fun j => j <> i) (seq 0 n)) in
  length (iterateLighting qs transfers) = n /\
  r (screenColour q') = (incoming r * r (materialColour q))%float /\
  g (screenColour q') = (incoming g * g (materialColour q))%float /\
  b (screenColour q') = (incoming b * b (materialColour q))%float /\
  materialColour q' = materialColour q /\
  isEmitter q' = isEmitter q /\
  isSpecular q' = isSpecular q /\
  indices q' = indices q.
Proof.
  intros Hi n q q' incoming.
  split; [apply iterateLighting_length|].
  unfold q'. rewrite iterateLighting_lookup by exact Hi. fold q.
  cbn [setScreenColour screenColour materialColour isEmitter isSpecular
       indices].
  assert (Hsum : forall ch : Colour -> float,
            (forall c d, ch (cadd c d) = (ch c + ch d)%float) ->
            ch black = 0%float ->
            (forall c s, ch (cscale c s) = (ch c * s)%float) ->
            isEmitter q = false ->
            ch (sumOthers qs transfers i) = incoming ch).
  { intros ch Hadd Hblack Hscale Hem. unfold incoming, sumOthers, entry.
    rewrite Hem, (foldl_cadd_channel ch) by exact Hadd.
    rewrite Hblack. apply foldl_ext_fun. intros sum j.
    rewrite Hscale. reflexivity. }
  destruct (isEmitter q) eqn:Hem.
  - unfold incoming. rewrite ?Hem. repeat split.
  - unfold cmul. cbn [r g b].
    rewrite (Hsum r), (Hsum g), (Hsum b) by (reflexivity || exact Hem).
    repeat split.
Qed.

(** In a scene of a lamp over a grey square, with a quarter of the lamp's
    light reaching the square: the square receives 2 * 0.25 in every
    channel and reflects half of it. *)
Lemma iterateLighting_step_witness :
  let qs := [Scene.lamp; Scene.front black] in
  let T := [0; 0x1p-2; 0x1p-2; 0]%float in
  r (screenColour (iterateLighting qs T !!! 1)) = 0x1p-2%float.
Proof.
  intros qs T.
  exact (proj1 (proj2 (iterateLighting_step qs T 1 ltac:(cbn; lia)))).
Defined.

Lemma iterateTimes_length (k : nat) (qs : list Quad)
    (transfers : list float) :
  length (iterateTimes k qs transfers) = length qs.
Proof.
  induction k as [|k IH]; [reflexivity|].
  cbn [iterateTimes]. rewrite iterateLighting_length. exact IH.
Qed.

(** The solver only ever writes [screenColour]. *)
Lemma iterateTimes_attributes (k : nat) (qs : list Quad)
    (transfers : list float) (i : nat) :
  i < length qs ->
  isEmitter (iterateTimes k qs transfers !!! i) = isEmitter (qs !!! i) /\
  materialColour (iterateTimes k qs transfers !!! i) =
    materialColour (qs !!! i) /\
  isSpecular (iterateTimes k qs transfers !!! i) = isSpecular (qs !!! i) /\
  indices (iterateTimes k qs transfers !!! i) = indices (qs !!! i).
Proof.
  intros Hi. induction k as [|k IH]; [repeat split|].
  cbn [iterateTimes].
  rewrite iterateLighting_lookup by (rewrite iterateTimes_length; exact Hi).
  exact IH.
Qed.

Lemma iterateTimes_shift (k : nat) (qs : list Quad)
    (transfers : list float) :
  iterateTimes (S k) qs transfers =
  iterateTimes k (iterateLighting qs transfers) transfers.
Proof.
  induction k as [|k IH]; [reflexivity|].
  change (iterateTimes (S (S k)) qs transfers)
    with (iterateLighting (iterateTimes (S k) qs transfers) transfers).
  rewrite IH. reflexivity.
Qed.

(** C8: across all solver iterations an element flagged [isEmitter] reports
    the same radiance after every iteration, the fixed white incoming
    (1,1,1) times its own [materialColour], whatever the transfer matrix
    holds and whatever the colours of the other elements are. *)
Theorem emitter_invariance (qs : list Quad) (transfers : list float)
    (k i : nat) :
  i < length qs ->
  isEmitter (qs !!! i) = true ->
  screenColour (iterateTimes (S k) qs transfers !!! i) =
  cmul (mkColour 1 1 1) (materialColour (qs !!! i)).
Proof.
  intros Hi Hem. cbn [iterateTimes].
  destruct (iterateTimes_attributes k qs transfers i Hi)
    as (Hem' & Hmat' & _).
  rewrite iterateLighting_lookup by (rewrite iterateTimes_length; exact Hi).
  rewrite Hem', Hem, Hmat'. reflexivity.
Qed.

Lemma emitter_invariance_witness :
  let qs := [Scene.lamp; Scene.front black] in
  let T := [0; 0x1p-2; 0x1p-2; 0]%float in
  screenColour (iterateTimes 3 qs T !!! 0) = mkColour 2 2 2.
Proof.
  intros qs T.
  exact (emitter_invariance qs T 2 0 ltac:(cbn; lia) eq_refl).
Defined.

(** ** The emitter-placement test *)

Lemma bool_of_int_land (p q : bool) :
  bool_of_int (Z.land (int_of_bool p) (int_of_bool q)) = p && q.
Proof. destruct p, q; reflexivity. Qed.

Lemma emitterTest_eq (c : Vertex) : emitterTest c = emitterTestLogical c.
Proof.
  unfold emitterTest, emitterTestLogical.
  rewrite bool_of_int_land.
  destruct (PrimFloat.ltb (Dbl.fabs (x c)) 0x1p-1); reflexivity.
Qed.

(** C9: for every element centre [c] the emitter-placement test of
    [initLighting], written with a bitwise AND between the second
    comparison and the third, selects exactly the elements that the fully
    parenthesised logical AND of [fabs(c.x()) < 0.5], [fabs(c.z()) < 0.5]
    and [c.y() > 0.9] selects; the scene that [initLighting] produces is the
    same with either test. *)
Theorem emitter_test_bitwise_is_logical :
  (forall c : Vertex, emitterTest c = emitterTestLogical c) /\
  (forall (G : Geom) (qs : list Quad) (vs : list Vertex),
     initLighting qs vs = initLightingWith emitterTestLogical qs vs).
Proof.
  split; [exact emitterTest_eq|].
  intros G qs vs. unfold initLighting, initLightingWith.
  apply list_fmap_ext. intros _ q _. unfold initQuad.
  rewrite emitterTest_eq. reflexivity.
Qed.

(** ** The specular pass *)

Section SpecularFacts.
Context {G : Geom}.
Variable powf : float -> float -> float.

Lemma gatherSpecular_specularSum (qs : list Quad) (vs : list Vertex)
    (pos : list float) (i : nat) :
  gatherSpecular powf qs vs pos (length qs) i =
  specularSum powf qs vs pos i.
Proof.
  unfold gatherSpecular, specularSum, emittersOther, for_loop.
  rewrite <- (foldl_keep cadd
                (fun j => highlight powf vs pos (qs !!! i) (qs !!! j))
                (fun j => negb (i =? j)%nat && isEmitter (qs !!! j))).
  - apply foldl_ext_fun. intros st j.
    destruct (i =? j)%nat; [reflexivity|].
    destruct (isEmitter (qs !!! j)); reflexivity.
  - intros j. rewrite andb_true_iff, negb_true_iff, Nat.eqb_neq.
    split; intros [Hne Hem]; (split; [congruence | exact Hem]).
Qed.

(** The first loop of [computeSpecularity] stores, for every target, its
    colour plus the highlights when it is specular and its colour
    otherwise. *)
Lemma specular_first_loop (qs : list Quad) (vs : list Vertex)
    (pos : list float) (m : nat) (v : list Colour) :
  m <= length v ->
  for_loop m (fun i upd =>
      if isSpecular (qs !!! i)
      then <[i := cadd (<[i := screenColour (qs !!! i)]> upd !!! i)
                    (gatherSpecular powf qs vs pos (length qs) i)]>
             (<[i := screenColour (qs !!! i)]> upd)
      else <[i := screenColour (qs !!! i)]> upd) v =
  for_loop m (fun i upd =>
      <[i := if isSpecular (qs !!! i)
             then cadd (screenColour (qs !!! i))
                       (specularSum powf qs vs pos i)
             else screenColour (qs !!! i)]> upd) v.
Proof.
  induction m as [|m IH]; intros Hm; [reflexivity|].
  rewrite !for_loop_S, IH by lia.
  set (w := for_loop m _ v).
  assert (Hw : length w = length v)
    by (unfold w;
        apply (for_loop_store_length
                 (fun i _ =>
                    if isSpecular (qs !!! i)
                    then cadd (screenColour (qs !!! i))
                              (specularSum powf qs vs pos i)
                    else screenColour (qs !!! i)))).
  cbv zeta. destruct (isSpecular (qs !!! m)); [|reflexivity].
  rewrite list_lookup_total_insert_eq by lia.
  rewrite list_insert_insert_eq, gatherSpecular_specularSum.
  reflexivity.
Qed.

Lemma setScreenColour_same (q : Quad) :
  setScreenColour q (screenColour q) = q.
Proof. destruct q; reflexivity. Qed.

Lemma computeSpecularity_imap (qs : list Quad) (vs : list Vertex)
    (pos : list float) :
  computeSpecularity powf qs vs pos =
  imap (fun i q =>
          if isSpecular q
          then setScreenColour q
                 (cadd (screenColour q) (specularSum powf qs vs pos i))
          else q) qs.
Proof.
  unfold computeSpecularity. cbv zeta.
  rewrite (specular_first_loop qs vs pos (length qs)
             (replicate (length qs) black))
    by (rewrite length_replicate; lia).
  set (n := length qs).
  set (f := fun i : nat =>
              if isSpecular (qs !!! i)
              then cadd (screenColour (qs !!! i))
                        (specularSum powf qs vs pos i)
              else screenColour (qs !!! i)).
  set (upd := for_loop n _ (replicate n black)).
  assert (Hupd : forall i, i < n -> upd !!! i = f i).
  { intros i Hi. rewrite list_lookup_total_alt.
    change upd with
      (for_loop n (fun k w => <[k := f k]> w) (replicate n black)).
    rewrite (for_loop_store_lookup f n (replicate n black) i).
    rewrite decide_True by exact Hi.
    rewrite lookup_replicate_2 by exact Hi. reflexivity. }
  apply list_eq. intros i.
  rewrite (for_loop_alter_lookup
             (fun k q => setScreenColour q (upd !!! k)) n qs i).
  rewrite list_lookup_imap.
  destruct (qs !! i) as [q|] eqn:Hq.
  - assert (Hi : i < n) by (apply lookup_lt_Some in Hq; exact Hq).
    rewrite decide_True by exact Hi. cbn [fmap option_fmap option_map].
    rewrite (Hupd i Hi). unfold f.
    rewrite (list_lookup_total_correct qs i q Hq).
    destruct (isSpecular q); [reflexivity|].
    rewrite setScreenColour_same. reflexivity.
  - case_decide; reflexivity.
Qed.

Lemma computeSpecularity_lookup (qs : list Quad) (vs : list Vertex)
    (pos : list float) (i : nat) :
  computeSpecularity powf qs vs pos !!! i =
  if isSpecular (qs !!! i)
  then setScreenColour (qs !!! i)
         (cadd (screenColour (qs !!! i)) (specularSum powf qs vs pos i))
  else qs !!! i.
Proof.
  rewrite computeSpecularity_imap.
  rewrite !list_lookup_total_alt, list_lookup_imap.
  destruct (qs !! i) as [q|]; reflexivity.
Qed.

(** C7 (as the code has it): the specular pass leaves every element that
    is not flagged [isSpecular] exactly as it was.  To every channel of
    the colour of an element flagged [isSpecular] it adds the sum, in
    index order, over the emitters other than the element itself (and
    only emitters), of the white highlight
    [1 * max(dot(reflection, view), 0)^32 * 0.02f]: the highlight is
    added to the converged radiance and does not involve the receiver's
    material colour.  The pass writes [screenColour] only. *)
Theorem specular_pass_additive (qs : list Quad) (vs : list Vertex)
    (pos : list float) (i : nat) :
  i < length qs ->
  let q := qs !!! i in
  let q' := computeSpecularity powf qs vs pos !!! i in
  let term (j : nat) : float :=
    let light := norm (vsub (paraCentre q vs) (paraCentre (qs !!! j) vs)) in
    let normal := norm (paraCross q vs) in
    let reflection :=
      norm (vsub (vscale normal (to_float32 (2 * dot normal light))) light) in
    let view :=
      vscale (norm (vsub (mkVertex (pos !!! 0) (pos !!! 1) (pos !!! 2))
                         (paraCentre q vs))) (-1) in
    let cosine := to_float32 (dot reflection view) in
    (1 * powf (if PrimFloat.ltb cosine 0 then 0 else cosine) 32
       * 0x1.47ae14p-6)%float in
  let added : float :=
    foldl (fun sum j => (sum + term j)%float) 0%float
      (filter (fun j => j <> i /\ isEmitter (qs !!! j) = true)
              (seq 0 (length qs))) in
  length (computeSpecularity powf qs vs pos) = length qs /\
  (isSpecular q = false -> q' = q) /\
  (isSpecular q = true ->
   r (screenColour q') = (r (screenColour q) + added)%float /\
   g (screenColour q') = (g (screenColour q) + added)%float /\
   b (screenColour q') = (b (screenColour q) + added)%float) /\
  materialColour q' = materialColour q /\
  isEmitter q' = isEmitter q /\
  isSpecular q' = isSpecular q /\
  indices q' = indices q.
Proof.
  intros Hi q q' term added.
  split.
  { rewrite computeSpecularity_imap. apply length_imap. }
  unfold q'. rewrite computeSpecularity_lookup. fold q.
  assert (Hsum : forall ch : Colour -> float,
            (forall c d, ch (cadd c d) = (ch c + ch d)%float) ->
            ch black = 0%float ->
            (forall s, ch (cscale (cscale white s) specularFactor) =
                       (1 * s * 0x1.47ae14p-6)%float) ->
            ch (specularSum powf qs vs pos i) = added).
  { intros ch Hadd Hblack Hwhite.
    unfold added, specularSum, emittersOther, highlight.
    rewrite (foldl_cadd_channel ch) by exact Hadd.
    rewrite Hblack. apply foldl_ext_fun. intros sum j.
    rewrite Hwhite. reflexivity. }
  destruct (isSpecular q) eqn:Hspec.
  - cbn [setScreenColour screenColour materialColour isEmitter isSpecular
         indices].
    unfold cadd. cbn [r g b].
    rewrite (Hsum r), (Hsum g), (Hsum b) by reflexivity.
    split; [discriminate|]. repeat split. exact Hspec.
  - split; [reflexivity|]. split; [discriminate|]. repeat split.
    exact Hspec.
Qed.

End SpecularFacts.

(** A mirror seen along the exact reflection of the lamp: the cosine term
    is 1 and the highlight is the specular factor [0.02f] in every
    channel. *)
Example specular_highlight_peak :
  highlight (G := refGeom) Ref.powf Scene.vertices [0; 0; 3]%float
    (Scene.mirror Scene.dim) Scene.lamp =
  mkColour specularFactor specularFactor specularFactor.
Proof. vm_compute. reflexivity. Qed.

(** The mirror under the lamp, seen along the reflection of the lamp: every
    channel gains the highlight [0.02f]. *)
Lemma specular_pass_additive_witness :
  let qs := [Scene.mirror Scene.dim; Scene.lamp] in
  r (screenColour
       (computeSpecularity (G := refGeom) Ref.powf qs Scene.vertices
          [0; 0; 3]%float !!! 0)) =
  (0x1.88p-1 + (0 + 0x1.47ae14p-6))%float.
Proof.
  intros qs.
  exact (proj1 (proj1 (proj2 (proj2
           (specular_pass_additive (G := refGeom) Ref.powf qs Scene.vertices
              [0; 0; 3]%float 0 ltac:(cbn; lia)))) eq_refl)).
Defined.

(** A mirror that is an emitter itself, alone in the scene.  The pass
    skips the element as its own source and leaves its colour as it was.
    Adding the term for every emitter, the element included, would give
    NaN: the light vector of an element towards itself is the normalised
    zero vector. *)
Lemma specular_emitter_is_not_its_own_source :
  let qs := [Scene.glowingMirror Scene.dim] in
  let pos := [0; 0; 3]%float in
  let after :=
    screenColour
      (computeSpecularity (G := refGeom) Ref.powf qs Scene.vertices pos
         !!! 0) in
  let claimed :=
    cadd (screenColour (qs !!! 0))
      (specularSumEveryEmitter (G := refGeom) Ref.powf qs Scene.vertices
         pos 0) in
  emittersAll qs = [0] /\
  after = Scene.dim /\
  claimed = mkColour nan nan nan /\
  after <> claimed.
Proof.
  intros qs pos after claimed.
  assert (Hafter : after = Scene.dim) by (vm_compute; reflexivity).
  assert (Hclaimed : claimed = mkColour nan nan nan)
    by (vm_compute; reflexivity).
  split; [vm_compute; reflexivity|].
  split; [exact Hafter|]. split; [exact Hclaimed|].
  rewrite Hafter, Hclaimed. intros H.
  apply (f_equal (fun c => Prim2SF (r c))) in H.
  vm_compute in H. discriminate H.
Qed.

(** ** Facts of IEEE 754 binary64 arithmetic *)

Lemma is_nan_spec (a : float) :
  PrimFloat.is_nan a = true <-> Prim2SF a = S754_nan.
Proof.
  unfold PrimFloat.is_nan. rewrite FloatAxioms.eqb_spec.
  destruct (Prim2SF a) as [s|s|  |s m e]; unfold SFeqb, SFcompare.
  - split; discriminate.
  - destruct s; split; discriminate.
  - split; reflexivity.
  - rewrite Z.compare_refl, Pos.compare_cont_refl.
    destruct s; split; discriminate.
Qed.

Lemma is_zero_spec (a : float) :
  PrimFloat.is_zero a = true <-> exists s, Prim2SF a = S754_zero s.
Proof.
  unfold PrimFloat.is_zero. rewrite FloatAxioms.eqb_spec.
  change (Prim2SF zero) with (S754_zero false).
  destruct (Prim2SF a) as [s|s|  |s m e]; unfold SFeqb, SFcompare.
  - split; [eauto | reflexivity].
  - destruct s; (split; [discriminate | intros [s' Hs']; discriminate]).
  - split; [discriminate | intros [s' Hs']; discriminate].
  - destruct s; (split; [discriminate | intros [s' Hs']; discriminate]).
Qed.

(** The rounding step keeps the sign it is given. *)
Lemma binary_round_aux_sign (s : bool) (m e : Z) (l : location) :
  match binary_round_aux prec emax s m e l with
  | S754_nan => True
  | S754_zero s' | S754_infinity s' | S754_finite s' _ _ => s' = s
  end.
Proof.
  unfold binary_round_aux.
  destruct (shr_fexp prec emax m e l) as [mrs1 e1].
  destruct (shr_fexp prec emax _ e1 loc_Exact) as [mrs2 e2].
  destruct (shr_m mrs2); [reflexivity | | exact I].
  destruct (e2 <=? emax - prec)%Z; reflexivity.
Qed.

Lemma sf_sign_clear_round (m e : Z) (l : location) :
  sf_sign_clear (binary_round_aux prec emax false m e l) = true.
Proof.
  pose proof (binary_round_aux_sign false m e l) as H.
  destruct (binary_round_aux prec emax false m e l);
    cbn; try rewrite H; reflexivity.
Qed.

Lemma sign_clear_mul (a c : float) :
  sign_clear a -> sign_clear c -> sign_clear (a * c).
Proof.
  unfold sign_clear. rewrite FloatAxioms.mul_spec.
  destruct (Prim2SF a) as [[]|[]| |[] ma ea];
    destruct (Prim2SF c) as [[]|[]| |[] mc ec];
    cbn; try discriminate; try reflexivity.
  intros _ _. apply sf_sign_clear_round.
Qed.

Lemma sign_clear_square (a : float) : sign_clear (a * a).
Proof.
  unfold sign_clear. rewrite FloatAxioms.mul_spec.
  destruct (Prim2SF a) as [[]|[]| |[] ma ea]; cbn; try reflexivity;
    apply sf_sign_clear_round.
Qed.

Lemma sign_clear_div (a c : float) :
  sign_clear a -> sign_clear c -> sign_clear (a / c).
Proof.
  unfold sign_clear. rewrite FloatAxioms.div_spec.
  destruct (Prim2SF a) as [[]|[]| |[] ma ea];
    destruct (Prim2SF c) as [[]|[]| |[] mc ec];
    cbn; try discriminate; try reflexivity.
  intros _ _. unfold SF64div, SFdiv.
  destruct (SFdiv_core_binary prec emax (Z.pos ma) ea (Z.pos mc) ec)
    as [[mz ez] lz].
  apply sf_sign_clear_round.
Qed.

Lemma sign_clear_one : sign_clear 1.
Proof. reflexivity. Qed.

Lemma sign_clear_M_PI : sign_clear M_PI.
Proof. reflexivity. Qed.

(** A double that is NaN or has its sign bit clear is never less than
    zero. *)
Lemma sign_clear_not_negative (a : float) :
  sign_clear a -> PrimFloat.ltb a 0 = false.
Proof.
  unfold sign_clear. rewrite FloatAxioms.ltb_spec.
  change (Prim2SF 0) with (S754_zero false).
  destruct (Prim2SF a) as [[]|[]| |[] ma ea]; cbn;
    try discriminate; reflexivity.
Qed.

(** [fmax(0, a)] is [+0], a positive number or [+infinity]. *)
Lemma fmax_zero_cases (a : float) :
  match Prim2SF (Dbl.fmax 0 a) with
  | S754_zero false | S754_infinity false | S754_finite false _ _ => True
  | _ => False
  end.
Proof.
  unfold Dbl.fmax.
  change (PrimFloat.is_nan 0) with false. cbv iota.
  destruct (PrimFloat.is_nan a) eqn:Hnan; [exact I|].
  destruct (PrimFloat.ltb 0 a) eqn:Hlt; [|exact I].
  rewrite FloatAxioms.ltb_spec in Hlt.
  change (Prim2SF 0) with (S754_zero false) in Hlt.
  destruct (Prim2SF a) as [[]|[]| |[] ma ea]; cbn in Hlt;
    try discriminate; exact I.
Qed.

Lemma sign_clear_fmax_zero (a : float) : sign_clear (Dbl.fmax 0 a).
Proof.
  unfold sign_clear. pose proof (fmax_zero_cases a) as H.
  destruct (Prim2SF (Dbl.fmax 0 a)) as [[]|[]| |[] ma ea];
    try contradiction; reflexivity.
Qed.

(** A finite double minus itself is [+0]. *)
Lemma sub_self (a : float) :
  PrimFloat.is_finite a = true -> (a - a)%float = 0%float.
Proof.
  unfold PrimFloat.is_finite, PrimFloat.is_infinity.
  intros Hfin. apply negb_true_iff, orb_false_iff in Hfin as [Hnan Hinf].
  rewrite FloatAxioms.eqb_spec, FloatAxioms.abs_spec in Hinf.
  apply Prim2SF_inj. rewrite FloatAxioms.sub_spec.
  destruct (Prim2SF a) as [[]|[]| |s m e] eqn:E; try reflexivity;
    try discriminate Hinf.
  - apply is_nan_spec in E. congruence.
  - unfold SF64sub, SFsub. rewrite Z.min_id. unfold shl_align.
    rewrite Z.sub_diag. cbn [fst]. reflexivity.
Qed.

(** Division by a zero: [1.0 / (l * l)] is [+infinity] when [l] is a
    zero of either sign. *)
Lemma inverse_square_of_zero (l : float) :
  PrimFloat.is_zero l = true -> (1 / (l * l))%float = infinity.
Proof.
  intros Hz. apply is_zero_spec in Hz as [s Hs].
  apply Prim2SF_inj. rewrite FloatAxioms.div_spec, FloatAxioms.mul_spec, Hs.
  destruct s; reflexivity.
Qed.

(** [+infinity] absorbs or poisons: multiplied by [+0] it is NaN,
    multiplied by a positive number or [+infinity] it is [+infinity]. *)
Lemma mul_infinity_r (a : float) :
  match Prim2SF a with
  | S754_zero false | S754_infinity false | S754_finite false _ _ => True
  | _ => False
  end ->
  inf_or_nan (a * infinity).
Proof.
  intros Ha.
  destruct (Prim2SF a) as [[]|[]| |[] ma ea] eqn:E; try contradiction.
  - right. apply Prim2SF_inj. rewrite FloatAxioms.mul_spec, E. reflexivity.
  - left. apply Prim2SF_inj. rewrite FloatAxioms.mul_spec, E. reflexivity.
  - left. apply Prim2SF_inj. rewrite FloatAxioms.mul_spec, E. reflexivity.
Qed.

Lemma mul_inf_or_nan_l (a c : float) :
  inf_or_nan a ->
  match Prim2SF c with
  | S754_zero false | S754_infinity false | S754_finite false _ _ => True
  | _ => False
  end ->
  inf_or_nan (a * c).
Proof.
  intros [->| ->] Hc.
  - destruct (Prim2SF c) as [[]|[]| |[] mc ec] eqn:E; try contradiction.
    + right. apply Prim2SF_inj. rewrite FloatAxioms.mul_spec, E. reflexivity.
    + left. apply Prim2SF_inj. rewrite FloatAxioms.mul_spec, E. reflexivity.
    + left. apply Prim2SF_inj. rewrite FloatAxioms.mul_spec, E. reflexivity.
  - right. apply Prim2SF_inj. rewrite FloatAxioms.mul_spec.
    change (Prim2SF nan) with S754_nan. reflexivity.
Qed.

Lemma div_inf_or_nan_M_PI (a : float) :
  inf_or_nan a -> inf_or_nan (a / M_PI).
Proof. intros [->| ->]; [left | right]; reflexivity. Qed.

(** ** Multiplication by one *)

(** Multiplying a binary64 number by [1.0] is exact: the product of the
    mantissas is the mantissa shifted left by 52 bits, and rounding shifts
    it back without losing a bit. *)
Lemma SFmul_one_r (v : spec_float) :
  valid_binary v = true ->
  SF64mul v (S754_finite false 4503599627370496 (-52)) = v.
Proof.
  destruct v as [s|s| |s m e]; intros Hv.
  - cbn. destruct s; reflexivity.
  - cbn. destruct s; reflexivity.
  - reflexivity.
  - unfold valid_binary, bounded, canonical_mantissa in Hv.
    apply andb_true_iff in Hv as [Hcan Hbnd].
    apply Z.eqb_eq in Hcan.
    unfold SF64mul, SFmul.
    replace (xorb s false) with s by (destruct s; reflexivity).
    rewrite !Pos.mul_xO_r, Pos.mul_1_r.
    unfold binary_round_aux, shr_fexp.
    set (big := Z.pos _).
    assert (Hd : Zdigits2 big = (Z.pos (digits2_pos m) + 52)%Z).
    { unfold big. cbn [Zdigits2 digits2_pos]. lia. }
    rewrite Hd.
    replace (Z.pos (digits2_pos m) + 52 + (e + -52))%Z
      with (Z.pos (digits2_pos m) + e)%Z by lia.
    rewrite Hcan.
    replace (e - (e + -52))%Z with 52%Z by lia.
    change (shr (shr_record_of_loc big loc_Exact) (e + -52) 52)
      with (SpecFloat.iter_pos shr_1 52
              {| shr_m := big; shr_r := false; shr_s := false |},
            (e + -52 + 52)%Z).
    replace (SpecFloat.iter_pos shr_1 52
               {| shr_m := big; shr_r := false; shr_s := false |})
      with {| shr_m := Z.pos m; shr_r := false; shr_s := false |}
      by reflexivity.
    replace (e + -52 + 52)%Z with e by lia.
    cbn [shr_m loc_of_shr_record round_nearest_even Zdigits2].
    rewrite Hcan, Z.sub_diag. cbn [shr shr_record_of_loc shr_m].
    rewrite Hbnd. reflexivity.
Qed.

Lemma mul_one_r (a : float) : (a * 1)%float = a.
Proof.
  apply Prim2SF_inj. rewrite FloatAxioms.mul_spec.
  apply SFmul_one_r, Prim2SF_valid.
Qed.

Lemma cscale_one (c : Colour) : cscale c 1 = c.
Proof.
  destruct c as [cr cg cb]. unfold cscale. cbn [r g b].
  rewrite !mul_one_r. reflexivity.
Qed.

(** ** Rounding to nearest, and the order of the sums *)

Section Rounding.
Local Open Scope Z_scope.

(** The number of binary digits of a mantissa. *)
Lemma digits2_pos_bounds (m : positive) :
  2 ^ (Z.pos (digits2_pos m) - 1) <= Z.pos m < 2 ^ Z.pos (digits2_pos m).
Proof.
  induction m as [m IH|m IH|]; cbn [digits2_pos].
  - rewrite Pos2Z.inj_succ, Pos2Z.inj_xI.
    replace (Z.succ (Z.pos (digits2_pos m)) - 1)
      with (Z.succ (Z.pos (digits2_pos m) - 1)) by lia.
    rewrite !Z.pow_succ_r by lia. lia.
  - rewrite Pos2Z.inj_succ. change (Z.pos m~0) with (2 * Z.pos m).
    replace (Z.succ (Z.pos (digits2_pos m)) - 1)
      with (Z.succ (Z.pos (digits2_pos m) - 1)) by lia.
    rewrite !Z.pow_succ_r by lia. lia.
  - cbn. lia.
Qed.

Lemma digits2_pos_unique (m : positive) (d : Z) :
  2 ^ (d - 1) <= Z.pos m < 2 ^ d -> Z.pos (digits2_pos m) = d.
Proof.
  intros [Hlo Hhi]. pose proof (digits2_pos_bounds m) as [Blo Bhi].
  assert (Hd : 0 < d).
  { destruct (Z.ltb_spec 0 d) as [|Hle]; [assumption|].
    assert (2 ^ d <= 2 ^ 0) by (apply Z.pow_le_mono_r; lia).
    change (2 ^ 0) with 1 in *. lia. }
  destruct (Z.lt_trichotomy (Z.pos (digits2_pos m)) d) as [Hlt|[Heq|Hgt]];
    [|exact Heq|].
  - assert (2 ^ Z.pos (digits2_pos m) <= 2 ^ (d - 1))
      by (apply Z.pow_le_mono_r; lia). lia.
  - assert (2 ^ d <= 2 ^ (Z.pos (digits2_pos m) - 1))
      by (apply Z.pow_le_mono_r; lia). lia.
Qed.

(** Shifting a mantissa left and right. *)
Lemma iter_xO_value (m d : positive) :
  Z.pos (Pos.iter xO m d) = Z.pos m * 2 ^ Z.pos d.
Proof.
  induction d as [|d IH] using Pos.peano_ind.
  - cbn. lia.
  - rewrite Pos.iter_succ.
    change (Z.pos (Pos.iter xO m d)~0) with (2 * Z.pos (Pos.iter xO m d)).
    rewrite IH, Pos2Z.inj_succ, Z.pow_succ_r by lia. lia.
Qed.

Lemma shr_1_m (mrs : shr_record) :
  0 <= shr_m mrs -> shr_m (shr_1 mrs) = shr_m mrs / 2.
Proof.
  destruct mrs as [m r s]. cbn [shr_m]. intros Hm.
  destruct m as [|p|p]; [reflexivity| |lia].
  destruct p as [p|p|]; cbn [shr_1 shr_m].
  - change (Z.pos p~1) with (2 * Z.pos p + 1).
    apply Z.div_unique with (r := 1); lia.
  - change (Z.pos p~0) with (2 * Z.pos p).
    apply Z.div_unique with (r := 0); lia.
  - reflexivity.
Qed.

Lemma iter_shr_1_m (n : positive) (mrs : shr_record) :
  0 <= shr_m mrs ->
  shr_m (SpecFloat.iter_pos shr_1 n mrs) = shr_m mrs / 2 ^ Z.pos n.
Proof.
  revert mrs.
  induction n as [n IH|n IH|]; intros mrs Hm; cbn [SpecFloat.iter_pos].
  - assert (H1 : 0 <= shr_m (shr_1 mrs))
      by (rewrite shr_1_m by lia; apply Z.div_pos; lia).
    assert (H2 : 0 <= shr_m (SpecFloat.iter_pos shr_1 n (shr_1 mrs)))
      by (rewrite IH by lia; apply Z.div_pos;
          [lia | apply Z.pow_pos_nonneg; lia]).
    rewrite IH, IH, shr_1_m by lia.
    rewrite !Z.div_div by (try apply Z.pow_pos_nonneg; lia).
    f_equal. change (Z.pos n~1) with (2 * Z.pos n + 1).
    replace (2 * Z.pos n + 1) with (1 + Z.pos n + Z.pos n) by lia.
    rewrite !Z.pow_add_r by lia. lia.
  - assert (H2 : 0 <= shr_m (SpecFloat.iter_pos shr_1 n mrs))
      by (rewrite IH by lia; apply Z.div_pos;
          [lia | apply Z.pow_pos_nonneg; lia]).
    rewrite IH, IH by lia.
    rewrite !Z.div_div by (try apply Z.pow_pos_nonneg; lia).
    f_equal. change (Z.pos n~0) with (2 * Z.pos n).
    replace (2 * Z.pos n) with (Z.pos n + Z.pos n) by lia.
    rewrite !Z.pow_add_r by lia. lia.
  - rewrite shr_1_m by lia. reflexivity.
Qed.

Lemma round_nearest_even_range (m : Z) (l : location) :
  m <= round_nearest_even m l <= m + 1.
Proof.
  unfold round_nearest_even. destruct l as [|[]]; try lia.
  destruct (Z.even m); lia.
Qed.

Lemma fexp_eq (k : Z) : fexp prec emax k = Z.max (k - 53) (-1074).
Proof. reflexivity. Qed.

Lemma no_shift (m : positive) (e : Z) (l : location) :
  fexp prec emax (Z.pos (digits2_pos m) + e) = e ->
  shr_fexp prec emax (Z.pos m) e l = (shr_record_of_loc (Z.pos m) l, e).
Proof.
  intros H. unfold shr_fexp. cbn [Zdigits2]. rewrite H, Z.sub_diag. reflexivity.
Qed.

(** Rounding a canonical mantissa changes nothing. *)
Lemma binary_round_aux_canonical (s : bool) (m : positive) (e : Z) :
  fexp prec emax (Z.pos (digits2_pos m) + e) = e ->
  binary_round_aux prec emax s (Z.pos m) e loc_Exact =
  if e <=? emax - prec then S754_finite s m e else S754_infinity s.
Proof.
  intros H. unfold binary_round_aux.
  rewrite (no_shift m e loc_Exact H).
  cbn [shr_record_of_loc shr_m loc_of_shr_record round_nearest_even].
  rewrite (no_shift m e loc_Exact H). reflexivity.
Qed.

Lemma binary_round_spec (s : bool) (m : positive) (e : Z) :
  -1074 <= e ->
  let F := fexp prec emax (Z.pos (digits2_pos m) + e) in
  exists (m3 : positive) (e3 : Z),
    binary_round prec emax s m e =
      (if e3 <=? emax - prec then S754_finite s m3 e3 else S754_infinity s) /\
    ((e3 = F /\ Z.pos (digits2_pos m3) <= 53 /\
      (e <= F ->
       Z.pos m / 2 ^ (F - e) <= Z.pos m3 <= Z.pos m / 2 ^ (F - e) + 1)) \/
     (e3 = F + 1 /\ m3 = two52 /\ e <= F /\
      Z.pos m / 2 ^ (F - e) = 2 ^ 53 - 1)).
Proof.
  intros He. cbv zeta.
  pose proof (digits2_pos_bounds m) as [Dlo Dhi].
  unfold binary_round, shl_align.
  set (F := fexp prec emax (Z.pos (digits2_pos m) + e)).
  assert (HF : F = Z.max (Z.pos (digits2_pos m) + e - 53) (-1074))
    by apply fexp_eq.
  destruct (F - e) as [|p|d] eqn:Hsub.
  - (* F = e *)
    assert (HFe : F = e) by lia.
    exists m, e. split.
    + apply binary_round_aux_canonical. exact HFe.
    + left. split; [lia|]. split; [lia|]. intros _.
      change (2 ^ 0) with 1. rewrite Z.div_1_r. lia.
  - (* F > e: the mantissa is shifted right and rounded *)
    assert (Hn : F - e = Z.pos (digits2_pos m) - 53) by lia.
    assert (HFn : F = Z.pos (digits2_pos m) + e - 53) by lia.
    set (n := Z.pos (digits2_pos m) - 53) in *.
    assert (Hn0 : 0 < n) by lia.
    assert (Hpow : 2 ^ n * 2 ^ 52 = 2 ^ (Z.pos (digits2_pos m) - 1)).
    { rewrite <- Z.pow_add_r by lia. f_equal. lia. }
    assert (Hpow' : 2 ^ n * 2 ^ 53 = 2 ^ Z.pos (digits2_pos m)).
    { rewrite <- Z.pow_add_r by lia. f_equal. lia. }
    assert (H2n : 0 < 2 ^ n) by (apply Z.pow_pos_nonneg; lia).
    set (m1 := Z.pos m / 2 ^ n).
    assert (Hm1lo : 2 ^ 52 <= m1)
      by (apply Z.div_le_lower_bound; lia).
    assert (Hm1hi : m1 < 2 ^ 53)
      by (apply Z.div_lt_upper_bound; lia).
    set (mrs1 := SpecFloat.iter_pos shr_1 p
                   {| shr_m := Z.pos m; shr_r := false; shr_s := false |}).
    assert (H1 : shr_fexp prec emax (Z.pos m) e loc_Exact = (mrs1, F)).
    { unfold shr_fexp. cbn [Zdigits2]. fold F. rewrite Hsub.
      cbn [shr shr_record_of_loc]. fold mrs1. f_equal. lia. }
    assert (Hmrs1 : shr_m mrs1 = m1).
    { unfold mrs1. rewrite iter_shr_1_m by (cbn; lia). cbn [shr_m].
      unfold m1. f_equal. f_equal. lia. }
    unfold binary_round_aux. rewrite H1, Hmrs1.
    pose proof (round_nearest_even_range m1 (loc_of_shr_record mrs1))
      as [Hrlo Hrhi].
    set (m2 := round_nearest_even m1 (loc_of_shr_record mrs1)) in *.
    replace (Z.pos m / 2 ^ Z.pos p) with m1
      by (unfold m1; f_equal; f_equal; lia).
    destruct (Z.eq_dec m2 (2 ^ 53)) as [Hcarry|Hnocarry].
    + (* the rounded mantissa has 54 bits *)
      exists two52, (F + 1). split.
      * rewrite Hcarry. change (2 ^ 53) with 9007199254740992.
        unfold shr_fexp. change (Zdigits2 9007199254740992) with 54.
        rewrite fexp_eq.
        replace (Z.max (54 + F - 53) (-1074) - F) with 1 by lia.
        reflexivity.
      * right. split; [reflexivity|]. split; [reflexivity|]. split; lia.
    + destruct m2 as [|p2|p2] eqn:Hm2; [lia| |lia].
      assert (Hd2 : Z.pos (digits2_pos p2) = 53)
        by (apply digits2_pos_unique; change (53 - 1) with 52; lia).
      exists p2, F. split.
      * rewrite (no_shift p2 F loc_Exact)
          by (rewrite Hd2, fexp_eq; lia).
        reflexivity.
      * left. split; [reflexivity|]. split; [lia|]. intros _. lia.
  - (* F < e: the mantissa is shifted left, exactly *)
    assert (Hd : e - F = Z.pos d) by lia.
    pose proof (digits2_pos_bounds m) as _.
    assert (Hval : Z.pos (Pos.iter xO m d) = Z.pos m * 2 ^ Z.pos d)
      by apply iter_xO_value.
    assert (H2d : 0 < 2 ^ Z.pos d) by (apply Z.pow_pos_nonneg; lia).
    assert (Hdig : Z.pos (digits2_pos (Pos.iter xO m d)) =
                   Z.pos (digits2_pos m) + Z.pos d).
    { apply digits2_pos_unique. rewrite Hval.
      replace (Z.pos (digits2_pos m) + Z.pos d - 1)
        with (Z.pos (digits2_pos m) - 1 + Z.pos d) by lia.
      rewrite !Z.pow_add_r by lia. nia. }
    exists (Pos.iter xO m d), F. split.
    + apply binary_round_aux_canonical. rewrite Hdig.
      replace (Z.pos (digits2_pos m) + Z.pos d + F)
        with (Z.pos (digits2_pos m) + e) by lia.
      reflexivity.
    + left. split; [reflexivity|]. split; [lia|]. intros Hle. lia.
Qed.

Lemma shl_align_fst (m : positive) (e e' : Z) :
  e' <= e -> Z.pos (fst (shl_align m e e')) = Z.pos m * 2 ^ (e - e').
Proof.
  intros Hle. unfold shl_align.
  destruct (e' - e) as [|p|d] eqn:Hsub; cbn [fst].
  - replace (e - e') with 0 by lia. lia.
  - lia.
  - rewrite iter_xO_value. f_equal. f_equal. lia.
Qed.

Lemma valid_finite (s : bool) (m : positive) (e : Z) :
  valid_binary (S754_finite s m e) = true ->
  fexp prec emax (Z.pos (digits2_pos m) + e) = e /\
  -1074 <= e <= 971 /\ Z.pos (digits2_pos m) <= 53 /\
  (-1074 < e -> Z.pos (digits2_pos m) = 53).
Proof.
  unfold valid_binary, bounded, canonical_mantissa.
  intros [Hcan Hbnd]%andb_true_iff.
  apply Z.eqb_eq in Hcan. apply Z.leb_le in Hbnd.
  split; [exact Hcan|]. rewrite fexp_eq in Hcan.
  change (emax - prec) with 971 in Hbnd. lia.
Qed.

(** The digits of a scaled mantissa. *)
Lemma digits_scaled_le (m n : positive) (k : Z) :
  0 <= k -> Z.pos m * 2 ^ k <= Z.pos n ->
  Z.pos (digits2_pos m) + k <= Z.pos (digits2_pos n).
Proof.
  intros Hk Hle.
  pose proof (digits2_pos_bounds m) as [Mlo _].
  pose proof (digits2_pos_bounds n) as [_ Nhi].
  assert (H2k : 0 < 2 ^ k) by (apply Z.pow_pos_nonneg; lia).
  assert (Hlt : 2 ^ (Z.pos (digits2_pos m) - 1 + k)
                < 2 ^ Z.pos (digits2_pos n)).
  { rewrite Z.pow_add_r by lia. nia. }
  apply Z.pow_lt_mono_r_iff in Hlt; lia.
Qed.

Lemma digits_scaled_ge (m n : positive) (k : Z) :
  0 <= k -> Z.pos n < Z.pos m * 2 ^ k ->
  Z.pos (digits2_pos n) <= Z.pos (digits2_pos m) + k.
Proof.
  intros Hk Hlt.
  pose proof (digits2_pos_bounds m) as [_ Mhi].
  pose proof (digits2_pos_bounds n) as [Nlo _].
  assert (H2k : 0 < 2 ^ k) by (apply Z.pow_pos_nonneg; lia).
  assert (Hlt' : 2 ^ (Z.pos (digits2_pos n) - 1)
                 < 2 ^ (Z.pos (digits2_pos m) + k)).
  { rewrite (Z.pow_add_r 2 (Z.pos (digits2_pos m))) by lia. nia. }
  apply Z.pow_lt_mono_r_iff in Hlt'; lia.
Qed.

Lemma SFltb_finite_pos (m3 m : positive) (e3 e : Z) :
  e < e3 \/ (e3 = e /\ Z.pos m <= Z.pos m3) ->
  SFltb (S754_finite false m3 e3) (S754_finite false m e) = false.
Proof.
  intros H. unfold SFltb, SFcompare.
  destruct (Z.compare_spec e3 e) as [Heq|Hlt|Hgt]; [|lia|reflexivity].
  change (Pos.compare_cont Eq m3 m) with (Pos.compare m3 m).
  destruct (Pos.compare_spec m3 m) as [Hm|Hm|Hm]; try reflexivity. lia.
Qed.

Lemma SFltb_finite_neg (m3 m : positive) (e3 e : Z) :
  e3 < e \/ (e3 = e /\ Z.pos m3 <= Z.pos m) ->
  SFltb (S754_finite true m3 e3) (S754_finite true m e) = false.
Proof.
  intros H. unfold SFltb, SFcompare.
  destruct (Z.compare_spec e3 e) as [Heq|Hlt|Hgt]; [|reflexivity|lia].
  change (Pos.compare_cont Eq m3 m) with (Pos.compare m3 m).
  destruct (Pos.compare_spec m3 m) as [Hm|Hm|Hm]; try reflexivity. lia.
Qed.

(** Adding a positive number to a number never gives less: the exact
    sum is not below the number, the number is representable, and rounding
    to nearest keeps the order. *)
Lemma SFadd_finite_not_less (sa : bool) (ma mc : positive) (ea ec : Z) :
  valid_binary (S754_finite sa ma ea) = true ->
  valid_binary (S754_finite false mc ec) = true ->
  SFltb (SF64add (S754_finite sa ma ea) (S754_finite false mc ec))
        (S754_finite sa ma ea) = false.
Proof.
  intros (Hca & Hea & Hda & Hna)%valid_finite
         (Hcc & Hec & Hdc & Hnc)%valid_finite.
  rewrite fexp_eq in Hca.
  unfold SF64add, SFadd.
  set (ez := Z.min ea ec).
  rewrite !shl_align_fst by lia.
  set (A := Z.pos ma * 2 ^ (ea - ez)).
  set (C := Z.pos mc * 2 ^ (ec - ez)).
  assert (HA : 0 < A)
    by (apply Z.mul_pos_pos; [lia | apply Z.pow_pos_nonneg; lia]).
  assert (HC : 0 < C)
    by (apply Z.mul_pos_pos; [lia | apply Z.pow_pos_nonneg; lia]).
  assert (H2 : 0 < 2 ^ (ea - ez)) by (apply Z.pow_pos_nonneg; lia).
  cbn [cond_Zopp].
  destruct sa; cbn [cond_Zopp]; unfold binary_normalize.
  - (* a negative *)
    destruct (- A + C) as [|mm|mu] eqn:HM.
    + reflexivity.
    + destruct (binary_round_spec false mm ez ltac:(lia)) as (m3 & e3 & -> & _).
      destruct (e3 <=? emax - prec); reflexivity.
    + destruct (binary_round_spec true mu ez ltac:(lia))
        as (m3 & e3 & -> & Hcases).
      rewrite fexp_eq in Hcases.
      assert (Hmu : Z.pos mu < Z.pos ma * 2 ^ (ea - ez)) by (fold A; lia).
      pose proof (digits_scaled_ge ma mu (ea - ez) ltac:(lia) Hmu) as Hdig.
      change (emax - prec) with 971.
      destruct Hcases as [(-> & Hd3 & Hb)|(-> & -> & Hle & Hq)].
      * rewrite (proj2 (Z.leb_le _ 971)) by lia.
        apply SFltb_finite_neg.
        destruct (Z.eq_dec
                    (Z.max (Z.pos (digits2_pos mu) + ez - 53) (-1074)) ea)
          as [Heq|Hne]; [right|left; lia].
        split; [exact Heq|].
        rewrite Heq in Hb. specialize (Hb ltac:(lia)).
        assert (Z.pos mu / 2 ^ (ea - ez) < Z.pos ma)
          by (apply Z.div_lt_upper_bound; lia).
        lia.
      * pose proof (digits2_pos_bounds ma) as [Mlo Mhi].
        assert (Mhi' : Z.pos ma < 2 ^ 53).
        { eapply Z.lt_le_trans; [exact Mhi|]. apply Z.pow_le_mono_r; lia. }
        destruct (Z.eq_dec
                    (Z.max (Z.pos (digits2_pos mu) + ez - 53) (-1074)) ea)
          as [Heq|Hne].
        { rewrite Heq in Hq.
          assert (Z.pos mu / 2 ^ (ea - ez) < Z.pos ma)
            by (apply Z.div_lt_upper_bound; lia).
          lia. }
        rewrite (proj2 (Z.leb_le _ 971)) by lia.
        apply SFltb_finite_neg.
        destruct (Z.eq_dec
                    (Z.max (Z.pos (digits2_pos mu) + ez - 53) (-1074) + 1)
                    ea)
          as [Heq|Hne']; [right|left; lia].
        split; [exact Heq|].
        rewrite Hna in Mlo by lia. change (53 - 1) with 52 in Mlo.
        unfold two52. change (2 ^ 52) with 4503599627370496 in Mlo. lia.
  - (* a positive *)
    destruct (A + C) as [|mm|mm] eqn:HM; [lia| |lia].
    destruct (binary_round_spec false mm ez ltac:(lia))
      as (m3 & e3 & -> & Hcases).
    rewrite fexp_eq in Hcases.
    assert (Hmm : Z.pos ma * 2 ^ (ea - ez) <= Z.pos mm) by (fold A; lia).
    pose proof (digits_scaled_le ma mm (ea - ez) ltac:(lia) Hmm) as Hdig.
    destruct (e3 <=? emax - prec); [|reflexivity].
    apply SFltb_finite_pos.
    destruct Hcases as [(-> & Hd3 & Hb)|(-> & -> & Hle & Hq)]; [|left; lia].
    destruct (Z.eq_dec (Z.max (Z.pos (digits2_pos mm) + ez - 53) (-1074)) ea)
      as [Heq|Hne]; [right|left; lia].
    split; [exact Heq|].
    rewrite Heq in Hb. specialize (Hb ltac:(lia)).
    assert (Z.pos ma <= Z.pos mm / 2 ^ (ea - ez))
      by (apply Z.div_le_lower_bound; lia).
    lia.
Qed.

End Rounding.

(** ** Order facts on doubles *)

Lemma SFltb_irrefl (v : spec_float) : SFltb v v = false.
Proof.
  destruct v as [s|s| |s m e]; unfold SFltb, SFcompare;
    try (destruct s; reflexivity); try reflexivity.
  rewrite Z.compare_refl.
  change (Pos.compare_cont Eq m m) with (Pos.compare m m).
  rewrite Pos.compare_refl. destruct s; reflexivity.
Qed.

Lemma SFadd_not_less (v c : spec_float) :
  valid_binary v = true -> valid_binary c = true ->
  sf_sign_clear c = true ->
  SFltb (SF64add v c) v = false.
Proof.
  intros Hv Hc Hsign.
  destruct c as [[]|[]| |[] mc ec]; try discriminate Hsign.
  - (* c = +0 *)
    destruct v as [[]|[]| |sa ma ea]; try reflexivity.
    exact (SFltb_irrefl (S754_finite sa ma ea)).
  - (* c = +infinity *)
    destruct v as [[]|[]| |[] ma ea]; reflexivity.
  - (* c is NaN *)
    destruct v as [[]|[]| |[] ma ea]; reflexivity.
  - (* c is a positive number *)
    destruct v as [[]|[]| |sa ma ea]; try reflexivity.
    apply SFadd_finite_not_less; assumption.
Qed.

(** Adding a double that is NaN or has its sign bit clear never gives a
    result below the other operand. *)
Lemma add_not_less (a c : float) :
  sign_clear c -> PrimFloat.ltb (a + c) a = false.
Proof.
  intros Hc. rewrite FloatAxioms.ltb_spec, FloatAxioms.add_spec.
  apply SFadd_not_less; [apply Prim2SF_valid | apply Prim2SF_valid | exact Hc].
Qed.

Lemma ltb_irrefl (a : float) : PrimFloat.ltb a a = false.
Proof. rewrite FloatAxioms.ltb_spec. apply SFltb_irrefl. Qed.

Lemma not_negative_spec (a : float) :
  PrimFloat.ltb a 0 = false <-> sf_not_negative (Prim2SF a) = true.
Proof.
  rewrite FloatAxioms.ltb_spec. change (Prim2SF 0) with (S754_zero false).
  destruct (Prim2SF a) as [[]|[]| |[] m e]; cbn; split;
    solve [reflexivity | discriminate].
Qed.

Lemma sign_clear_not_negative_sf (v : spec_float) :
  sf_sign_clear v = true -> sf_not_negative v = true.
Proof. destruct v as [[]|[]| |[] m e]; cbn; congruence. Qed.

(** The sum of a double that is NaN or has its sign bit clear and a
    double that is not negative is again NaN or has its sign bit clear. *)
Lemma sign_clear_add (a c : float) :
  sign_clear a -> PrimFloat.ltb c 0 = false -> sign_clear (a + c).
Proof.
  unfold sign_clear. rewrite not_negative_spec, FloatAxioms.add_spec.
  destruct (Prim2SF a) as [[]|[]| |[] ma ea];
    destruct (Prim2SF c) as [[]|[]| |[] mc ec];
    cbn; try discriminate; try reflexivity.
  intros _ _. unfold binary_normalize.
  destruct (Z.pos (fst (shl_align ma ea (Z.min ea ec))) +
            Z.pos (fst (shl_align mc ec (Z.min ea ec))))%Z
    as [|mm|mm] eqn:E; [reflexivity| |lia].
  unfold binary_round.
  destruct (shl_align mm _ _) as [mz ez].
  apply sf_sign_clear_round.
Qed.

(** A product of a double that is not negative and a double that is NaN
    or has its sign bit clear is not negative. *)
Lemma not_negative_mul_l (c a : float) :
  sign_clear c -> PrimFloat.ltb a 0 = false ->
  PrimFloat.ltb (c * a) 0 = false.
Proof.
  unfold sign_clear. rewrite !not_negative_spec, FloatAxioms.mul_spec.
  destruct (Prim2SF c) as [[]|[]| |[] mc ec];
    destruct (Prim2SF a) as [[]|[]| |[] ma ea];
    cbn; try discriminate; try reflexivity.
  intros _ _. apply sign_clear_not_negative_sf, sf_sign_clear_round.
Qed.

Lemma not_negative_mul_r (a c : float) :
  PrimFloat.ltb a 0 = false -> sign_clear c ->
  PrimFloat.ltb (a * c) 0 = false.
Proof.
  unfold sign_clear. rewrite !not_negative_spec, FloatAxioms.mul_spec.
  destruct (Prim2SF c) as [[]|[]| |[] mc ec];
    destruct (Prim2SF a) as [[]|[]| |[] ma ea];
    cbn; try discriminate; try reflexivity.
  intros _ _. apply sign_clear_not_negative_sf, sf_sign_clear_round.
Qed.

(** [std::max(a, 0.0f)] is not negative. *)
Lemma std_max_zero_not_negative (a : float) :
  PrimFloat.ltb (Dbl.std_max a 0) 0 = false.
Proof.
  unfold Dbl.std_max. destruct (PrimFloat.ltb a 0) eqn:E;
    [reflexivity | exact E].
Qed.

(** On numbers, not being less is being greater or equal. *)
Lemma not_less_leb (a c : float) :
  PrimFloat.ltb c a = false ->
  PrimFloat.is_nan a = false -> PrimFloat.is_nan c = false ->
  PrimFloat.leb a c = true.
Proof.
  rewrite FloatAxioms.ltb_spec, FloatAxioms.leb_spec.
  intros Hlt Ha Hc.
  assert (Ha' : Prim2SF a <> S754_nan)
    by (intros E; apply is_nan_spec in E; congruence).
  assert (Hc' : Prim2SF c <> S754_nan)
    by (intros E; apply is_nan_spec in E; congruence).
  revert Hlt. unfold SFltb, SFleb, SFcompare.
  destruct (Prim2SF a) as [[]|[]| |[] ma ea];
    destruct (Prim2SF c) as [[]|[]| |[] mc ec];
    try congruence; try reflexivity;
    change (Pos.compare_cont Eq mc ma) with (Pos.compare mc ma);
    change (Pos.compare_cont Eq ma mc) with (Pos.compare ma mc);
    rewrite (Z.compare_antisym ea ec), (Pos.compare_antisym ma mc);
    destruct (Z.compare ea ec); cbn; try congruence;
    destruct (Pos.compare ma mc); cbn; congruence.
Qed.

Lemma add_is_nan_l (a c : float) :
  PrimFloat.is_nan (a + c) = false -> PrimFloat.is_nan a = false.
Proof.
  intros H. destruct (PrimFloat.is_nan a) eqn:E; [|reflexivity].
  apply is_nan_spec in E.
  assert (Hn : PrimFloat.is_nan (a + c) = true).
  { apply is_nan_spec. rewrite FloatAxioms.add_spec, E. reflexivity. }
  congruence.
Qed.

Section Order.
Local Open Scope Z_scope.

Lemma SFltb_pos_iff (m1 m2 : positive) (e1 e2 : Z) :
  SFltb (S754_finite false m1 e1) (S754_finite false m2 e2) = true <->
  e1 < e2 \/ (e1 = e2 /\ Z.pos m1 < Z.pos m2).
Proof.
  unfold SFltb, SFcompare.
  change (Pos.compare_cont Eq m1 m2) with (Pos.compare m1 m2).
  destruct (Z.compare_spec e1 e2); destruct (Pos.compare_spec m1 m2);
    split; intros H'; try discriminate; try reflexivity; lia.
Qed.

Lemma SFltb_neg_iff (m1 m2 : positive) (e1 e2 : Z) :
  SFltb (S754_finite true m1 e1) (S754_finite true m2 e2) = true <->
  e2 < e1 \/ (e1 = e2 /\ Z.pos m2 < Z.pos m1).
Proof.
  unfold SFltb, SFcompare.
  change (Pos.compare_cont Eq m1 m2) with (Pos.compare m1 m2).
  destruct (Z.compare_spec e1 e2); destruct (Pos.compare_spec m1 m2);
    split; intros H'; try discriminate; try reflexivity; lia.
Qed.

Lemma SFltb_trans (u v w : spec_float) :
  SFltb u v = true -> SFltb v w = true -> SFltb u w = true.
Proof.
  destruct u as [[]|[]| |[] mu eu]; destruct v as [[]|[]| |[] mv ev];
    destruct w as [[]|[]| |[] mw ew];
    try (intros; reflexivity); try (intros; discriminate).
  - rewrite !SFltb_neg_iff. lia.
  - rewrite !SFltb_pos_iff. lia.
Qed.

End Order.

Lemma ltb_trans (a c d : float) :
  PrimFloat.ltb a c = true -> PrimFloat.ltb c d = true ->
  PrimFloat.ltb a d = true.
Proof. rewrite !FloatAxioms.ltb_spec. apply SFltb_trans. Qed.

Lemma ltb_true_not_nan_r (a c : float) :
  PrimFloat.ltb a c = true -> PrimFloat.is_nan c = false.
Proof.
  intros Hlt. destruct (PrimFloat.is_nan c) eqn:E; [|reflexivity].
  apply is_nan_spec in E. rewrite FloatAxioms.ltb_spec, E in Hlt.
  destruct (Prim2SF a); discriminate Hlt.
Qed.

(** [std::max] never turns a number into NaN. *)
Lemma std_max_not_nan (m d : float) :
  PrimFloat.is_nan m = false -> PrimFloat.is_nan (Dbl.std_max m d) = false.
Proof.
  intros Hm. unfold Dbl.std_max.
  destruct (PrimFloat.ltb m d) eqn:Hmd; [|exact Hm].
  exact (ltb_true_not_nan_r m d Hmd).
Qed.

(** [std::max] returns one of its arguments, keeps every upper bound of
    its first argument that its second argument respects, and is not
    below its second argument. *)
Lemma std_max_cases (m d : float) :
  Dbl.std_max m d = m \/ Dbl.std_max m d = d.
Proof. unfold Dbl.std_max. destruct (PrimFloat.ltb m d); auto. Qed.

Lemma std_max_keeps_bound (m d c : float) :
  PrimFloat.ltb m c = false -> PrimFloat.ltb (Dbl.std_max m d) c = false.
Proof.
  intros Hm. unfold Dbl.std_max.
  destruct (PrimFloat.ltb m d) eqn:Hmd; [|exact Hm].
  destruct (PrimFloat.ltb d c) eqn:Hdc; [|reflexivity].
  rewrite (ltb_trans m d c Hmd Hdc) in Hm. discriminate Hm.
Qed.

Lemma std_max_not_below_r (m d : float) :
  PrimFloat.ltb (Dbl.std_max m d) d = false.
Proof.
  unfold Dbl.std_max. destruct (PrimFloat.ltb m d) eqn:Hmd;
    [apply ltb_irrefl | exact Hmd].
Qed.

(** ** The analytic transfer calculator *)

(** A loop of [push_back]s appends the pushed values in index order. *)
Lemma for_loop_push_back {A : Type} (f : nat -> A) (n : nat) (w : list A) :
  for_loop n (fun j v => v ++ [f j]) w = w ++ (f <$> seq 0 n).
Proof.
  induction n as [|n IH].
  - rewrite for_loop_0. cbn. rewrite app_nil_r. reflexivity.
  - rewrite for_loop_S, IH, seq_S, fmap_app, app_assoc. reflexivity.
Qed.

Lemma rows_length {A : Type} (F : nat -> nat -> A) (n m : nat) :
  length (for_loop m (fun i w => w ++ (F i <$> seq 0 n)) []) = m * n.
Proof.
  induction m as [|m IH]; [reflexivity|].
  rewrite for_loop_S, length_app, IH, length_fmap, length_seq. lia.
Qed.

Lemma rows_lookup {A : Type} (F : nat -> nat -> A) (n m i j : nat) :
  i < m -> j < n ->
  for_loop m (fun i w => w ++ (F i <$> seq 0 n)) [] !! (i * n + j) =
  Some (F i j).
Proof.
  intros Hi Hj. induction m as [|m IH]; [lia|].
  rewrite for_loop_S.
  destruct (decide (i = m)) as [->|Hne].
  - rewrite lookup_app_r by (rewrite rows_length; lia).
    rewrite rows_length.
    replace (m * n + j - m * n) with j by lia.
    rewrite list_lookup_fmap, lookup_seq_lt by exact Hj. reflexivity.
  - rewrite lookup_app_l by (rewrite rows_length; nia).
    apply IH. lia.
Qed.

Section AnalyticFacts.
Context {G : Geom}.

Lemma calcAllLights_rows (this : AnalyticTransferCalculator) :
  calcAllLights this =
  for_loop (length (m_faces this))
    (fun i w =>
       w ++ ((fun j => calcSingleQuadLight this (cameraOn this i)
                         (m_faces this !!! j))
               <$> seq 0 (length (m_faces this))))
    [].
Proof.
  unfold calcAllLights, for_loop at 1 3. cbv zeta.
  apply foldl_ext_fun. intros w i.
  apply (for_loop_push_back
           (fun j => calcSingleQuadLight this (cameraOn this i)
                       (m_faces this !!! j))).
Qed.

Lemma calcAllLights_length (this : AnalyticTransferCalculator) :
  length (calcAllLights this) =
  length (m_faces this) * length (m_faces this).
Proof. rewrite calcAllLights_rows. apply rows_length. Qed.

Lemma calcAllLights_entry (this : AnalyticTransferCalculator) (i j : nat) :
  i < length (m_faces this) -> j < length (m_faces this) ->
  entry (calcAllLights this) (length (m_faces this)) i j =
  calcSingleQuadLight this (cameraOn this i) (m_faces this !!! j).
Proof.
  intros Hi Hj. unfold entry.
  rewrite list_lookup_total_alt, calcAllLights_rows.
  rewrite (rows_lookup
             (fun i j => calcSingleQuadLight this (cameraOn this i)
                           (m_faces this !!! j)))
    by assumption.
  reflexivity.
Qed.

(** Every factor of the coefficient is NaN or has its sign bit clear,
    and so has the coefficient. *)
Lemma calcSingleQuadLight_sign (this : AnalyticTransferCalculator)
    (cam : Camera) (quad : Quad) :
  sign_clear (calcSingleQuadLight this cam quad).
Proof.
  unfold calcSingleQuadLight. cbv zeta.
  apply sign_clear_div; [|exact sign_clear_M_PI].
  apply sign_clear_mul; [|apply sign_clear_fmax_zero].
  apply sign_clear_mul; [apply sign_clear_fmax_zero|].
  apply sign_clear_div; [exact sign_clear_one | apply sign_clear_square].
Qed.

(** With the source at distance zero the inverse-square term is
    [+infinity], and it makes the coefficient [+infinity] or NaN. *)
Lemma calcSingleQuadLight_coincident (this : AnalyticTransferCalculator)
    (cam : Camera) (quad : Quad) :
  PrimFloat.is_zero
    (len (vsub (paraCentre quad (m_vertices this)) (getEyePos cam)))
    = true ->
  inf_or_nan (calcSingleQuadLight this cam quad).
Proof.
  intros Hz. unfold calcSingleQuadLight. cbv zeta.
  rewrite (inverse_square_of_zero _ Hz).
  apply div_inf_or_nan_M_PI.
  apply mul_inf_or_nan_l; [|apply fmax_zero_cases].
  apply mul_infinity_r. apply fmax_zero_cases.
Qed.

Lemma calcSingleQuadSubtended_coincident
    (this : AnalyticTransferCalculator) (cam : Camera) (quad : Quad) :
  PrimFloat.is_zero
    (len (vsub (paraCentre quad (m_vertices this)) (getEyePos cam)))
    = true ->
  inf_or_nan (calcSingleQuadSubtended this cam quad).
Proof.
  intros Hz. unfold calcSingleQuadSubtended. cbv zeta.
  rewrite (inverse_square_of_zero _ Hz).
  apply div_inf_or_nan_M_PI.
  apply mul_inf_or_nan_l; [left; reflexivity | apply fmax_zero_cases].
Qed.

End AnalyticFacts.

Lemma inf_or_nan_not_zero (a : float) : inf_or_nan a -> a <> 0%float.
Proof.
  intros [->| ->] H; apply (f_equal Prim2SF) in H; discriminate H.
Qed.

(** In the reference geometry the distance from a point with finite
    coordinates to itself is zero, so every pair of elements whose
    centroids coincide there is a zero-distance pair. *)
Lemma Ref_distance_to_itself (c : Vertex) :
  PrimFloat.is_finite (x c) = true -> PrimFloat.is_finite (y c) = true ->
  PrimFloat.is_finite (z c) = true ->
  Ref.len (vsub c c) = 0%float.
Proof.
  intros Hx Hy Hz. unfold vsub. rewrite !sub_self by assumption.
  reflexivity.
Qed.

Lemma Ref_coincident_centroids (this : AnalyticTransferCalculator)
    (cam : Camera) (quad : Quad) :
  let centre := paraCentre (Geom := refGeom) quad (m_vertices this) in
  getEyePos cam = centre ->
  PrimFloat.is_finite (x centre) = true ->
  PrimFloat.is_finite (y centre) = true ->
  PrimFloat.is_finite (z centre) = true ->
  inf_or_nan (calcSingleQuadLight (G := refGeom) this cam quad) /\
  inf_or_nan (calcSingleQuadSubtended (G := refGeom) this cam quad).
Proof.
  intros centre Heye Hx Hy Hz.
  assert (Hzero : PrimFloat.is_zero
                    (len (Geom := refGeom)
                       (vsub (paraCentre (Geom := refGeom) quad
                                (m_vertices this))
                             (getEyePos cam))) = true).
  { rewrite Heye. fold centre.
    change (PrimFloat.is_zero (Ref.len (vsub centre centre)) = true).
    rewrite Ref_distance_to_itself by assumption. reflexivity. }
  split.
  - apply calcSingleQuadLight_coincident. exact Hzero.
  - apply calcSingleQuadSubtended_coincident. exact Hzero.
Qed.

(** C4 (as the code has it): the analytic per-pair computation has no guard
    for a zero-distance source/target pair.  For every pair whose distance
    [l] evaluates to zero the inverse-square term [1.0 / (l * l)] is
    [+infinity], and the coefficient that [calcSingleQuadLight] (and
    likewise [calcSingleQuadSubtended]) returns is [+infinity] or NaN; it
    is never zero. *)
Theorem coincident_pair_unguarded (G : Geom)
    (this : AnalyticTransferCalculator) (cam : Camera) (quad : Quad) :
  let l := len (vsub (paraCentre quad (m_vertices this)) (getEyePos cam)) in
  PrimFloat.is_zero l = true ->
  (1 / (l * l))%float = infinity /\
  inf_or_nan (calcSingleQuadLight this cam quad) /\
  calcSingleQuadLight this cam quad <> 0%float /\
  inf_or_nan (calcSingleQuadSubtended this cam quad) /\
  calcSingleQuadSubtended this cam quad <> 0%float.
Proof.
  intros l Hz.
  pose proof (calcSingleQuadLight_coincident this cam quad Hz) as HL.
  pose proof (calcSingleQuadSubtended_coincident this cam quad Hz) as HS.
  split; [exact (inverse_square_of_zero l Hz)|].
  split; [exact HL|]. split; [exact (inf_or_nan_not_zero _ HL)|].
  split; [exact HS | exact (inf_or_nan_not_zero _ HS)].
Qed.

Lemma coincident_pair_unguarded_witness :
  let this := mkAnalytic Scene.vertices [Scene.front black; Scene.back black] in
  inf_or_nan
    (calcSingleQuadLight (G := refGeom) this (cameraOn this 0)
       (Scene.back black)).
Proof.
  intros this.
  exact (proj1 (proj2
           (coincident_pair_unguarded refGeom this (cameraOn this 0)
              (Scene.back black) eq_refl))).
Defined.

(** The two sides of a sheet are distinct elements with the same centroid;
    the coefficient of that pair is NaN, not zero. *)
Lemma coincident_pair_is_nan :
  paraCentre (Geom := refGeom) (Scene.back black) Scene.vertices =
    paraCentre (Geom := refGeom) (Scene.front black) Scene.vertices /\
  calcSingleQuadLight (G := refGeom)
    (mkAnalytic Scene.vertices [Scene.front black; Scene.back black])
    (cameraOn
       (mkAnalytic Scene.vertices [Scene.front black; Scene.back black]) 0)
    (Scene.back black) = nan /\
  calcSingleQuadLight (G := refGeom)
    (mkAnalytic Scene.vertices [Scene.front black; Scene.back black])
    (cameraOn
       (mkAnalytic Scene.vertices [Scene.front black; Scene.back black]) 0)
    (Scene.back black) <> 0%float.
Proof.
  split; [vm_compute; reflexivity|].
  split; [vm_compute; reflexivity|].
  intros H. apply (f_equal Prim2SF) in H. vm_compute in H. discriminate H.
Qed.

(** C2 (as the code has it): every entry [T[i][j]] of the matrix that
    [calcAllLights] produces, the diagonal included, is the coefficient
    [calcSingleQuadLight] computes for the camera placed on element [i] and
    the source [j], and no entry is ever negative (it is a number [>= 0],
    [+infinity] or NaN).  The diagonal is not set to zero: [T[i][i]] is
    [+infinity] or NaN whenever the distance from the element's centre to
    itself evaluates to zero. *)
Theorem transfer_matrix_entries (G : Geom)
    (this : AnalyticTransferCalculator) (i j : nat) :
  let n := length (m_faces this) in
  let T := calcAllLights this in
  i < n -> j < n ->
  length T = n * n /\
  entry T n i j =
    calcSingleQuadLight this (cameraOn this i) (m_faces this !!! j) /\
  PrimFloat.ltb (entry T n i j) 0 = false /\
  (PrimFloat.is_zero
     (len (vsub (paraCentre (m_faces this !!! i) (m_vertices this))
                (paraCentre (m_faces this !!! i) (m_vertices this))))
     = true ->
   inf_or_nan (entry T n i i) /\ entry T n i i <> 0%float).
Proof.
  intros n T Hi Hj.
  split; [apply calcAllLights_length|].
  split; [apply calcAllLights_entry; assumption|].
  split.
  - unfold T, n. rewrite calcAllLights_entry by assumption.
    apply sign_clear_not_negative, calcSingleQuadLight_sign.
  - intros Hz. unfold T, n. rewrite calcAllLights_entry by assumption.
    pose proof (calcSingleQuadLight_coincident this (cameraOn this i)
                  (m_faces this !!! i) Hz) as H.
    split; [exact H | exact (inf_or_nan_not_zero _ H)].
Qed.

Lemma transfer_matrix_entries_witness :
  let this := mkAnalytic Scene.vertices [Scene.front black; Scene.lamp] in
  PrimFloat.ltb (entry (calcAllLights (G := refGeom) this) 2 0 1) 0 = false.
Proof.
  intros this.
  exact (proj1 (proj2 (proj2
           (transfer_matrix_entries refGeom this 0 1
              ltac:(cbn; lia) ltac:(cbn; lia))))).
Defined.

(** A mesh of one square: the only entry of its matrix is the diagonal
    entry [T[0][0]], and it is NaN, not zero. *)
Lemma diagonal_entry_is_nan :
  calcAllLights (G := refGeom)
    (mkAnalytic Scene.vertices [Scene.front black]) = [nan] /\
  entry (calcAllLights (G := refGeom)
           (mkAnalytic Scene.vertices [Scene.front black])) 1 0 0
    <> 0%float.
Proof.
  split; [vm_compute; reflexivity|].
  intros H. apply (f_equal Prim2SF) in H. vm_compute in H. discriminate H.
Qed.

(** ** The convergence loop *)

(** With a previous total of zero and a new total that is a non-zero
    number, the relative change is exactly one. *)
Lemma relChange_from_zero `{G : Geom} (newLight : float) :
  PrimFloat.is_nan newLight = false ->
  PrimFloat.is_zero newLight = false ->
  relChange 0 newLight = 1%float.
Proof.
  intros Hnan Hzero. unfold relChange, Dbl.fabs.
  apply Prim2SF_inj.
  rewrite FloatAxioms.abs_spec, FloatAxioms.sub_spec, FloatAxioms.div_spec.
  change (Prim2SF 0) with (S754_zero false).
  change (Prim2SF 1) with (S754_finite false 4503599627370496 (-52)).
  destruct (Prim2SF newLight) as [s|s| |s m e] eqn:E.
  - assert (PrimFloat.is_zero newLight = true)
      by (apply is_zero_spec; eauto).
    congruence.
  - destruct s; reflexivity.
  - apply is_nan_spec in E. congruence.
  - destruct s; reflexivity.
Qed.

Lemma one_exceeds_target : Dbl.gtb 1 CONVERGENCE_TARGET = true.
Proof. reflexivity. Qed.

Section ConvergenceFacts.
Context {G : Geom}.
Variables (transfers : list float) (vs : list Vertex).

Lemma lightFrom_shift (light : float) (k : nat) (qs : list Quad) :
  lightFrom (calcLight (iterateLighting qs transfers) vs) k transfers vs
    (iterateLighting qs transfers) =
  lightFrom light (S k) transfers vs qs.
Proof.
  destruct k as [|k]; [reflexivity|].
  unfold lightFrom. rewrite <- iterateTimes_shift. reflexivity.
Qed.

Lemma relChangeFrom_shift (light : float) (k : nat) (qs : list Quad) :
  1 <= k ->
  relChangeFrom (calcLight (iterateLighting qs transfers) vs) k
    transfers vs (iterateLighting qs transfers) =
  relChangeFrom light (S k) transfers vs qs.
Proof.
  intros Hk. destruct k as [|k]; [lia|].
  unfold relChangeFrom.
  replace (S k - 1) with k by lia. replace (S (S k) - 1) with (S k) by lia.
  rewrite !(lightFrom_shift light). reflexivity.
Qed.

(** The loop returns after iteration [k] exactly when [k] is the first
    iteration whose relative change is not greater than the target. *)
Lemma convergeLoop_spec (fuel : nat) (qs : list Quad) (light : float)
    (k : nat) (qsk : list Quad) (lk : float) :
  convergeLoop fuel transfers vs qs light = Some (k, qsk, lk) <->
  1 <= k <= fuel /\
  qsk = iterateTimes k qs transfers /\
  lk = lightFrom light k transfers vs qs /\
  Dbl.gtb (relChangeFrom light k transfers vs qs) CONVERGENCE_TARGET
    = false /\
  (forall m, 1 <= m < k ->
     Dbl.gtb (relChangeFrom light m transfers vs qs) CONVERGENCE_TARGET
       = true).
Proof.
  revert qs light k qsk lk.
  induction fuel as [|fuel IH]; intros qs light k qsk lk.
  - cbn. split; [discriminate | lia].
  - cbn [convergeLoop].
    set (qs1 := iterateLighting qs transfers).
    set (newLight := calcLight qs1 vs).
    assert (Hfirst : relChangeFrom light 1 transfers vs qs =
                     relChange light newLight) by reflexivity.
    destruct (Dbl.gtb (relChange light newLight) CONVERGENCE_TARGET)
      eqn:Hgt.
    + split.
      * destruct (convergeLoop fuel transfers vs qs1 newLight)
          as [[[k' q'] l']|] eqn:Hrec; [|discriminate].
        intros [= <- <- <-].
        apply IH in Hrec as (Hk & Hq & Hl & Hstop & Hcont).
        split; [lia|].
        split; [rewrite iterateTimes_shift; exact Hq|].
        split; [rewrite <- (lightFrom_shift light); exact Hl|].
        split; [rewrite <- (relChangeFrom_shift light) by lia; exact Hstop|].
        intros m Hm. destruct (decide (m = 1)) as [->|Hm1].
        -- rewrite Hfirst. exact Hgt.
        -- replace m with (S (m - 1)) by lia.
           rewrite <- (relChangeFrom_shift light) by lia.
           apply Hcont. lia.
      * intros (Hk & Hq & Hl & Hstop & Hcont).
        destruct (decide (k = 1)) as [->|Hk1].
        { rewrite Hfirst in Hstop. congruence. }
        assert (Hrec : convergeLoop fuel transfers vs qs1 newLight =
                       Some (k - 1, qsk, lk)).
        { apply IH. split; [lia|].
          replace k with (S (k - 1)) in Hq, Hl, Hstop by lia.
          split; [unfold qs1; rewrite <- iterateTimes_shift; exact Hq|].
          split; [unfold newLight, qs1;
                  rewrite (lightFrom_shift light); exact Hl|].
          split; [unfold newLight, qs1;
                  rewrite (relChangeFrom_shift light) by lia;
                  exact Hstop|].
          intros m Hm. unfold newLight, qs1.
          rewrite (relChangeFrom_shift light) by lia.
          apply Hcont. lia. }
        rewrite Hrec. replace (S (k - 1)) with k by lia. reflexivity.
    + split.
      * intros [= <- <- <-].
        split; [lia|]. split; [reflexivity|]. split; [reflexivity|].
        split; [rewrite Hfirst; exact Hgt | intros m Hm; lia].
      * intros (Hk & Hq & Hl & Hstop & Hcont).
        destruct (decide (k = 1)) as [->|Hk1].
        { rewrite Hq, Hl. reflexivity. }
        specialize (Hcont 1 ltac:(lia)). rewrite Hfirst in Hcont.
        congruence.
Qed.

End ConvergenceFacts.

(** C3 (as the code has it): the convergence loop returns after iteration
    [k] exactly when [k] is the first iteration in which the relative
    change [fabs(previous / new - 1)] of the area-weighted total scene
    light is not greater than the fixed threshold 0.001 (it is at most
    0.001, or it is NaN).  The previous total entering the first iteration
    is zero; whenever the total after the first iteration is a non-zero
    number, the first relative change is exactly 1, so the loop cannot stop
    there and at least two solver iterations are executed. *)
Theorem convergence_loop_stops (G : Geom) (transfers : list float)
    (vs : list Vertex) (qs : list Quad) :
  (forall (fuel k : nat) (qsk : list Quad) (lk : float),
     converge fuel transfers vs qs = Some (k, qsk, lk) <->
     1 <= k <= fuel /\
     qsk = iterateTimes k qs transfers /\
     lk = lightAfter k transfers vs qs /\
     Dbl.gtb (relChangeAt k transfers vs qs) CONVERGENCE_TARGET = false /\
     (forall m, 1 <= m < k ->
        Dbl.gtb (relChangeAt m transfers vs qs) CONVERGENCE_TARGET = true))
  /\
  (PrimFloat.is_nan (lightAfter 1 transfers vs qs) = false ->
   PrimFloat.is_zero (lightAfter 1 transfers vs qs) = false ->
   relChangeAt 1 transfers vs qs = 1%float /\
   converge 1 transfers vs qs = None /\
   (forall (fuel k : nat) (qsk : list Quad) (lk : float),
      converge fuel transfers vs qs = Some (k, qsk, lk) -> 2 <= k)).
Proof.
  split.
  - intros fuel k qsk lk. apply convergeLoop_spec.
  - intros Hnan Hzero.
    assert (Hone : relChangeAt 1 transfers vs qs = 1%float)
      by exact (relChange_from_zero _ Hnan Hzero).
    split; [exact Hone|]. split.
    + unfold converge. cbn [convergeLoop].
      change (relChange Dbl.zero
                (calcLight (iterateLighting qs transfers) vs))
        with (relChangeAt 1 transfers vs qs).
      rewrite Hone, one_exceeds_target. reflexivity.
    + intros fuel k qsk lk Hres.
      apply convergeLoop_spec in Hres as (Hk & _ & _ & Hstop & _).
      destruct (decide (k = 1)) as [->|Hk1]; [|lia].
      change (relChangeFrom Dbl.zero 1 transfers vs qs)
        with (relChangeAt 1 transfers vs qs) in Hstop.
      rewrite Hone, one_exceeds_target in Hstop. discriminate Hstop.
Qed.

Lemma convergence_loop_stops_witness :
  let qs := [Scene.back black; Scene.lamp] in
  let T := calcAllLights (G := refGeom) (mkAnalytic Scene.vertices qs) in
  relChangeAt (G := refGeom) 1 T Scene.vertices qs = 1%float /\
  converge (G := refGeom) 1 T Scene.vertices qs = None.
Proof.
  intros qs T.
  pose proof (proj2 (convergence_loop_stops refGeom T Scene.vertices qs)
                eq_refl eq_refl) as (H1 & H2 & _).
  exact (conj H1 H2).
Defined.

(** A scene without light: the total after the first iteration is zero,
    the relative change [fabs(0.0 / 0.0 - 1.0)] is NaN, the comparison
    [relChange > CONVERGENCE_TARGET] is false and the loop stops after one
    iteration.  The empty scene, and a scene of one unlit square. *)
Lemma unlit_scene_stops_after_one_iteration :
  converge (G := refGeom) 1 [] Scene.vertices [] = Some (1, [], 0%float) /\
  relChangeAt (G := refGeom) 1 [] Scene.vertices [] = nan /\
  converge (G := refGeom) 1 [0%float] Scene.vertices [Scene.front black] =
    Some (1, [Scene.front black], 0%float).
Proof. repeat split; vm_compute; reflexivity. Qed.

(** ** The brightness normaliser *)

Section NormaliseFacts.
Context {G : Geom}.
Variable Position : Vertex.

Lemma scanMax_cons (max : float) (q : Quad) (qs : list Quad)
    (vs : list Vertex) :
  scanMax Position max (q :: qs) vs =
  scanMax Position
    (if negb (isEmitter q) && facesUs Position q vs
     then Dbl.std_max
            (Dbl.std_max (Dbl.std_max max (r (screenColour q)))
               (g (screenColour q)))
            (b (screenColour q))
     else max) qs vs.
Proof. reflexivity. Qed.

(** The scan returns its starting value or one of the channels it looked
    at. *)
Lemma scanMax_cases (max : float) (qs : list Quad) (vs : list Vertex) :
  scanMax Position max qs vs = max \/
  visibleChannel Position qs vs (scanMax Position max qs vs).
Proof.
  revert max. induction qs as [|q qs IH]; intros max; [left; reflexivity|].
  rewrite scanMax_cons.
  set (step := if negb (isEmitter q) && facesUs Position q vs
               then _ else max).
  assert (Hstep : step = max \/ visibleChannel Position (q :: qs) vs step).
  { unfold step.
    destruct (isEmitter q) eqn:Hem; [left; reflexivity|].
    destruct (facesUs Position q vs) eqn:Hf; [|left; reflexivity].
    cbn [negb andb].
    destruct (std_max_cases
                (Dbl.std_max (Dbl.std_max max (r (screenColour q)))
                   (g (screenColour q)))
                (b (screenColour q))) as [->| ->];
      [|right; exists q; split; [left|]; auto].
    destruct (std_max_cases (Dbl.std_max max (r (screenColour q)))
                (g (screenColour q))) as [->| ->];
      [|right; exists q; split; [left|]; auto].
    destruct (std_max_cases max (r (screenColour q))) as [->| ->];
      [left; reflexivity | right; exists q; split; [left|]; auto]. }
  destruct (IH step) as [->|(q' & Hin & Hq')].
  - exact Hstep.
  - right. exists q'. split; [right; exact Hin | exact Hq'].
Qed.

(** The scan keeps every upper bound of its starting value, and no
    channel it looked at is above its result. *)
Lemma scanMax_keeps_bound (max c : float) (qs : list Quad)
    (vs : list Vertex) :
  PrimFloat.ltb max c = false ->
  PrimFloat.ltb (scanMax Position max qs vs) c = false.
Proof.
  revert max. induction qs as [|q qs IH]; intros max Hmax; [exact Hmax|].
  rewrite scanMax_cons. apply IH.
  destruct (negb (isEmitter q) && facesUs Position q vs); [|exact Hmax].
  repeat apply std_max_keeps_bound. exact Hmax.
Qed.

Lemma scanMax_not_nan (max : float) (qs : list Quad) (vs : list Vertex) :
  PrimFloat.is_nan max = false ->
  PrimFloat.is_nan (scanMax Position max qs vs) = false.
Proof.
  revert max. induction qs as [|q qs IH]; intros max Hmax; [exact Hmax|].
  rewrite scanMax_cons. apply IH.
  destruct (negb (isEmitter q) && facesUs Position q vs); [|exact Hmax].
  repeat apply std_max_not_nan. exact Hmax.
Qed.

Lemma scanMax_upper_bound (max c : float) (qs : list Quad)
    (vs : list Vertex) :
  visibleChannel Position qs vs c ->
  PrimFloat.ltb (scanMax Position max qs vs) c = false.
Proof.
  intros (q & Hin & Hem & Hf & Hc). revert max.
  induction qs as [|q' qs IH]; intros max; [inversion Hin|].
  rewrite scanMax_cons.
  apply elem_of_cons in Hin as [->|Hin]; [|apply IH; exact Hin].
  apply scanMax_keeps_bound.
  rewrite Hem, Hf. cbn [negb andb].
  destruct Hc as [->|[->| ->]].
  - do 2 apply std_max_keeps_bound. apply std_max_not_below_r.
  - apply std_max_keeps_bound. apply std_max_not_below_r.
  - apply std_max_not_below_r.
Qed.

Lemma normaliseBrightness_scaled (qs : list Quad) (vs : list Vertex) :
  PrimFloat.ltb (visibleMax Position qs vs) TARGET = true ->
  normaliseBrightness Position qs vs =
  (fun q =>
     if isEmitter q then q
     else setScreenColour q
            (cscale (screenColour q)
                    (1 / visibleMax Position qs vs)%float)) <$> qs.
Proof.
  intros Hlt. unfold normaliseBrightness, brightnessScale. cbv zeta.
  rewrite Hlt. apply list_fmap_ext. intros _ q _.
  destruct (isEmitter q); reflexivity.
Qed.

Lemma normaliseBrightness_noop (qs : list Quad) (vs : list Vertex) :
  PrimFloat.ltb (visibleMax Position qs vs) TARGET = false ->
  normaliseBrightness Position qs vs = qs.
Proof.
  intros Hge. unfold normaliseBrightness, brightnessScale. cbv zeta.
  rewrite Hge. rewrite <- (list_fmap_id qs) at 2.
  apply list_fmap_ext. intros _ q _.
  destruct (isEmitter q); [reflexivity|]. cbn [negb].
  rewrite cscale_one. destruct q; reflexivity.
Qed.

End NormaliseFacts.

(** C5 (as the code has it): the scan runs over the channels of the
    non-emitter elements that face the camera, starting from 0.0: the
    maximum it finds is a number, not below 0.0; it is 0.0 or one of those
    channels, and none of those channels is above it.  If that maximum is
    not below the target 1.0 (it is at or above it), the normaliser leaves
    every element's colour unchanged.  If it is below the target, the
    normaliser multiplies the colour of every non-emitter element, facing
    the camera or not, by the same factor [1.0 / max] and leaves the
    emitters unchanged; a channel equal to the maximum becomes
    [max * (1.0 / max)]. *)
Theorem normaliser_scales_up (G : Geom) (Position : Vertex)
    (qs : list Quad) (vs : list Vertex) :
  let max := visibleMax Position qs vs in
  (PrimFloat.is_nan max = false /\ PrimFloat.ltb max 0 = false) /\
  (max = 0%float \/ visibleChannel Position qs vs max) /\
  (forall c, visibleChannel Position qs vs c ->
             PrimFloat.ltb max c = false) /\
  (PrimFloat.ltb max TARGET = false ->
   normaliseBrightness Position qs vs = qs) /\
  (PrimFloat.ltb max TARGET = true ->
   normaliseBrightness Position qs vs =
   (fun q =>
      if isEmitter q then q
      else setScreenColour q
             (cscale (screenColour q) (1 / max)%float)) <$> qs).
Proof.
  intros max.
  split; [split;
          [exact (scanMax_not_nan Position 0 qs vs eq_refl)
          |exact (scanMax_keeps_bound Position 0 0 qs vs eq_refl)]|].
  split; [exact (scanMax_cases Position 0 qs vs)|].
  split; [intros c Hc; exact (scanMax_upper_bound Position 0 c qs vs Hc)|].
  split; intros Hmax.
  - apply normaliseBrightness_noop. exact Hmax.
  - apply normaliseBrightness_scaled. exact Hmax.
Qed.

Lemma normaliser_scales_up_witness :
  normaliseBrightness (G := refGeom) Scene.EYE_POS
    [Scene.front (mkColour 0x1p-1 0x1p-2 0x1p-3); Scene.lamp]
    Scene.vertices =
  [Scene.front (mkColour 1 0x1p-1 0x1p-2); Scene.lamp].
Proof.
  exact (proj2 (proj2 (proj2 (proj2
           (normaliser_scales_up refGeom Scene.EYE_POS
              [Scene.front (mkColour 0x1p-1 0x1p-2 0x1p-3); Scene.lamp]
              Scene.vertices)))) eq_refl).
Defined.

(** An unlit square facing the camera: the maximum is 0.0, the factor is
    [1.0 / 0.0 = +infinity] and every channel becomes [0.0 * infinity], a
    NaN; the maximum over the visible elements is still 0.0 afterwards, not
    1.0. *)
Lemma unlit_scene_normalises_to_nan :
  facesUs (G := refGeom) Scene.EYE_POS (Scene.front black) Scene.vertices
    = true /\
  visibleMax (G := refGeom) Scene.EYE_POS [Scene.front black] Scene.vertices
    = 0%float /\
  normaliseBrightness (G := refGeom) Scene.EYE_POS [Scene.front black]
    Scene.vertices = [Scene.front (mkColour nan nan nan)] /\
  visibleMax (G := refGeom) Scene.EYE_POS
    (normaliseBrightness (G := refGeom) Scene.EYE_POS [Scene.front black]
       Scene.vertices) Scene.vertices <> 1%float.
Proof.
  split; [reflexivity|]. split; [reflexivity|].
  split; [vm_compute; reflexivity|].
  intros H. apply (f_equal Prim2SF) in H. vm_compute in H. discriminate H.
Qed.

(** C6 (as the code has it): applying the normaliser twice in succession
    yields the same colours as applying it once whenever the maximum over
    the visible non-emitters is at or above the target after the first
    application, the second application then being a no-op; this is so in
    particular when the maximum was at or above the target from the
    start.  When the maximum is still below the target after the first
    application, the second application multiplies every non-emitter colour
    once more, by [1.0 / max]. *)
Theorem normaliser_twice (G : Geom) (Position : Vertex) (qs : list Quad)
    (vs : list Vertex) :
  let once := normaliseBrightness Position qs vs in
  let twice := normaliseBrightness Position once vs in
  (PrimFloat.ltb (visibleMax Position once vs) TARGET = false ->
   twice = once) /\
  (PrimFloat.ltb (visibleMax Position qs vs) TARGET = false ->
   twice = once) /\
  (PrimFloat.ltb (visibleMax Position once vs) TARGET = true ->
   twice =
   (fun q =>
      if isEmitter q then q
      else setScreenColour q
             (cscale (screenColour q)
                     (1 / visibleMax Position once vs)%float)) <$> once).
Proof.
  intros once twice. split; [|split].
  - intros Hafter. apply normaliseBrightness_noop. exact Hafter.
  - intros Hbefore. unfold twice, once.
    rewrite (normaliseBrightness_noop Position qs vs Hbefore).
    apply normaliseBrightness_noop. exact Hbefore.
  - intros Hafter. apply normaliseBrightness_scaled. exact Hafter.
Qed.

Lemma normaliser_twice_witness :
  let qs := [Scene.front (mkColour 0x1p-1 0x1p-2 0x1p-3); Scene.lamp] in
  normaliseBrightness (G := refGeom) Scene.EYE_POS
    (normaliseBrightness (G := refGeom) Scene.EYE_POS qs Scene.vertices)
    Scene.vertices =
  normaliseBrightness (G := refGeom) Scene.EYE_POS qs Scene.vertices.
Proof.
  intros qs.
  exact (proj1 (normaliser_twice refGeom Scene.EYE_POS qs Scene.vertices)
           eq_refl).
Defined.

(** A sheet of colour (49/64, 1/2, 1/4), given as its two sides so that
    one of them faces the camera.  The first application multiplies by
    [1.0 / 0.765625]; the red channel becomes [0.765625 * (1.0 / 0.765625)],
    which rounds to the double just below 1.0.  The second application
    therefore finds the maximum below the target and rescales again: red
    becomes 1.0 and the other channels change in their last bit. *)
Lemma normaliser_rescales_again :
  normaliseBrightness (G := refGeom) Scene.EYE_POS
    [Scene.front Scene.dim; Scene.back Scene.dim] Scene.vertices =
  [Scene.front
     (mkColour 0x1.fffffffffffffp-1 0x1.4e5e0a72f0539p-1
               0x1.4e5e0a72f0539p-2);
   Scene.back
     (mkColour 0x1.fffffffffffffp-1 0x1.4e5e0a72f0539p-1
               0x1.4e5e0a72f0539p-2)] /\
  normaliseBrightness (G := refGeom) Scene.EYE_POS
    (normaliseBrightness (G := refGeom) Scene.EYE_POS
       [Scene.front Scene.dim; Scene.back Scene.dim] Scene.vertices)
    Scene.vertices =
  [Scene.front
     (mkColour 1 0x1.4e5e0a72f053ap-1 0x1.4e5e0a72f053ap-2);
   Scene.back
     (mkColour 1 0x1.4e5e0a72f053ap-1 0x1.4e5e0a72f053ap-2)] /\
  normaliseBrightness (G := refGeom) Scene.EYE_POS
    (normaliseBrightness (G := refGeom) Scene.EYE_POS
       [Scene.front Scene.dim; Scene.back Scene.dim] Scene.vertices)
    Scene.vertices <>
  normaliseBrightness (G := refGeom) Scene.EYE_POS
    [Scene.front Scene.dim; Scene.back Scene.dim] Scene.vertices.
Proof.
  split; [vm_compute; reflexivity|].
  split; [vm_compute; reflexivity|].
  intros H.
  apply (f_equal (fun l => Prim2SF (r (screenColour (l !!! 0))))) in H.
  vm_compute in H. discriminate H.
Qed.

(** ** The specular pass never takes light away *)

Lemma channel_not_below_refl (a : float) : channel_not_below a a.
Proof.
  split; [apply ltb_irrefl|].
  intros Hnan. apply not_less_leb; [apply ltb_irrefl | exact Hnan..].
Qed.

Lemma channel_not_below_add (a c : float) :
  sign_clear c -> channel_not_below (a + c) a.
Proof.
  intros Hc. split; [apply add_not_less; exact Hc|].
  intros Hnan. apply not_less_leb.
  - apply add_not_less. exact Hc.
  - exact (add_is_nan_l a c Hnan).
  - exact Hnan.
Qed.

Lemma colour_not_below_refl (c : Colour) : colour_not_below c c.
Proof. repeat split; apply channel_not_below_refl. Qed.

Lemma colour_not_below_cadd (c d : Colour) :
  colour_sign_clear d -> colour_not_below (cadd c d) c.
Proof.
  intros (Hr & Hg & Hb).
  split; [|split]; apply channel_not_below_add; assumption.
Qed.

Lemma colour_sign_clear_black : colour_sign_clear black.
Proof. repeat split. Qed.

Lemma colour_sign_clear_cadd (c d : Colour) :
  colour_sign_clear c -> colour_not_negative d ->
  colour_sign_clear (cadd c d).
Proof.
  intros (Hr & Hg & Hb) (Dr & Dg & Db).
  split; [|split]; apply sign_clear_add; assumption.
Qed.

(** A sum of colours without negative channels, started from black, has
    no channel with its sign bit set. *)
Lemma foldl_cadd_sign_clear (l : list Colour) (acc : Colour) :
  colour_sign_clear acc ->
  Forall colour_not_negative l ->
  colour_sign_clear (foldl cadd acc l).
Proof.
  revert acc. induction l as [|c l IH]; intros acc Hacc Hl; [exact Hacc|].
  cbn [foldl]. inversion Hl as [|? ? Hc Hl']; subst.
  apply IH; [apply colour_sign_clear_cadd; assumption | exact Hl'].
Qed.

Section SpecularOrder.
Context {G : Geom}.
Variable powf : float -> float -> float.
(** [std::pow] of a base that is not negative is not negative. *)
Hypothesis powf_not_negative :
  forall a, PrimFloat.ltb a 0 = false ->
            PrimFloat.ltb (powf a specularPower) 0 = false.

Lemma specularVal_not_negative (vs : list Vertex) (pos : list float)
    (qi qj : Quad) :
  PrimFloat.ltb (specularVal powf vs pos qi qj) 0 = false.
Proof.
  unfold specularVal. cbv zeta.
  apply powf_not_negative, std_max_zero_not_negative.
Qed.

Lemma highlight_not_negative (vs : list Vertex) (pos : list float)
    (qi qj : Quad) :
  colour_not_negative (highlight powf vs pos qi qj).
Proof.
  pose proof (specularVal_not_negative vs pos qi qj) as Hsv.
  unfold highlight, cscale, white. cbn [r g b].
  repeat split;
    (apply not_negative_mul_r; [|reflexivity]);
    (apply not_negative_mul_l; [reflexivity | exact Hsv]).
Qed.

Lemma specularSum_sign_clear (qs : list Quad) (vs : list Vertex)
    (pos : list float) (i : nat) :
  colour_sign_clear (specularSum powf qs vs pos i).
Proof.
  unfold specularSum.
  apply foldl_cadd_sign_clear; [exact colour_sign_clear_black|].
  apply Forall_fmap, Forall_forall. intros j _.
  apply highlight_not_negative.
Qed.

End SpecularOrder.

Lemma Ref_powf_not_negative (a : float) :
  PrimFloat.ltb a 0 = false ->
  PrimFloat.ltb (Ref.powf a specularPower) 0 = false.
Proof.
  intros _. unfold Ref.powf. cbv zeta.
  apply sign_clear_not_negative, sign_clear_square.
Qed.

(** C10 (as the code has it): the specular pass never takes light away.
    Provided [pow] of a base that is not negative is not negative, for
    every quad list, vertex list and camera position no colour channel of
    any element compares less after [computeSpecularity] than before, and
    every channel that is not NaN afterwards is greater than or equal to
    its value before; each added contribution is [max(., 0)] raised to a
    power, times a positive factor. *)
Theorem specular_pass_never_decreases (G : Geom)
    (powf : float -> float -> float) (qs : list Quad) (vs : list Vertex)
    (pos : list float) (i : nat) :
  (forall a, PrimFloat.ltb a 0 = false ->
             PrimFloat.ltb (powf a specularPower) 0 = false) ->
  let before := screenColour (qs !!! i) in
  let after := screenColour (computeSpecularity powf qs vs pos !!! i) in
  (PrimFloat.ltb (r after) (r before) = false /\
   (PrimFloat.is_nan (r after) = false ->
    PrimFloat.leb (r before) (r after) = true)) /\
  (PrimFloat.ltb (g after) (g before) = false /\
   (PrimFloat.is_nan (g after) = false ->
    PrimFloat.leb (g before) (g after) = true)) /\
  (PrimFloat.ltb (b after) (b before) = false /\
   (PrimFloat.is_nan (b after) = false ->
    PrimFloat.leb (b before) (b after) = true)).
Proof.
  intros Hpow before after.
  change (colour_not_below after before).
  unfold after, before. rewrite computeSpecularity_lookup.
  destruct (isSpecular (qs !!! i)); [|apply colour_not_below_refl].
  cbn [setScreenColour screenColour].
  apply colour_not_below_cadd, specularSum_sign_clear. exact Hpow.
Qed.

Lemma specular_pass_never_decreases_witness :
  let qs := [Scene.mirror Scene.dim; Scene.lamp] in
  let after :=
    screenColour
      (computeSpecularity (G := refGeom) Ref.powf qs Scene.vertices
         [0; 0; 3]%float !!! 0) in
  PrimFloat.ltb (r after) (r Scene.dim) = false /\
  (PrimFloat.is_nan (r after) = false ->
   PrimFloat.leb (r Scene.dim) (r after) = true).
Proof.
  intros qs after.
  exact (proj1 (specular_pass_never_decreases refGeom Ref.powf qs
                  Scene.vertices [0; 0; 3]%float 0 Ref_powf_not_negative)).
Defined.

(** Two scenes in which a channel is not greater than or equal to its
    value before the pass.  A mirror lit by the lamp, with the camera at
    the centre of the mirror: the view vector is the normalised zero
    vector, the highlight is NaN and so is the mirror's colour after the
    pass.  And a square that is not specular and whose red channel is NaN:
    it is left as it is, and NaN is not greater than or equal to NaN. *)
Lemma specular_pass_not_greater_or_equal :
  screenColour
    (computeSpecularity (G := refGeom) Ref.powf
       [Scene.mirror Scene.dim; Scene.lamp] Scene.vertices
       [0; 0; 0]%float !!! 0) = mkColour nan nan nan /\
  PrimFloat.leb (r Scene.dim)
    (r (screenColour
          (computeSpecularity (G := refGeom) Ref.powf
             [Scene.mirror Scene.dim; Scene.lamp] Scene.vertices
             [0; 0; 0]%float !!! 0))) = false /\
  PrimFloat.leb (r (mkColour nan 0 0))
    (r (screenColour
          (computeSpecularity (G := refGeom) Ref.powf
             [Scene.front (mkColour nan 0 0)] Scene.vertices
             [0; 0; -3]%float !!! 0))) = false.
Proof. repeat split; vm_compute; reflexivity. Qed.

(** * Further properties of the code *)

(** ** More facts about doubles *)

Lemma SFmul_comm (u v : spec_float) : SF64mul u v = SF64mul v u.
Proof.
  destruct u as [su|su| |su mu eu], v as [sv|sv| |sv mv ev];
    cbn [SF64mul SFmul]; rewrite ?(xorb_comm su sv); try reflexivity.
  rewrite (Pos.mul_comm mu mv), (Z.add_comm eu ev). reflexivity.
Qed.

Lemma mul_comm (a c : float) : (a * c)%float = (c * a)%float.
Proof.
  apply Prim2SF_inj. rewrite !FloatAxioms.mul_spec. apply SFmul_comm.
Qed.

Lemma mul_one_l (a : float) : (1 * a)%float = a.
Proof. rewrite mul_comm. apply mul_one_r. Qed.

Lemma cmul_white (c : Colour) : cmul white c = c.
Proof.
  destruct c as [cr cg cb]. unfold cmul, white, Dbl.one. cbn [r g b].
  rewrite !mul_one_l. reflexivity.
Qed.

(** [x / x] is 1 for every finite double other than zero: the quotient of
    the mantissas is exact. *)
Lemma SFdiv_self (s : bool) (m : positive) (e : Z) :
  SF64div (S754_finite s m e) (S754_finite s m e) = Prim2SF 1.
Proof.
  unfold SF64div, SFdiv, SFdiv_core_binary.
  replace (Zdigits2 (Z.pos m) + e - (Zdigits2 (Z.pos m) + e))%Z
    with 0%Z by lia.
  rewrite Z.sub_diag.
  change (fexp prec emax 0 `min` 0)%Z with (-53)%Z.
  change (0 - -53)%Z with 53%Z. cbv iota beta zeta.
  rewrite Z.shiftl_mul_pow2 by lia.
  assert (H : IntDef.Z.div_eucl (Z.pos m * 2 ^ 53) (Z.pos m) =
              ((2 ^ 53)%Z, 0%Z)).
  { pose proof (Z.div_eucl_eq (Z.pos m * 2 ^ 53) (Z.pos m) ltac:(lia))
      as Heq.
    pose proof (Z.mod_pos_bound (Z.pos m * 2 ^ 53) (Z.pos m) ltac:(lia))
      as Hb.
    unfold Z.modulo in Hb.
    change Z.div_eucl with IntDef.Z.div_eucl in *.
    destruct (IntDef.Z.div_eucl (Z.pos m * 2 ^ 53) (Z.pos m)) as [q r'].
    assert (q = 2 ^ 53)%Z by nia. subst q.
    f_equal. lia. }
  rewrite H.
  assert (Hl : new_location (Z.pos m) 0 = loc_Exact).
  { unfold new_location, new_location_even, new_location_odd.
    destruct (IntDef.Z.even (Z.pos m)); reflexivity. }
  rewrite Hl. destruct s; reflexivity.
Qed.

Lemma div_self_cases (a : float) :
  (a / a)%float = 1%float \/ (a / a)%float = nan.
Proof.
  destruct (Prim2SF a) as [s|s| |s m e] eqn:E.
  - right. apply Prim2SF_inj. rewrite FloatAxioms.div_spec, E. reflexivity.
  - right. apply Prim2SF_inj. rewrite FloatAxioms.div_spec, E. reflexivity.
  - right. apply Prim2SF_inj. rewrite FloatAxioms.div_spec, E. reflexivity.
  - left. apply Prim2SF_inj. rewrite FloatAxioms.div_spec, E.
    apply SFdiv_self.
Qed.

Lemma is_nan_eq (a : float) : PrimFloat.is_nan a = true -> a = nan.
Proof.
  intros H. apply Prim2SF_inj. apply is_nan_spec in H. rewrite H.
  reflexivity.
Qed.

Lemma div_nan_r (a : float) : (a / nan)%float = nan.
Proof.
  apply Prim2SF_inj. rewrite FloatAxioms.div_spec.
  change (Prim2SF nan) with S754_nan. destruct (Prim2SF a); reflexivity.
Qed.

Lemma div_nan_l (a : float) : (nan / a)%float = nan.
Proof.
  apply Prim2SF_inj. rewrite FloatAxioms.div_spec.
  change (Prim2SF nan) with S754_nan. reflexivity.
Qed.

(** The relative change between a total and itself is never above the
    target: it is 0, or NaN when the total is zero, infinite or NaN. *)
Lemma relChange_same (light : float) :
  Dbl.gtb (relChange light light) CONVERGENCE_TARGET = false.
Proof.
  unfold relChange. destruct (div_self_cases light) as [-> | ->];
    reflexivity.
Qed.

Lemma relChange_nan (light newLight : float) :
  PrimFloat.is_nan light = true \/ PrimFloat.is_nan newLight = true ->
  Dbl.gtb (relChange light newLight) CONVERGENCE_TARGET = false.
Proof.
  unfold relChange.
  intros [H|H]; apply is_nan_eq in H; subst.
  - rewrite div_nan_l. reflexivity.
  - rewrite div_nan_r. reflexivity.
Qed.

(** ** The solver and the transfer matrix *)

Lemma sumOthers_ext (qs : list Quad) (T T' : list float) (i : nat) :
  (forall j, j < length qs -> i <> j ->
     entry T (length qs) i j = entry T' (length qs) i j) ->
  sumOthers qs T i = sumOthers qs T' i.
Proof.
  intros HT. unfold sumOthers. f_equal.
  apply list_fmap_ext. intros k j Hk.
  apply list_elem_of_lookup_2, list_elem_of_filter in Hk.
  destruct Hk as [Hne Hin]. apply elem_of_seq in Hin.
  rewrite HT by (lia || congruence). reflexivity.
Qed.

(** X1: the solver reads the transfer matrix only at the entries [T[i][j]]
    with [i <> j] of the rows of non-emitters: two matrices that agree
    there give the same scene, whatever their diagonals, their rows for
    emitters and their entries past [n * n] hold. *)
Theorem iterateLighting_reads_off_diagonal (qs : list Quad)
    (T T' : list float) :
  (forall i j, i < length qs -> j < length qs -> i <> j ->
     isEmitter (qs !!! i) = false ->
     entry T (length qs) i j = entry T' (length qs) i j) ->
  iterateLighting qs T = iterateLighting qs T'.
Proof.
  intros HT. apply list_eq. intros i. rewrite !iterateLighting_at.
  destruct (qs !! i) as [q|] eqn:Hq; [|reflexivity].
  cbn [fmap option_fmap option_map]. f_equal. f_equal. f_equal.
  destruct (isEmitter q) eqn:Hem; [reflexivity|].
  apply sumOthers_ext. intros j Hj Hne.
  apply HT; try assumption.
  - apply lookup_lt_Some in Hq. exact Hq.
  - rewrite (list_lookup_total_correct qs i q Hq). exact Hem.
Qed.

Lemma iterateLighting_reads_off_diagonal_witness :
  let qs := [Scene.lamp; Scene.front black] in
  iterateLighting qs [nan; 7; 0x1p-2; nan; 5]%float =
  iterateLighting qs [0; 0; 0x1p-2; 0]%float.
Proof.
  intros qs.
  apply (iterateLighting_reads_off_diagonal qs).
  intros [|[|i]] [|[|j]] Hi Hj Hne Hem;
    cbn in Hi, Hj; try lia; try congruence; try discriminate Hem.
  reflexivity.
Defined.

(** X2: after every solver step an emitter shows exactly its own
    [materialColour]: the product of the white incoming light (1,1,1) and
    the material colour is the material colour itself in every channel,
    infinities and NaN included. *)
Theorem emitter_shows_material_colour (qs : list Quad)
    (transfers : list float) (k i : nat) :
  i < length qs ->
  isEmitter (qs !!! i) = true ->
  screenColour (iterateTimes (S k) qs transfers !!! i) =
  materialColour (qs !!! i).
Proof.
  intros Hi Hem. cbn [iterateTimes].
  destruct (iterateTimes_attributes k qs transfers i Hi)
    as (Hem' & Hmat' & _).
  rewrite iterateLighting_lookup by (rewrite iterateTimes_length; exact Hi).
  rewrite Hem', Hem, Hmat'. cbn [setScreenColour screenColour].
  apply cmul_white.
Qed.

Lemma emitter_shows_material_colour_witness :
  screenColour
    (iterateTimes 2 [Scene.front black; Scene.lamp]
       [0; 0x1p-2; 0x1p-2; 0]%float !!! 1) = mkColour 2 2 2.
Proof.
  exact (emitter_shows_material_colour [Scene.front black; Scene.lamp]
           [0; 0x1p-2; 0x1p-2; 0]%float 1 1 ltac:(cbn; lia) eq_refl).
Defined.

(** A scene of emitters is a fixed point of the solver after one step. *)
Lemma iterateLighting_emitters (qs : list Quad) (transfers : list float) :
  Forall (fun q => isEmitter q = true) qs ->
  iterateLighting qs transfers =
  (fun q => setScreenColour q (materialColour q)) <$> qs.
Proof.
  intros Hall. apply list_eq. intros i.
  rewrite iterateLighting_at, list_lookup_fmap.
  destruct (qs !! i) as [q|] eqn:Hq; [|reflexivity].
  cbn [fmap option_fmap option_map].
  rewrite Forall_lookup in Hall. rewrite (Hall i q Hq), cmul_white.
  reflexivity.
Qed.

Lemma iterateLighting_emitters_twice (qs : list Quad)
    (transfers : list float) :
  Forall (fun q => isEmitter q = true) qs ->
  iterateLighting (iterateLighting qs transfers) transfers =
  iterateLighting qs transfers.
Proof.
  intros Hall.
  rewrite (iterateLighting_emitters qs transfers Hall).
  rewrite iterateLighting_emitters.
  - rewrite <- list_fmap_compose. apply list_fmap_ext. intros _ q _.
    reflexivity.
  - rewrite Forall_fmap. eapply Forall_impl; [exact Hall|].
    intros q Hq. exact Hq.
Qed.

(** ** When the convergence loop stops *)

(** A test that fails at [k] fails first at some [k'] between 1 and [k]. *)
Lemma first_failure (P : nat -> bool) (k : nat) :
  (exists k', 1 <= k' <= k /\ P k' = false /\
              forall m, 1 <= m < k' -> P m = true) \/
  (forall m, 1 <= m <= k -> P m = true).
Proof.
  induction k as [|k [(k' & Hk' & Hf & Hmin) | Hall]].
  - right. intros m Hm. lia.
  - left. exists k'. repeat split; try assumption; lia.
  - destruct (P (S k)) eqn:HP.
    + right. intros m Hm.
      destruct (decide (m = S k)) as [->|Hne]; [exact HP|].
      apply Hall. lia.
    + left. exists (S k). repeat split; try assumption; try lia.
      intros m Hm. apply Hall. lia.
Qed.

Section LoopStops.
Context {G : Geom}.
Variables (transfers : list float) (vs : list Vertex).

(** Once the relative change of some iteration [k] is not above the
    target, a loop with fuel for [k] iterations returns, at [k] or
    before. *)
Lemma converge_stops_by (qs : list Quad) (fuel k : nat) :
  1 <= k <= fuel ->
  Dbl.gtb (relChangeAt k transfers vs qs) CONVERGENCE_TARGET = false ->
  exists k', 1 <= k' <= k /\
    converge fuel transfers vs qs =
    Some (k', iterateTimes k' qs transfers,
          lightAfter k' transfers vs qs).
Proof.
  intros Hk Hstop.
  destruct (first_failure
              (fun m => Dbl.gtb (relChangeAt m transfers vs qs)
                                CONVERGENCE_TARGET) k)
    as [(k' & Hk' & Hf & Hmin) | Hall].
  - exists k'. split; [exact Hk'|].
    unfold converge. apply convergeLoop_spec.
    repeat split; try assumption; try lia.
  - rewrite Hall in Hstop by lia. discriminate.
Qed.

End LoopStops.

(** X3: the convergence loop returns as soon as the total light is NaN or
    is the total of the iteration before (the initial 0.0 for the first
    iteration): with fuel for [k] iterations it stops at iteration [k] at
    the latest, leaving the scene and the total of the iteration at which
    it stopped.  In particular a total that has become infinite or NaN
    ends the loop. *)
Theorem loop_stops_when_light_repeats_or_is_nan (G : Geom)
    (transfers : list float) (vs : list Vertex) (qs : list Quad)
    (fuel k : nat) :
  1 <= k <= fuel ->
  lightAfter k transfers vs qs = lightAfter (k - 1) transfers vs qs \/
  PrimFloat.is_nan (lightAfter k transfers vs qs) = true ->
  exists k', 1 <= k' <= k /\
    converge fuel transfers vs qs =
    Some (k', iterateTimes k' qs transfers,
          lightAfter k' transfers vs qs).
Proof.
  intros Hk Hlight. apply converge_stops_by; [exact Hk|].
  unfold relChangeAt, relChangeFrom.
  fold (lightAfter (k - 1) transfers vs qs).
  fold (lightAfter k transfers vs qs).
  destruct Hlight as [Heq|Hnan].
  - rewrite Heq. apply relChange_same.
  - apply relChange_nan. right. exact Hnan.
Qed.

Lemma loop_stops_when_light_repeats_or_is_nan_witness :
  exists k', 1 <= k' <= 2 /\
    converge (G := refGeom) 5 [0; 0x1p-2; 0x1p-2; 0]%float Scene.vertices
      [Scene.lamp; Scene.lamp] =
    Some (k',
          iterateTimes k' [Scene.lamp; Scene.lamp]
            [0; 0x1p-2; 0x1p-2; 0]%float,
          lightAfter (G := refGeom) k' [0; 0x1p-2; 0x1p-2; 0]%float
            Scene.vertices [Scene.lamp; Scene.lamp]).
Proof.
  apply (loop_stops_when_light_repeats_or_is_nan refGeom
           [0; 0x1p-2; 0x1p-2; 0]%float Scene.vertices
           [Scene.lamp; Scene.lamp] 5 2).
  - lia.
  - left. vm_compute. reflexivity.
Defined.

(** X4: for a scene that holds only emitters the convergence loop always
    returns, after one or two iterations, whatever the transfer matrix
    is.  The scene it leaves has, for every quad, the material colour as
    the colour on screen and everything else as it was (the first step
    writes the material colour and the second changes nothing, so the
    total light repeats); the total returned is the total light of that
    scene. *)
Theorem emitters_only_scene_converges (G : Geom)
    (transfers : list float) (vs : list Vertex) (qs : list Quad)
    (fuel : nat) :
  Forall (fun q => isEmitter q = true) qs ->
  2 <= fuel ->
  exists k qs',
    1 <= k <= 2 /\
    converge fuel transfers vs qs = Some (k, qs', calcLight qs' vs) /\
    qs' = (fun q => mkQuad (indices q) (materialColour q) (materialColour q)
                      (isEmitter q) (isSpecular q)) <$> qs /\
    (forall i, i < length qs ->
       screenColour (qs' !!! i) = materialColour (qs !!! i)).
Proof.
  intros Hall Hfuel.
  assert (H1 : iterateTimes 1 qs transfers =
               (fun q => setScreenColour q (materialColour q)) <$> qs)
    by (apply iterateLighting_emitters; exact Hall).
  assert (H2 : iterateTimes 2 qs transfers = iterateTimes 1 qs transfers)
    by (apply iterateLighting_emitters_twice; exact Hall).
  destruct (converge_stops_by transfers vs qs fuel 2 ltac:(lia))
    as (k & Hk & Hres).
  { unfold relChangeAt, relChangeFrom, lightFrom.
    change (2 - 1) with 1. cbv iota beta. rewrite H2.
    apply relChange_same. }
  assert (Hit : iterateTimes k qs transfers =
                (fun q => setScreenColour q (materialColour q)) <$> qs).
  { destruct (decide (k = 1)) as [->|Hne]; [exact H1|].
    replace k with 2 by lia. rewrite H2. exact H1. }
  exists k, (iterateTimes k qs transfers).
  split; [exact Hk|]. split.
  - rewrite Hres. unfold lightAfter, lightFrom.
    destruct k as [|k']; [lia | reflexivity].
  - rewrite Hit. split; [reflexivity|].
    intros i Hi. rewrite !list_lookup_total_alt, list_lookup_fmap.
    destruct (lookup_lt_is_Some_2 qs i Hi) as [q ->]. reflexivity.
Qed.

(** Two lamps that are still black on screen, and a matrix of NaN: the
    loop returns, and both lamps show their material colour (2,2,2). *)
Lemma emitters_only_scene_converges_witness :
  exists k qs',
    1 <= k <= 2 /\
    converge (G := refGeom) 2 [nan; nan; nan; nan]%float Scene.vertices
      [Scene.unlitLamp; Scene.unlitLamp] =
      Some (k, qs', calcLight (G := refGeom) qs' Scene.vertices) /\
    qs' = [Scene.lamp; Scene.lamp] /\
    (forall i, i < 2 -> screenColour (qs' !!! i) = mkColour 2 2 2).
Proof.
  destruct (emitters_only_scene_converges refGeom [nan; nan; nan; nan]%float
              Scene.vertices [Scene.unlitLamp; Scene.unlitLamp] 2
              ltac:(repeat constructor) ltac:(lia))
    as (k & qs' & Hk & Hres & Hqs' & Hcol).
  exists k, qs'. split; [exact Hk|]. split; [exact Hres|].
  split; [exact Hqs'|].
  intros [|[|i]] Hi; [exact (Hcol 0 ltac:(cbn; lia)) |
                      exact (Hcol 1 ltac:(cbn; lia)) | lia].
Defined.

(** ** Scene initialisation *)

(** A coordinate within half a unit of the origin is not beyond a wall:
    [fabs(a) < 0.5] excludes both [a < -0.999] and [a > 0.999]. *)
Lemma fabs_below_half (a : float) :
  PrimFloat.ltb (Dbl.fabs a) 0x1p-1 = true ->
  PrimFloat.ltb a (-0x1.ff7ced916872bp-1) = false /\
  Dbl.gtb a 0x1.ff7ced916872bp-1 = false.
Proof.
  unfold Dbl.fabs, Dbl.gtb.
  rewrite !FloatAxioms.ltb_spec, FloatAxioms.abs_spec.
  change (Prim2SF 0x1p-1) with (S754_finite false 4503599627370496 (-53)).
  change (Prim2SF (-0x1.ff7ced916872bp-1))
    with (S754_finite true 8998192055486251 (-53)).
  change (Prim2SF 0x1.ff7ced916872bp-1)
    with (S754_finite false 8998192055486251 (-53)).
  destruct (Prim2SF a) as [s|s| |s m e]; cbn [SFabs].
  - intros _. destruct s; split; reflexivity.
  - intros H. discriminate H.
  - intros H. discriminate H.
  - intros H. apply SFltb_pos_iff in H.
    destruct s; split; try reflexivity.
    + destruct (SFltb (S754_finite true m e)
                  (S754_finite true 8998192055486251 (-53))) eqn:E;
        [|reflexivity].
      apply SFltb_neg_iff in E. lia.
    + destruct (SFltb (S754_finite false 8998192055486251 (-53))
                  (S754_finite false m e)) eqn:E; [|reflexivity].
      apply SFltb_pos_iff in E. lia.
Qed.

Lemma emitterTest_not_at_wall (c : Vertex) :
  emitterTest c = true ->
  PrimFloat.ltb (x c) (-0x1.ff7ced916872bp-1) = false /\
  Dbl.gtb (x c) 0x1.ff7ced916872bp-1 = false.
Proof.
  unfold emitterTest. intros H. apply fabs_below_half.
  destruct (PrimFloat.ltb (Dbl.fabs (x c)) 0x1p-1);
    [reflexivity | discriminate H].
Qed.

Section InitLightingFacts.
Context {G : Geom}.

Lemma initLighting_lookup (qs : list Quad) (vs : list Vertex) (i : nat) :
  i < length qs ->
  initLighting qs vs !!! i = initQuad emitterTest vs (qs !!! i).
Proof.
  intros Hi. unfold initLighting, initLightingWith.
  rewrite !list_lookup_total_alt, list_lookup_fmap.
  destruct (lookup_lt_is_Some_2 qs i Hi) as [q ->]. reflexivity.
Qed.

Lemma initLighting_length (qs : list Quad) (vs : list Vertex) :
  length (initLighting qs vs) = length qs.
Proof. unfold initLighting, initLightingWith. apply length_fmap. Qed.

(** What the loop body makes of one quad. *)
Lemma initQuad_cases (vs : list Vertex) (q : Quad) :
  let q' := initQuad emitterTest vs q in
  indices q' = indices q /\ isSpecular q' = isSpecular q /\
  isEmitter q' = (emitterTest (paraCentre q vs) || isEmitter q)%bool /\
  (emitterTest (paraCentre q vs) = true ->
   materialColour q' = mkColour 2 2 2 /\
   screenColour q' = mkColour 2 2 2) /\
  (emitterTest (paraCentre q vs) = false ->
   screenColour q' = screenColour q).
Proof.
  unfold initQuad. cbv zeta.
  destruct (emitterTest (paraCentre q vs)) eqn:Htest.
  - destruct (emitterTest_not_at_wall _ Htest) as [-> ->].
    repeat split; intros; try reflexivity; discriminate.
  - destruct (PrimFloat.ltb (x (paraCentre q vs))
                (-0x1.ff7ced916872bp-1));
      [|destruct (Dbl.gtb (x (paraCentre q vs)) 0x1.ff7ced916872bp-1)];
      repeat split; intros; try reflexivity; discriminate.
Qed.

End InitLightingFacts.

(** X5: [initLighting] keeps the number of quads and, in every quad, the
    vertex indices and the [isSpecular] flag; a quad is an emitter
    afterwards when its centre passes the placement test or it was one
    before.  A quad whose centre passes the test becomes a lamp with
    [materialColour] and [screenColour] exactly (2,2,2): the wall tints
    never apply to it, since [fabs(c.x()) < 0.5] excludes [c.x() < -0.999]
    and [c.x() > 0.999].  Every other quad keeps its [screenColour]. *)
Theorem initLighting_places_lamps (G : Geom) (qs : list Quad)
    (vs : list Vertex) (i : nat) :
  i < length qs ->
  let q := qs !!! i in
  let q' := initLighting qs vs !!! i in
  length (initLighting qs vs) = length qs /\
  indices q' = indices q /\ isSpecular q' = isSpecular q /\
  isEmitter q' = (emitterTest (paraCentre q vs) || isEmitter q)%bool /\
  (emitterTest (paraCentre q vs) = true ->
   materialColour q' = mkColour 2 2 2 /\
   screenColour q' = mkColour 2 2 2) /\
  (emitterTest (paraCentre q vs) = false ->
   screenColour q' = screenColour q).
Proof.
  intros Hi q q'. split; [apply initLighting_length|].
  unfold q'. rewrite initLighting_lookup by exact Hi.
  apply initQuad_cases.
Qed.

Lemma initLighting_places_lamps_witness :
  materialColour (initLighting (G := refGeom) Room.faces Room.vertices !!! 0)
    = mkColour 2 2 2 /\
  screenColour (initLighting (G := refGeom) Room.faces Room.vertices !!! 0)
    = mkColour 2 2 2.
Proof.
  exact (proj1 (proj2 (proj2 (proj2 (proj2
           (initLighting_places_lamps refGeom Room.faces Room.vertices 0
              ltac:(cbn; lia)))))) eq_refl).
Defined.

(** ** The analytic calculator, row by row *)

Lemma rows_concat {A : Type} (F : nat -> list A) (m : nat) :
  for_loop m (fun i w => w ++ F i) [] = concat (F <$> seq 0 m).
Proof.
  induction m as [|m IH]; [reflexivity|].
  rewrite for_loop_S, IH, seq_S, fmap_app, concat_app. cbn.
  rewrite app_nil_r. reflexivity.
Qed.

Lemma pushed_lookup {A : Type} `{!Inhabited A} (f : nat -> A) (n i : nat) :
  i < n -> for_loop n (fun j v => v ++ [f j]) [] !!! i = f i.
Proof.
  intros Hi. rewrite for_loop_push_back. cbn [app].
  rewrite list_lookup_total_alt, list_lookup_fmap, lookup_seq_lt by exact Hi.
  reflexivity.
Qed.

Lemma pushed_length {A : Type} (f : nat -> A) (n : nat) :
  length (for_loop n (fun j v => v ++ [f j]) []) = n.
Proof.
  rewrite for_loop_push_back. cbn [app].
  rewrite length_fmap, length_seq. reflexivity.
Qed.

(** [d <= 0] makes [fmax(0, d)] zero. *)
Lemma fmax_zero_of_not_positive (d : float) :
  PrimFloat.leb d 0 = true -> Dbl.fmax 0 d = 0%float.
Proof.
  intros Hle. unfold Dbl.fmax.
  change (PrimFloat.is_nan 0) with false. cbv iota.
  rewrite FloatAxioms.leb_spec in Hle.
  change (Prim2SF 0) with (S754_zero false) in Hle.
  destruct (PrimFloat.is_nan d) eqn:Hnan.
  - apply is_nan_spec in Hnan. rewrite Hnan in Hle. discriminate Hle.
  - rewrite FloatAxioms.ltb_spec.
    change (Prim2SF 0) with (S754_zero false).
    destruct (Prim2SF d) as [s|s| |s m e];
      try destruct s; try discriminate Hle; reflexivity.
Qed.

(** A finite double that is not negative, times zero, is zero. *)
Lemma finite_mul_zero (p : float) :
  PrimFloat.is_finite p = true -> sign_clear p -> (p * 0)%float = 0%float.
Proof.
  intros Hfin Hsign. apply Prim2SF_inj.
  rewrite FloatAxioms.mul_spec.
  unfold PrimFloat.is_finite, PrimFloat.is_infinity in Hfin.
  apply negb_true_iff, orb_false_iff in Hfin as [Hnan Hinf].
  rewrite FloatAxioms.eqb_spec, FloatAxioms.abs_spec in Hinf.
  unfold sign_clear in Hsign.
  change (Prim2SF 0) with (S754_zero false).
  destruct (Prim2SF p) as [s|s| |s m e] eqn:E.
  - destruct s; [discriminate Hsign | reflexivity].
  - destruct s; discriminate Hinf.
  - apply is_nan_spec in E. congruence.
  - destruct s; [discriminate Hsign | reflexivity].
Qed.

Section AnalyticRowFacts.
Context {G : Geom}.

Lemma calcSingleQuadSubtended_sign (this : AnalyticTransferCalculator)
    (cam : Camera) (quad : Quad) :
  sign_clear (calcSingleQuadSubtended this cam quad).
Proof.
  unfold calcSingleQuadSubtended. cbv zeta.
  apply sign_clear_div; [|exact sign_clear_M_PI].
  apply sign_clear_mul; [|apply sign_clear_fmax_zero].
  apply sign_clear_mul; [reflexivity|].
  apply sign_clear_div; [exact sign_clear_one | apply sign_clear_square].
Qed.

Lemma r2_sign (this : AnalyticTransferCalculator) (cam : Camera)
    (quad : Quad) :
  sign_clear (Analytic.r2 this cam quad).
Proof.
  unfold Analytic.r2. cbv zeta.
  apply sign_clear_div; [exact sign_clear_one | apply sign_clear_square].
Qed.

End AnalyticRowFacts.

(** X6: [calcSubtended] of the analytic calculator returns one weight per
    face, the weight of face [i] being what [calcSingleQuadSubtended]
    computes for it, and no weight is ever negative (each is a number
    >= 0, +infinity or NaN). *)
Theorem analytic_calcSubtended_weights (G : Geom)
    (this : AnalyticTransferCalculator) (cam : Camera) (i : nat) :
  i < length (m_faces this) ->
  length (Analytic.calcSubtended this cam) = length (m_faces this) /\
  Analytic.calcSubtended this cam !!! i =
    calcSingleQuadSubtended this cam (m_faces this !!! i) /\
  PrimFloat.ltb (Analytic.calcSubtended this cam !!! i) 0 = false.
Proof.
  intros Hi. unfold Analytic.calcSubtended.
  rewrite (pushed_length
             (fun i => calcSingleQuadSubtended this cam (m_faces this !!! i))).
  rewrite (pushed_lookup
             (fun i => calcSingleQuadSubtended this cam (m_faces this !!! i)))
    by exact Hi.
  repeat split.
  apply sign_clear_not_negative, calcSingleQuadSubtended_sign.
Qed.

Lemma analytic_calcSubtended_weights_witness :
  let this := mkAnalytic Scene.vertices [Scene.front black; Scene.lamp] in
  let cam := mkCamera Scene.EYE_POS (mkVertex 0 0 0) (mkVertex 0 1 0) in
  Analytic.calcSubtended (G := refGeom) this cam !!! 0 =
    calcSingleQuadSubtended (G := refGeom) this cam (Scene.front black).
Proof.
  intros this cam.
  exact (proj1 (proj2 (analytic_calcSubtended_weights refGeom this cam 0
                         ltac:(cbn; lia)))).
Defined.

(** X7: the transfer matrix of the analytic calculator is the
    concatenation, target by target, of the rows that [calcLight] returns
    for the camera placed on the target; every such row has one entry per
    face. *)
Theorem analytic_matrix_is_rows_of_calcLight (G : Geom)
    (this : AnalyticTransferCalculator) :
  calcAllLights this =
    concat ((fun i => Analytic.calcLight this (cameraOn this i))
              <$> seq 0 (length (m_faces this))) /\
  forall cam, length (Analytic.calcLight this cam) = length (m_faces this).
Proof.
  split.
  - rewrite <- (rows_concat
                  (fun i => Analytic.calcLight this (cameraOn this i))).
    rewrite calcAllLights_rows.
    unfold for_loop at 1 2. apply foldl_ext_fun. intros w i. f_equal.
    unfold Analytic.calcLight.
    rewrite (for_loop_push_back
               (fun j => calcSingleQuadLight this (cameraOn this i)
                           (m_faces this !!! j))).
    reflexivity.
  - intros cam. unfold Analytic.calcLight.
    apply (pushed_length
             (fun i => calcSingleQuadLight this cam (m_faces this !!! i))).
Qed.

(** X8: a source that faces away from the viewpoint
    ([dot(norm, dir) <= 0]) contributes nothing: [area] is zero, and the
    coefficients of [calcSingleQuadLight] and [calcSingleQuadSubtended]
    are exactly 0.0 whenever the product of their other factors is a
    finite number. *)
Theorem back_facing_source_contributes_nothing (G : Geom)
    (this : AnalyticTransferCalculator) (cam : Camera) (quad : Quad) :
  PrimFloat.leb
    (dot (paraCross quad (m_vertices this)) (Analytic.dir this cam quad))
    0 = true ->
  (PrimFloat.is_finite
     (Analytic.cosCamAngle this cam quad * Analytic.r2 this cam quad)
     = true ->
   calcSingleQuadLight this cam quad = 0%float) /\
  (PrimFloat.is_finite (0x1.8p+0 * Analytic.r2 this cam quad) = true ->
   calcSingleQuadSubtended this cam quad = 0%float).
Proof.
  intros Hback. apply fmax_zero_of_not_positive in Hback.
  unfold Analytic.dir in Hback.
  split; intros Hfin.
  - unfold calcSingleQuadLight. cbv zeta. rewrite Hback.
    fold (Analytic.r2 this cam quad).
    fold (Analytic.dir this cam quad).
    fold (Analytic.cosCamAngle this cam quad).
    rewrite finite_mul_zero; [reflexivity | exact Hfin |].
    apply sign_clear_mul; [apply sign_clear_fmax_zero | apply r2_sign].
  - unfold calcSingleQuadSubtended. cbv zeta. rewrite Hback.
    fold (Analytic.r2 this cam quad).
    rewrite finite_mul_zero; [reflexivity | exact Hfin |].
    apply sign_clear_mul; [reflexivity | apply r2_sign].
Qed.

Lemma back_facing_source_contributes_nothing_witness :
  let this := mkAnalytic Scene.vertices [Scene.lamp; Scene.front black] in
  calcSingleQuadLight (G := refGeom) this (cameraOn this 0)
    (Scene.front black) = 0%float.
Proof.
  intros this.
  exact (proj1 (back_facing_source_contributes_nothing refGeom this
                  (cameraOn this 0) (Scene.front black) eq_refl) eq_refl).
Defined.

(** ** The rendering calculator: decoding pixels *)

Lemma decodeIndex_formula (red green blue : Z) :
  Render.decodeIndex red green blue =
  (red / 4 + 16 * green + 1024 * blue)%Z.
Proof.
  unfold Render.decodeIndex.
  rewrite Z.shiftr_div_pow2, !Z.shiftl_mul_pow2 by lia.
  change (2 ^ 2)%Z with 4%Z. change (2 ^ 6)%Z with 64%Z.
  change (2 ^ 12)%Z with 4096%Z.
  replace (red + green * 64 + blue * 4096)%Z
    with (red + (16 * green + 1024 * blue) * 4)%Z by lia.
  rewrite Z.div_add by lia. lia.
Qed.

(** X9: the decoding of a pixel gives every channel six significant
    bits: for channel values [4 * a + l], [4 * b] and [4 * c] with
    [a], [b], [c] below 64 (and any two low bits [l] of red) the index is
    [a + 64 * b + 4096 * c], a number below 2^18 that determines [a], [b]
    and [c]; in general the index is [red / 4 + 16 * green + 1024 * blue],
    so low bits set in green or blue spill into the bits of the channel
    below. *)
Theorem pixel_decoding_six_bits_per_channel (a b c l : Z) :
  (0 <= a < 64)%Z -> (0 <= b < 64)%Z -> (0 <= c < 64)%Z ->
  (0 <= l < 4)%Z ->
  let index := Render.decodeIndex (4 * a + l) (4 * b) (4 * c) in
  index = (a + 64 * b + 4096 * c)%Z /\
  (0 <= index < 2 ^ 18)%Z /\
  (index mod 64 = a /\ (index / 64) mod 64 = b /\ index / 4096 = c)%Z /\
  (forall red green blue,
     Render.decodeIndex red green blue =
     (red / 4 + 16 * green + 1024 * blue)%Z).
Proof.
  intros Ha Hb Hc Hl index.
  assert (Hindex : index = (a + 64 * b + 4096 * c)%Z).
  { unfold index. rewrite decodeIndex_formula.
    replace (4 * a + l)%Z with (l + a * 4)%Z by lia.
    rewrite Z.div_add, Z.div_small by lia. lia. }
  split; [exact Hindex|]. rewrite Hindex.
  split; [lia|]. split; [|exact decodeIndex_formula].
  repeat split.
  - replace (a + 64 * b + 4096 * c)%Z with (a + (b + 64 * c) * 64)%Z by lia.
    rewrite Z.mod_add, Z.mod_small by lia. reflexivity.
  - replace (a + 64 * b + 4096 * c)%Z with (a + (b + 64 * c) * 64)%Z by lia.
    rewrite Z.div_add, Z.div_small by lia.
    replace (0 + (b + 64 * c))%Z with (b + c * 64)%Z by lia.
    rewrite Z.mod_add, Z.mod_small by lia. reflexivity.
  - replace (a + 64 * b + 4096 * c)%Z with (a + 64 * b + c * 4096)%Z by lia.
    rewrite Z.div_add, Z.div_small by lia. reflexivity.
Qed.

Lemma pixel_decoding_six_bits_per_channel_witness :
  Render.decodeIndex 7 8 4 = 4225%Z.
Proof.
  exact (proj1 (pixel_decoding_six_bits_per_channel 1 2 1 3
                  ltac:(lia) ltac:(lia) ltac:(lia) ltac:(lia))).
Defined.

(** ** The rendering calculator: summing weights *)

Section SumPixels.
Variables (pixels : list Byte.byte) (weights : list float).

(** The loop of [sumWeights], cut off after [n] pixels. *)
Local Abbreviation partial n sums :=
  (for_loop n (fun k sums =>
     let i := Render.NUM_CHANS * k in
     let index := Render.pixelIndex pixels i in
     if (0 <? index)%Z
     then <[Z.to_nat (index - 1) :=
              PrimFloat.add (sums !!! Z.to_nat (index - 1))
                            (weights !!! (i / 4))]> sums
     else sums) sums).

Lemma partial_length (n : nat) (sums : list float) :
  length (partial n sums) = length sums.
Proof.
  induction n as [|n IH]; [reflexivity|].
  rewrite for_loop_S. cbv zeta.
  destruct (0 <? _)%Z; [rewrite length_insert|]; exact IH.
Qed.

Lemma partial_frame (n : nat) (sums : list float) (j : nat) :
  (forall k, k < n ->
     Render.pixelIndex pixels (Render.NUM_CHANS * k) <> (Z.of_nat j + 1)%Z) ->
  partial n sums !! j = sums !! j.
Proof.
  induction n as [|n IH]; intros Hj; [reflexivity|].
  rewrite for_loop_S. cbv zeta.
  destruct (0 <? _)%Z eqn:Hpos.
  - apply Z.ltb_lt in Hpos. rewrite list_lookup_insert_ne.
    + apply IH. intros k Hk. apply Hj. lia.
    + specialize (Hj n ltac:(lia)). lia.
  - apply IH. intros k Hk. apply Hj. lia.
Qed.

Lemma partial_sign (n : nat) (sums : list float) :
  Forall (fun w => PrimFloat.ltb w 0 = false) weights ->
  Forall sign_clear sums ->
  Forall sign_clear (partial n sums).
Proof.
  intros Hw Hs. induction n as [|n IH]; [exact Hs|].
  rewrite for_loop_S. cbv zeta.
  destruct (0 <? _)%Z; [|exact IH].
  apply Forall_insert; [exact IH|].
  apply sign_clear_add.
  - set (w := for_loop n _ sums) in *.
    set (j := Z.to_nat _).
    destruct (decide (j < length w)) as [Hlt|Hge].
    + apply (Forall_lookup_total_1 _ w j IH Hlt).
    + rewrite list_lookup_total_alt, lookup_ge_None_2 by lia. reflexivity.
  - set (k := _ / 4).
    destruct (decide (k < length weights)) as [Hlt|Hge].
    + apply (Forall_lookup_total_1 _ weights k Hw Hlt).
    + rewrite list_lookup_total_alt, lookup_ge_None_2 by lia. reflexivity.
Qed.

(** The pixels among the first [n] that show face [j]. *)
Local Abbreviation showing n j :=
  (filter (fun k => Render.pixelIndex pixels (Render.NUM_CHANS * k) =
                    (Z.of_nat j + 1)%Z) (seq 0 n)).

(** The sum of face [j] grows by the weights of the pixels that show
    it, one after the other. *)
Lemma partial_lookup (n : nat) (sums : list float) (j : nat) :
  partial n sums !! j =
  (fun s => foldl PrimFloat.add s ((fun k => weights !!! k) <$> showing n j))
    <$> sums !! j.
Proof.
  induction n as [|n IH].
  - rewrite for_loop_0. destruct (sums !! j); reflexivity.
  - rewrite for_loop_S. cbv zeta.
    rewrite seq_S, filter_app, fmap_app. cbn [seq Nat.add].
    rewrite filter_cons, filter_nil.
    set (w := for_loop n _ sums) in *.
    assert (Hlen : length w = length sums) by apply partial_length.
    replace (Render.NUM_CHANS * n / 4) with n
      by (unfold Render.NUM_CHANS; rewrite Nat.mul_comm, Nat.div_mul; lia).
    destruct (0 <? Render.pixelIndex pixels (Render.NUM_CHANS * n))%Z
      eqn:Hpos.
    + apply Z.ltb_lt in Hpos.
      destruct (decide (Render.pixelIndex pixels (Render.NUM_CHANS * n) =
                        (Z.of_nat j + 1)%Z)) as [Heq|Hne].
      * replace (Z.to_nat
                   (Render.pixelIndex pixels (Render.NUM_CHANS * n) - 1))
          with j by lia.
        destruct (sums !! j) as [s|] eqn:Hs.
        -- rewrite list_lookup_insert_eq
             by (rewrite Hlen; apply lookup_lt_Some in Hs; exact Hs).
           rewrite list_lookup_total_alt, IH.
           cbn [fmap option_fmap option_map default].
           rewrite foldl_app. reflexivity.
        -- rewrite list_insert_ge
             by (rewrite Hlen; apply lookup_ge_None in Hs; exact Hs).
           rewrite IH. reflexivity.
      * rewrite list_lookup_insert_ne by lia.
        rewrite IH, app_nil_r. reflexivity.
    + apply Z.ltb_ge in Hpos.
      rewrite decide_False by lia.
      rewrite IH, app_nil_r. reflexivity.
Qed.

End SumPixels.

(** The loop runs for the pixels that start inside the buffer. *)
Lemma pixel_rounds (len k : nat) :
  k < (len + (Render.NUM_CHANS - 1)) / Render.NUM_CHANS <->
  Render.NUM_CHANS * k < len.
Proof.
  unfold Render.NUM_CHANS. change (4 - 1) with 3.
  pose proof (Nat.div_mod_eq (len + 3) 4) as Hd.
  pose proof (Nat.mod_upper_bound (len + 3) 4 ltac:(lia)) as Hm.
  lia.
Qed.

(** X10: the loop of [sumWeights] keeps one sum per face and adds to the
    sum of face [j] the weights of exactly the pixels whose colour decodes
    to the index [j + 1], pixel [k] contributing [weights[k]], in the
    order of the buffer; the alpha channel is not looked at.  A buffer
    whose pixels all decode to 0 (the background) changes no sum. *)
Theorem sumPixels_adds_the_weights_of_seen_faces (pixels : list Byte.byte)
    (weights sums : list float) :
  length (Render.sumPixels pixels weights sums) = length sums /\
  (forall j,
     Render.sumPixels pixels weights sums !! j =
     (fun s =>
        foldl PrimFloat.add s
          ((fun k => weights !!! k)
             <$> filter
                   (fun k =>
                      Render.pixelIndex pixels (Render.NUM_CHANS * k) =
                      (Z.of_nat j + 1)%Z)
                   (seq 0 ((length pixels + (Render.NUM_CHANS - 1)) /
                           Render.NUM_CHANS))))
       <$> sums !! j) /\
  ((forall k, Render.NUM_CHANS * k < length pixels ->
      Render.pixelIndex pixels (Render.NUM_CHANS * k) = 0%Z) ->
   Render.sumPixels pixels weights sums = sums).
Proof.
  unfold Render.sumPixels. split; [apply partial_length|].
  split.
  - intros j. apply partial_lookup.
  - intros Hbg. apply list_eq. intros j. apply partial_frame.
    intros k Hk. rewrite Hbg by (apply pixel_rounds; exact Hk). lia.
Qed.

Lemma sumPixels_adds_the_weights_of_seen_faces_witness :
  Render.sumPixels [Byte.x00; Byte.x00; Byte.x00; Byte.xff]
    [0x1p-2]%float [0; 7; 0]%float = [0; 7; 0]%float.
Proof.
  refine (proj2 (proj2 (sumPixels_adds_the_weights_of_seen_faces
                          [Byte.x00; Byte.x00; Byte.x00; Byte.xff]
                          [0x1p-2]%float [0; 7; 0]%float)) _).
  intros [|k] Hk.
  - reflexivity.
  - cbn in Hk. lia.
Defined.

(** ** The buffer that is read back *)

(** Inside the buffer, a byte is the byte the rasteriser wrote, or the
    zero the buffer held where the rasteriser wrote nothing. *)
Lemma resize_lookup_total_zero (n : nat) (l : list Byte.byte) (i : nat) :
  i < n -> resize n Byte.x00 l !!! i = l !!! i.
Proof.
  intros Hi. rewrite !list_lookup_total_alt.
  destruct (decide (i < length l)) as [Hlt|Hge].
  - rewrite lookup_resize by lia. reflexivity.
  - rewrite lookup_resize_new, (lookup_ge_None_2 l i) by lia. reflexivity.
Qed.

Lemma resize_pixelIndex (m : nat) (l : list Byte.byte) (k : nat) :
  k < m ->
  Render.pixelIndex (resize (Render.NUM_CHANS * m) Byte.x00 l)
    (Render.NUM_CHANS * k) =
  Render.pixelIndex l (Render.NUM_CHANS * k).
Proof.
  intros Hk. unfold Render.pixelIndex, Render.NUM_CHANS.
  rewrite !resize_lookup_total_zero by lia. reflexivity.
Qed.

(** The frames of the stand-in rasteriser: pixel [k] of a frame of [c]
    pixels shows the first face, and past the frame nothing is shown. *)
Lemma Demo_pixelIndex (c k : nat) :
  Render.pixelIndex (concat (replicate c Demo.screen))
    (Render.NUM_CHANS * k) =
  if k <? c then 1%Z else 0%Z.
Proof.
  unfold Render.NUM_CHANS. revert k.
  induction c as [|c IH]; intros k; [reflexivity|].
  destruct k as [|k]; [reflexivity|].
  replace (4 * S k) with (S (S (S (S (4 * k))))) by lia.
  change (S k <? S c) with (k <? c). rewrite <- IH. reflexivity.
Qed.

Lemma Demo_draws_faces_only (vs : list Vertex) (fs : list Quad) (res : Z) :
  1 <= length fs ->
  Render.drawsFacesOnly Demo.glReadPixels vs fs res.
Proof.
  intros Hfs scissor view cam weights.
  unfold Render.showsFacesOnly. apply forallb_forall. intros k Hk.
  apply in_seq in Hk. destruct Hk as [_ Hk]. cbn [Nat.add] in Hk.
  apply pixel_rounds in Hk.
  unfold Render.readPixels in *. rewrite length_resize in Hk.
  rewrite resize_pixelIndex by (unfold Render.NUM_CHANS in Hk; lia).
  unfold Demo.glReadPixels. rewrite Demo_pixelIndex.
  apply Z.leb_le. destruct (k <? _); lia.
Qed.

(** ** The rendering calculator: rows and matrix *)

Section RenderFacts.
Context {G : Geom}.
Variable glReadPixels :
  list Vertex -> list Quad -> bool -> Render.viewFn -> Camera -> Z -> Z ->
  list Byte.byte.
Variable calcSubtendWeights : Z -> list float -> list float.
Variable calcForwardLightWeights : Z -> list float -> list float.
Variable calcSideLightWeights : Z -> list float -> list float.
Variable perp : Vertex -> Vertex.

Local Abbreviation fwsOf this :=
  (Render.forwardLightWeights calcForwardLightWeights this).
Local Abbreviation swsOf this :=
  (Render.sideLightWeights calcSideLightWeights this).
Local Abbreviation lightRow this cam :=
  (Render.lightSums glReadPixels (Render.m_vertices this)
     (Render.m_faces this) (Render.m_resolution this)
     (fwsOf this) (swsOf this) cam).

(** One [calcFace] on a calculator given field by field. *)
Lemma calcFace_record (vs : list Vertex) (fs : list Quad) (res : Z)
    (sums sub fwd side : list float) (scissor : bool) (cam : Camera)
    (view : Render.viewFn) (weights : list float) :
  Render.calcFace glReadPixels
    (Render.mkRender vs fs res sums sub fwd side) scissor cam view weights =
  Render.mkRender vs fs res
    (Render.faceSums glReadPixels vs fs res scissor view cam weights sums)
    sub fwd side.
Proof. reflexivity. Qed.

(** [calcLight] returns the sums computed with the weight tables of the
    calculator, and leaves them in [m_sums] and the tables in the
    calculator. *)
Lemma calcLight_spec (this : Render.RenderTransferCalculator)
    (cam : Camera) :
  Render.calcLight glReadPixels calcForwardLightWeights
    calcSideLightWeights this cam =
  (Render.mkRender (Render.m_vertices this) (Render.m_faces this)
     (Render.m_resolution this) (lightRow this cam)
     (Render.m_subtendWeights this) (fwsOf this) (swsOf this),
   lightRow this cam).
Proof.
  destruct this as [vs fs res sums sub fwd side].
  unfold Render.calcLight, Render.forwardLightWeights,
    Render.sideLightWeights, Render.getForwardLightWeights,
    Render.getSideLightWeights, Render.resetSums,
    Render.set_sums, Render.set_forwardLightWeights,
    Render.set_sideLightWeights.
  destruct fwd, side;
    cbn [Render.m_vertices Render.m_faces Render.m_resolution
         Render.m_sums Render.m_subtendWeights
         Render.m_forwardLightWeights Render.m_sideLightWeights fst snd];
    rewrite !calcFace_record, resize_nil;
    cbn [Render.m_sums]; reflexivity.
Qed.

Lemma calcSubtended_spec (this : Render.RenderTransferCalculator)
    (cam : Camera) :
  snd (Render.calcSubtended glReadPixels calcSubtendWeights this cam) =
  Render.subtendSums glReadPixels (Render.m_vertices this)
    (Render.m_faces this) (Render.m_resolution this)
    (Render.subtendWeights calcSubtendWeights this) cam.
Proof.
  destruct this as [vs fs res sums sub fwd side].
  unfold Render.calcSubtended, Render.subtendWeights,
    Render.getSubtendWeights, Render.resetSums,
    Render.set_sums, Render.set_subtendWeights.
  destruct sub;
    cbn [Render.m_vertices Render.m_faces Render.m_resolution
         Render.m_sums Render.m_subtendWeights
         Render.m_forwardLightWeights Render.m_sideLightWeights fst snd];
    rewrite !calcFace_record, resize_nil;
    cbn [Render.m_sums]; reflexivity.
Qed.

(** The tables a calculator works with do not change once it has worked
    with them. *)
Lemma tables_kept (this : Render.RenderTransferCalculator)
    (sums : list float) :
  let this' :=
    Render.mkRender (Render.m_vertices this) (Render.m_faces this)
      (Render.m_resolution this) sums (Render.m_subtendWeights this)
      (fwsOf this) (swsOf this) in
  fwsOf this' = fwsOf this /\ swsOf this' = swsOf this.
Proof.
  destruct this as [vs fs res sums0 sub fwd side].
  unfold Render.forwardLightWeights, Render.sideLightWeights,
    Render.getForwardLightWeights, Render.getSideLightWeights,
    Render.set_forwardLightWeights, Render.set_sideLightWeights.
  cbn [Render.m_forwardLightWeights Render.m_sideLightWeights
       Render.m_resolution Render.m_vertices Render.m_faces Render.m_sums
       Render.m_subtendWeights snd fst].
  split.
  - destruct fwd; [|reflexivity].
    destruct (calcForwardLightWeights res []) eqn:E;
      cbn [snd fst Render.m_forwardLightWeights]; rewrite ?E; reflexivity.
  - destruct side; [|reflexivity].
    destruct (calcSideLightWeights res []) eqn:E;
      cbn [snd fst Render.m_sideLightWeights]; rewrite ?E; reflexivity.
Qed.

Lemma faceSums_length (vs : list Vertex) (fs : list Quad) (res : Z)
    (scissor : bool) (view : Render.viewFn) (cam : Camera)
    (weights sums : list float) :
  length (Render.faceSums glReadPixels vs fs res scissor view cam weights
            sums) = length sums.
Proof. unfold Render.faceSums, Render.sumPixels. apply partial_length. Qed.

Lemma faceSums_sign (vs : list Vertex) (fs : list Quad) (res : Z)
    (scissor : bool) (view : Render.viewFn) (cam : Camera)
    (weights sums : list float) :
  Forall (fun w => PrimFloat.ltb w 0 = false) weights ->
  Forall sign_clear sums ->
  Forall sign_clear
    (Render.faceSums glReadPixels vs fs res scissor view cam weights sums).
Proof. unfold Render.faceSums, Render.sumPixels. apply partial_sign. Qed.

Lemma lightSums_length (vs : list Vertex) (fs : list Quad) (res : Z)
    (fws sws : list float) (cam : Camera) :
  length (Render.lightSums glReadPixels vs fs res fws sws cam) = length fs.
Proof.
  unfold Render.lightSums. cbv zeta.
  rewrite !faceSums_length. apply length_replicate.
Qed.

Lemma lightSums_sign (vs : list Vertex) (fs : list Quad) (res : Z)
    (fws sws : list float) (cam : Camera) :
  Forall (fun w => PrimFloat.ltb w 0 = false) fws ->
  Forall (fun w => PrimFloat.ltb w 0 = false) sws ->
  Forall sign_clear (Render.lightSums glReadPixels vs fs res fws sws cam).
Proof.
  intros Hf Hs. unfold Render.lightSums. cbv zeta.
  repeat (apply faceSums_sign; [assumption|]).
  apply Forall_replicate. reflexivity.
Qed.

Lemma subtendSums_length (vs : list Vertex) (fs : list Quad) (res : Z)
    (ws : list float) (cam : Camera) :
  length (Render.subtendSums glReadPixels vs fs res ws cam) = length fs.
Proof.
  unfold Render.subtendSums. cbv zeta.
  rewrite !faceSums_length. apply length_replicate.
Qed.

Lemma subtendSums_sign (vs : list Vertex) (fs : list Quad) (res : Z)
    (ws : list float) (cam : Camera) :
  Forall (fun w => PrimFloat.ltb w 0 = false) ws ->
  Forall sign_clear (Render.subtendSums glReadPixels vs fs res ws cam).
Proof.
  intros Hw. unfold Render.subtendSums. cbv zeta.
  repeat (apply faceSums_sign; [assumption|]).
  apply Forall_replicate. reflexivity.
Qed.

(** The state of the loop of [calcAllLights] after [m] targets. *)
Lemma calcAllLights_loop (this : Render.RenderTransferCalculator)
    (m : nat) :
  exists sums,
    for_loop m (fun i '(this, weights) =>
        let '(this, faceWeights) :=
          Render.calcLight glReadPixels calcForwardLightWeights
            calcSideLightWeights this (Render.cameraOn perp this i) in
        (this, weights ++ faceWeights))
      (this, []) =
    (match m with
     | 0 => this
     | S _ =>
         Render.mkRender (Render.m_vertices this) (Render.m_faces this)
           (Render.m_resolution this) sums (Render.m_subtendWeights this)
           (fwsOf this) (swsOf this)
     end,
     concat ((fun i => lightRow this (Render.cameraOn perp this i))
               <$> seq 0 m)).
Proof.
  induction m as [|m [sums IH]].
  - exists []. reflexivity.
  - rewrite for_loop_S, IH. cbv zeta.
    set (this1 := match m with 0 => this | S _ => _ end).
    assert (Hsame : Render.m_vertices this1 = Render.m_vertices this /\
                    Render.m_faces this1 = Render.m_faces this /\
                    Render.m_resolution this1 = Render.m_resolution this /\
                    Render.m_subtendWeights this1 =
                      Render.m_subtendWeights this /\
                    fwsOf this1 = fwsOf this /\ swsOf this1 = swsOf this).
    { unfold this1. destruct m; [repeat split|].
      destruct (tables_kept this sums) as [Hf Hs].
      repeat split; assumption. }
    destruct Hsame as (Hv & Hfs & Hr & Hsub & Hf & Hs).
    assert (Hcam : Render.cameraOn perp this1 m =
                   Render.cameraOn perp this m).
    { unfold Render.cameraOn. rewrite Hv, Hfs. reflexivity. }
    rewrite calcLight_spec, Hv, Hfs, Hr, Hsub, Hf, Hs, Hcam.
    eexists. f_equal.
    rewrite seq_S, fmap_app, concat_app. cbn.
    rewrite app_nil_r. reflexivity.
Qed.

Lemma concat_rows_length {A : Type} (R : nat -> list A) (n m : nat) :
  (forall i, length (R i) = n) ->
  length (concat (R <$> seq 0 m)) = m * n.
Proof.
  intros HR. induction m as [|m IH]; [reflexivity|].
  rewrite seq_S, fmap_app, concat_app, length_app, IH. cbn.
  rewrite app_nil_r, HR. lia.
Qed.

Lemma concat_rows_lookup {A : Type} `{!Inhabited A} (R : nat -> list A)
    (n m i j : nat) :
  (forall i, length (R i) = n) -> i < m -> j < n ->
  concat (R <$> seq 0 m) !!! (i * n + j) = R i !!! j.
Proof.
  intros HR Hi Hj. induction m as [|m IH]; [lia|].
  rewrite seq_S, fmap_app, concat_app. cbn. rewrite app_nil_r.
  destruct (decide (i = m)) as [->|Hne].
  - rewrite lookup_total_app_r
      by (rewrite (concat_rows_length R n); [lia | exact HR]).
    rewrite (concat_rows_length R n) by exact HR.
    replace (m * n + j - m * n) with j by lia. reflexivity.
  - rewrite lookup_total_app_l
      by (rewrite (concat_rows_length R n); [nia|exact HR]).
    apply IH. lia.
Qed.

End RenderFacts.

(** X11: for a calculator of positive resolution and a rasteriser that
    draws the faces of the scene only (every pixel read back decodes to
    the background or to the index of a face, so that [sumWeights] stays
    inside [m_sums]), [calcLight] and [calcSubtended] of the rendering
    calculator return one sum per face, and when no weight of the tables
    they use (forward and side, or subtend) is negative then no sum is:
    the sums start at 0.0 and only weights of pixels seen are added to
    them. *)
Theorem render_sums_per_face
    (glReadPixels :
       list Vertex -> list Quad -> bool -> Render.viewFn -> Camera -> Z ->
       Z -> list Byte.byte)
    (calcSubtendWeights calcForwardLightWeights calcSideLightWeights :
       Z -> list float -> list float)
    (this : Render.RenderTransferCalculator) (cam : Camera) :
  (0 < Render.m_resolution this)%Z ->
  Render.drawsFacesOnly glReadPixels (Render.m_vertices this)
    (Render.m_faces this) (Render.m_resolution this) ->
  let light :=
    snd (Render.calcLight glReadPixels calcForwardLightWeights
           calcSideLightWeights this cam) in
  let subtended :=
    snd (Render.calcSubtended glReadPixels calcSubtendWeights this cam) in
  (length light = length (Render.m_faces this) /\
   (Forall (fun w => PrimFloat.ltb w 0 = false)
      (Render.forwardLightWeights calcForwardLightWeights this) ->
    Forall (fun w => PrimFloat.ltb w 0 = false)
      (Render.sideLightWeights calcSideLightWeights this) ->
    Forall (fun s => PrimFloat.ltb s 0 = false) light)) /\
  (length subtended = length (Render.m_faces this) /\
   (Forall (fun w => PrimFloat.ltb w 0 = false)
      (Render.subtendWeights calcSubtendWeights this) ->
    Forall (fun s => PrimFloat.ltb s 0 = false) subtended)).
Proof.
  intros _ _ light subtended. unfold light, subtended.
  rewrite calcLight_spec, calcSubtended_spec. cbn [snd].
  split; split.
  - apply lightSums_length.
  - intros Hf Hs. eapply Forall_impl.
    + apply lightSums_sign; [exact Hf | exact Hs].
    + intros s. apply sign_clear_not_negative.
  - apply subtendSums_length.
  - intros Hw. eapply Forall_impl.
    + apply subtendSums_sign. exact Hw.
    + intros s. apply sign_clear_not_negative.
Qed.

(** The room seen through a frame of one pixel that shows the ceiling:
    the three sums of [calcLight] are not negative. *)
Lemma render_sums_per_face_witness :
  let this := Render.new Room.vertices Room.faces 1 in
  let cam := mkCamera Scene.EYE_POS (mkVertex 0 0 0) (mkVertex 0 1 0) in
  Render.drawsFacesOnly Demo.glReadPixels Room.vertices Room.faces 1 /\
  snd (Render.calcLight Demo.glReadPixels Demo.weightTable
         Demo.weightTable this cam) = [0x1.4p+0; 0; 0]%float /\
  Forall (fun s => PrimFloat.ltb s 0 = false)
    (snd (Render.calcLight Demo.glReadPixels Demo.weightTable
            Demo.weightTable this cam)).
Proof.
  intros this cam.
  assert (Hdraw : Render.drawsFacesOnly Demo.glReadPixels Room.vertices
                    Room.faces 1)
    by (apply Demo_draws_faces_only; cbn; lia).
  split; [exact Hdraw|]. split; [vm_compute; reflexivity|].
  apply (proj2 (proj1 (render_sums_per_face Demo.glReadPixels
                         Demo.weightTable Demo.weightTable Demo.weightTable
                         this cam ltac:(cbn; lia) Hdraw))).
  - repeat constructor.
  - repeat constructor.
Defined.

(** X12: [calcAllLights] of the rendering calculator leaves the
    calculator's scene untouched and returns an n-by-n matrix, row after
    row: entry [i * n + j] is the sum that [calcLight] returns for face
    [j] and the camera placed on target [i] (at the centre of the target,
    looking against its normal), each row computed with the same weight
    tables, those the calculator held or computed at first. *)
Theorem render_calcAllLights_matrix (G : Geom)
    (glReadPixels :
       list Vertex -> list Quad -> bool -> Render.viewFn -> Camera -> Z ->
       Z -> list Byte.byte)
    (calcForwardLightWeights calcSideLightWeights :
       Z -> list float -> list float)
    (perp : Vertex -> Vertex)
    (this : Render.RenderTransferCalculator) :
  let n := length (Render.m_faces this) in
  let result :=
    Render.calcAllLights glReadPixels calcForwardLightWeights
      calcSideLightWeights perp this in
  Render.m_faces (fst result) = Render.m_faces this /\
  Render.m_vertices (fst result) = Render.m_vertices this /\
  length (snd result) = n * n /\
  forall i j, i < n -> j < n ->
    entry (snd result) n i j =
    snd (Render.calcLight glReadPixels calcForwardLightWeights
           calcSideLightWeights this (Render.cameraOn perp this i)) !!! j.
Proof.
  intros n result. unfold result, Render.calcAllLights. cbv zeta.
  destruct (calcAllLights_loop glReadPixels calcForwardLightWeights
              calcSideLightWeights perp this (length (Render.m_faces this)))
    as [sums ->].
  cbn [fst snd].
  split; [destruct (length (Render.m_faces this)); reflexivity|].
  split; [destruct (length (Render.m_faces this)); reflexivity|].
  split.
  - apply concat_rows_length. intros i. apply lightSums_length.
  - intros i j Hi Hj. unfold entry. rewrite calcLight_spec. cbn [snd].
    apply (concat_rows_lookup
             (fun i =>
                Render.lightSums glReadPixels (Render.m_vertices this)
                  (Render.m_faces this) (Render.m_resolution this)
                  (Render.forwardLightWeights calcForwardLightWeights this)
                  (Render.sideLightWeights calcSideLightWeights this)
                  (Render.cameraOn perp this i))); try assumption.
    intros k. apply lightSums_length.
Qed.

Lemma render_calcAllLights_matrix_witness :
  let this := Render.new Room.vertices Room.faces 1 in
  entry
    (snd (Render.calcAllLights (G := refGeom) Demo.glReadPixels
            Demo.weightTable Demo.weightTable Demo.perp this)) 3 1 0 =
  snd (Render.calcLight Demo.glReadPixels Demo.weightTable Demo.weightTable
         this (Render.cameraOn (G := refGeom) Demo.perp this 1)) !!! 0.
Proof.
  intros this.
  exact (proj2 (proj2 (proj2
           (render_calcAllLights_matrix refGeom Demo.glReadPixels
              Demo.weightTable Demo.weightTable Demo.perp this)))
           1 0 ltac:(cbn; lia) ltac:(cbn; lia)).
Defined.

(** ** The screenshot: rows of the image *)

Lemma png_rows_loop_length (WIDTH HEIGHT m : nat) :
  length (for_loop m (fun i png_rows =>
      <[HEIGHT - i - 1 := Some (i * WIDTH * format_nchannels)]> png_rows)
    (replicate HEIGHT None)) = HEIGHT.
Proof.
  induction m as [|m IH].
  - apply length_replicate.
  - rewrite for_loop_S, length_insert. exact IH.
Qed.

(** After [m] rounds the last [m] entries of the table are set. *)
Lemma png_rows_loop (WIDTH HEIGHT m k : nat) :
  m <= HEIGHT -> k < HEIGHT ->
  for_loop m (fun i png_rows =>
      <[HEIGHT - i - 1 := Some (i * WIDTH * format_nchannels)]> png_rows)
    (replicate HEIGHT None) !! k =
  Some (if decide (HEIGHT - m <= k)
        then Some ((HEIGHT - 1 - k) * WIDTH * format_nchannels)
        else None).
Proof.
  intros Hm Hk. induction m as [|m IH].
  - rewrite for_loop_0, lookup_replicate_2 by exact Hk.
    rewrite decide_False by lia. reflexivity.
  - rewrite for_loop_S.
    destruct (decide (k = HEIGHT - m - 1)) as [->|Hne].
    + rewrite list_lookup_insert_eq by (rewrite png_rows_loop_length; lia).
      rewrite decide_True by lia.
      replace (HEIGHT - 1 - (HEIGHT - m - 1)) with m by lia. reflexivity.
    + rewrite list_lookup_insert_ne by lia.
      rewrite IH by lia.
      destruct (decide (HEIGHT - m <= k)), (decide (HEIGHT - S m <= k));
        try lia; reflexivity.
Qed.

(** X13: the table of row pointers that [screenshotPNG] hands to libpng
    has one entry per image row, every entry is set (none is left null),
    entry [k] points at the start of row [HEIGHT - 1 - k] of the pixels
    read back, so the image is written top row first, and each row of
    [WIDTH] pixels it points at lies inside the buffer of [nvals]
    bytes. *)
Theorem png_rows_flip_the_image (WIDTH HEIGHT k : nat) :
  k < HEIGHT ->
  length (png_rows WIDTH HEIGHT) = HEIGHT /\
  png_rows WIDTH HEIGHT !! k =
    Some (Some ((HEIGHT - 1 - k) * WIDTH * format_nchannels)) /\
  (HEIGHT - 1 - k) * WIDTH * format_nchannels + WIDTH * format_nchannels
    <= nvals WIDTH HEIGHT.
Proof.
  intros Hk. unfold png_rows. split; [|split].
  - apply png_rows_loop_length.
  - rewrite (png_rows_loop WIDTH HEIGHT HEIGHT k) by lia.
    rewrite decide_True by lia. reflexivity.
  - unfold nvals, format_nchannels. nia.
Qed.

Lemma png_rows_flip_the_image_witness :
  png_rows 2 3 !! 0 = Some (Some 16).
Proof.
  exact (proj1 (proj2 (png_rows_flip_the_image 2 3 0 ltac:(lia)))).
Defined.

(** ** The normaliser when nothing is visible *)

(** A double times [+infinity] is never a finite number. *)
Lemma mul_infinity_cases (a : float) :
  (a * infinity)%float = infinity \/
  (a * infinity)%float = neg_infinity \/
  (a * infinity)%float = nan.
Proof.
  destruct (Prim2SF a) as [s|s| |s m e] eqn:E.
  - right. right. apply Prim2SF_inj.
    rewrite FloatAxioms.mul_spec, E. reflexivity.
  - destruct s; [right; left | left]; apply Prim2SF_inj;
      rewrite FloatAxioms.mul_spec, E; reflexivity.
  - right. right. apply Prim2SF_inj.
    rewrite FloatAxioms.mul_spec, E. reflexivity.
  - destruct s; [right; left | left]; apply Prim2SF_inj;
      rewrite FloatAxioms.mul_spec, E; reflexivity.
Qed.

Section NothingVisible.
Context {G : Geom}.
Variable Position : Vertex.

Lemma scanMax_nothing_visible (max : float) (qs : list Quad)
    (vs : list Vertex) :
  (forall q, q ∈ qs ->
     isEmitter q = true \/ facesUs Position q vs = false) ->
  scanMax Position max qs vs = max.
Proof.
  revert max. induction qs as [|q qs IH]; intros max Hall; [reflexivity|].
  rewrite scanMax_cons.
  assert (Hq : negb (isEmitter q) && facesUs Position q vs = false).
  { destruct (Hall q) as [-> | ->]; [left | reflexivity |].
    apply andb_false_r. }
  rewrite Hq. apply IH. intros q' Hq'. apply Hall. right. exact Hq'.
Qed.

End NothingVisible.

(** X14: when no non-emitter faces the camera (every quad is an emitter
    or is turned away, or the scene is empty) the maximum found is 0.0,
    the scale is [1.0 / 0.0], that is +infinity, and the normaliser
    multiplies every channel of every non-emitter by +infinity: each
    becomes +infinity, -infinity or NaN, never a finite number. *)
Theorem normaliser_with_nothing_visible (G : Geom) (Position : Vertex)
    (qs : list Quad) (vs : list Vertex) :
  (forall q, q ∈ qs ->
     isEmitter q = true \/ facesUs Position q vs = false) ->
  visibleMax Position qs vs = 0%float /\
  brightnessScale Position qs vs = infinity /\
  normaliseBrightness Position qs vs =
    (fun q =>
       if isEmitter q then q
       else setScreenColour q (cscale (screenColour q) infinity)) <$> qs /\
  forall c : float,
    (c * infinity)%float = infinity \/
    (c * infinity)%float = neg_infinity \/
    (c * infinity)%float = nan.
Proof.
  intros Hall.
  assert (Hmax : visibleMax Position qs vs = 0%float)
    by (apply scanMax_nothing_visible; exact Hall).
  assert (Hscale : brightnessScale Position qs vs = infinity)
    by (unfold brightnessScale; rewrite Hmax; reflexivity).
  repeat split; try assumption; [|exact mul_infinity_cases].
  unfold normaliseBrightness. rewrite Hscale.
  apply list_fmap_ext. intros _ q _. destruct (isEmitter q); reflexivity.
Qed.

Lemma normaliser_with_nothing_visible_witness :
  normaliseBrightness (G := refGeom) Scene.EYE_POS
    [Scene.back Scene.dim; Scene.lamp] Scene.vertices =
  [Scene.back (mkColour infinity infinity infinity); Scene.lamp].
Proof.
  refine (proj1 (proj2 (proj2
            (normaliser_with_nothing_visible refGeom Scene.EYE_POS
               [Scene.back Scene.dim; Scene.lamp] Scene.vertices _)))).
  intros q Hq. apply elem_of_cons in Hq as [-> | Hq].
  - right. vm_compute. reflexivity.
  - apply elem_of_cons in Hq as [-> | Hq].
    + left. reflexivity.
    + apply elem_of_nil in Hq. destruct Hq.
Defined.

(** ** The specular pass in a scene without lamps *)






(** ** The lighting computation of main, end to end *)

Section PipelineFacts.
Context {G : Geom}.

Lemma computeSpecularity_length (powf : float -> float -> float)
    (qs : list Quad) (vs : list Vertex) (pos : list float) :
  length (computeSpecularity powf qs vs pos) = length qs.
Proof. rewrite computeSpecularity_imap. apply length_imap. Qed.

(** The specular pass writes [screenColour] only, and only in specular
    quads. *)
Lemma computeSpecularity_attributes (powf : float -> float -> float)
    (qs : list Quad) (vs : list Vertex) (pos : list float) (i : nat) :
  let q := qs !!! i in
  let q' := computeSpecularity powf qs vs pos !!! i in
  indices q' = indices q /\ materialColour q' = materialColour q /\
  isEmitter q' = isEmitter q /\ isSpecular q' = isSpecular q /\
  (isSpecular q = false -> screenColour q' = screenColour q).
Proof.
  intros q q'. unfold q', q. rewrite computeSpecularity_lookup.
  destruct (isSpecular (qs !!! i)) eqn:Hs;
    repeat split; intros; try reflexivity; try discriminate; exact Hs.
Qed.

Lemma normaliseBrightness_length (Position : Vertex) (qs : list Quad)
    (vs : list Vertex) :
  length (normaliseBrightness Position qs vs) = length qs.
Proof. unfold normaliseBrightness. apply length_fmap. Qed.

(** The normaliser writes [screenColour] only, and only in non-emitters. *)
Lemma normaliseBrightness_attributes (Position : Vertex) (qs : list Quad)
    (vs : list Vertex) (i : nat) :
  i < length qs ->
  let q := qs !!! i in
  let q' := normaliseBrightness Position qs vs !!! i in
  indices q' = indices q /\ materialColour q' = materialColour q /\
  isEmitter q' = isEmitter q /\ isSpecular q' = isSpecular q /\
  (isEmitter q = true -> screenColour q' = screenColour q).
Proof.
  intros Hi q q'. unfold q', q, normaliseBrightness.
  rewrite (list_lookup_total_fmap _ qs i Hi).
  destruct (isEmitter (qs !!! i)) eqn:He;
    repeat split; intros; try reflexivity; try discriminate; exact He.
Qed.

End PipelineFacts.

Section MainFacts.
Context {G : Geom}.
Variable powf : float -> float -> float.
Variable Position : Vertex.

(** The scene after [k >= 1] solver steps, the specular pass and the
    normaliser, element by element. *)
Lemma finished_scene (k : nat) (qs : list Quad) (transfers : list float)
    (vs : list Vertex) (pos : list float) (i : nat) :
  i < length qs ->
  let q := qs !!! i in
  let out :=
    normaliseBrightness Position
      (computeSpecularity powf (iterateTimes (S k) qs transfers) vs pos)
      vs in
  length out = length qs /\
  indices (out !!! i) = indices q /\
  materialColour (out !!! i) = materialColour q /\
  isEmitter (out !!! i) = isEmitter q /\
  isSpecular (out !!! i) = isSpecular q /\
  (isEmitter q = true -> isSpecular q = false ->
   screenColour (out !!! i) = materialColour q) /\
  ((forall a, PrimFloat.ltb a 0 = false ->
              PrimFloat.ltb (powf a specularPower) 0 = false) ->
   isEmitter q = true ->
   colour_not_below (screenColour (out !!! i)) (materialColour q)).
Proof.
  intros Hi q out. unfold out, q.
  set (solved := iterateTimes (S k) qs transfers).
  set (lit := computeSpecularity powf solved vs pos).
  assert (Hlen1 : length solved = length qs) by apply iterateTimes_length.
  assert (Hlen2 : length lit = length qs)
    by (unfold lit; rewrite computeSpecularity_length; exact Hlen1).
  destruct (iterateTimes_attributes (S k) qs transfers i Hi)
    as (He1 & Hm1 & Hs1 & Hi1).
  fold solved in He1, Hm1, Hs1, Hi1.
  destruct (computeSpecularity_attributes powf solved vs pos i)
    as (Hi2 & Hm2 & He2 & Hs2 & Hc2).
  fold lit in Hi2, Hm2, He2, Hs2, Hc2.
  destruct (normaliseBrightness_attributes Position lit vs i ltac:(lia))
    as (Hi3 & Hm3 & He3 & Hs3 & Hc3).
  assert (Hsolved : isEmitter (qs !!! i) = true ->
                    screenColour (solved !!! i) =
                    materialColour (qs !!! i)).
  { intros Hem. unfold solved. cbn [iterateTimes].
    destruct (iterateTimes_attributes k qs transfers i Hi)
      as (Hem' & Hmat' & _).
    rewrite iterateLighting_lookup
      by (rewrite iterateTimes_length; exact Hi).
    rewrite Hem', Hem, Hmat'. cbn [setScreenColour screenColour].
    apply cmul_white. }
  split; [rewrite normaliseBrightness_length; exact Hlen2|].
  split; [congruence|]. split; [congruence|]. split; [congruence|].
  split; [congruence|]. split.
  - intros Hem Hspec.
    rewrite Hc3 by congruence. rewrite Hc2 by congruence.
    apply Hsolved. exact Hem.
  - intros Hpow Hem. rewrite Hc3 by congruence.
    unfold lit. rewrite computeSpecularity_lookup.
    destruct (isSpecular (solved !!! i)).
    + cbn [setScreenColour screenColour]. rewrite (Hsolved Hem).
      apply colour_not_below_cadd, specularSum_sign_clear. exact Hpow.
    + rewrite (Hsolved Hem). apply colour_not_below_refl.
Qed.

End MainFacts.

(** X16: whenever the lighting computation of [main] returns, the scene
    it hands on has the quads it was given, with their vertex indices and
    [isSpecular] flags; the emitters are the quads that [initLighting]
    made lamps and those that were emitters already, and every quad
    carries the material colour [initLighting] gave it.  An emitter that
    is not specular ends with exactly its material colour on screen,
    whatever the transfer matrix, the number of iterations and the camera
    were; for a lamp placed by [initLighting] that is not specular, that
    is (2,2,2).  An emitter that is specular receives the highlights of
    the other emitters on top: provided [std::pow] of a base that is not
    negative is not negative, no channel of an emitter ends below the
    channel of its material colour. *)
Theorem main_keeps_the_lamps (G : Geom)
    (glReadPixels :
       list Vertex -> list Quad -> bool -> Render.viewFn -> Camera -> Z ->
       Z -> list Byte.byte)
    (calcForwardLightWeights calcSideLightWeights :
       Z -> list float -> list float)
    (perp : Vertex -> Vertex) (powf : float -> float -> float)
    (Position : Vertex) (fuel : nat) (faces : list Quad)
    (vertices : list Vertex) (out : list Quad) (i : nat) :
  main glReadPixels calcForwardLightWeights calcSideLightWeights perp powf
    Position fuel faces vertices = Some out ->
  i < length faces ->
  let q := faces !!! i in
  let lamp := emitterTest (paraCentre q vertices) in
  length out = length faces /\
  indices (out !!! i) = indices q /\
  isSpecular (out !!! i) = isSpecular q /\
  isEmitter (out !!! i) = (lamp || isEmitter q)%bool /\
  materialColour (out !!! i) =
    materialColour (initLighting faces vertices !!! i) /\
  (isEmitter (out !!! i) = true -> isSpecular q = false ->
   screenColour (out !!! i) = materialColour (out !!! i)) /\
  (lamp = true -> isSpecular q = false ->
   screenColour (out !!! i) = mkColour 2 2 2) /\
  ((forall a, PrimFloat.ltb a 0 = false ->
              PrimFloat.ltb (powf a specularPower) 0 = false) ->
   isEmitter (out !!! i) = true ->
   colour_not_below (screenColour (out !!! i))
     (materialColour (out !!! i))).
Proof.
  intros Hmain Hi q lamp. unfold main in Hmain. cbv zeta in Hmain.
  set (qs := initLighting faces vertices) in *.
  set (T := snd (Render.calcAllLights _ _ _ _ _)) in Hmain.
  destruct (converge fuel T vertices qs) as [[[k qsk] lk]|] eqn:Hconv;
    [|discriminate Hmain].
  injection Hmain as <-.
  unfold converge in Hconv. apply convergeLoop_spec in Hconv.
  destruct Hconv as (Hk & -> & _).
  destruct k as [|k]; [lia|].
  assert (Hlen : length qs = length faces) by apply initLighting_length.
  destruct (finished_scene powf Position k qs T vertices
              (getCameraPos Position) i ltac:(lia))
    as (Hl & Hix & Hmat & Hem & Hsp & Hcol & Hup).
  destruct (initQuad_cases vertices (faces !!! i))
    as (Hix0 & Hsp0 & Hem0 & Hlamp0 & _).
  assert (Hq : qs !!! i = initQuad emitterTest vertices (faces !!! i))
    by (apply initLighting_lookup; exact Hi).
  rewrite <- Hq in Hix0, Hsp0, Hem0, Hlamp0.
  fold q in Hix0, Hsp0, Hem0, Hlamp0. fold lamp in Hem0, Hlamp0.
  split; [congruence|]. split; [congruence|]. split; [congruence|].
  split; [congruence|]. split; [exact Hmat|].
  split; [|split].
  - intros Hout Hspec. rewrite Hmat. apply Hcol; congruence.
  - intros Hlamp Hspec. destruct (Hlamp0 Hlamp) as [Hm2 _].
    rewrite <- Hm2. apply Hcol; [|congruence].
    rewrite Hem0, Hlamp. reflexivity.
  - intros Hpow Hout. rewrite Hmat. apply Hup; [exact Hpow | congruence].
Qed.

(** The room: the ceiling quad is made a lamp and ends at (2,2,2). *)
Lemma main_keeps_the_lamps_witness :
  exists out,
    main (G := refGeom) Demo.glReadPixels Demo.weightTable Demo.weightTable
      Demo.perp Ref.powf Scene.EYE_POS 5 Room.faces Room.vertices =
      Some out /\
    screenColour (out !!! 0) = mkColour 2 2 2.
Proof.
  eexists. split.
  - vm_compute. reflexivity.
  - refine (proj1 (proj2 (proj2 (proj2 (proj2 (proj2 (proj2
              (main_keeps_the_lamps refGeom Demo.glReadPixels
                 Demo.weightTable Demo.weightTable Demo.perp Ref.powf
                 Scene.EYE_POS 5 Room.faces Room.vertices _ 0 _ _)))))))
              eq_refl eq_refl).
    + vm_compute. reflexivity.
    + cbn. lia.
Defined.

(** The same room with a ceiling that is specular and a floor that is a
    lamp too, the camera straight below the ceiling: the ceiling lamp
    receives the highlight of the floor and ends above its material
    colour, at 2 + 0.02f. *)
Example specular_lamp_gets_a_highlight :
  let faces :=
    [mkQuad [0; 1; 2; 3] (mkColour 1 1 1) black false true;
     Room.leftWall;
     mkQuad [8; 9; 10; 11] (mkColour 1 1 1) black true false] in
  exists out,
    main (G := refGeom) Demo.glReadPixels Demo.weightTable Demo.weightTable
      Demo.perp Ref.powf (mkVertex 0 0 0) 5 faces Room.vertices =
      Some out /\
    isEmitter (out !!! 0) = true /\
    materialColour (out !!! 0) = mkColour 2 2 2 /\
    screenColour (out !!! 0) =
      mkColour 0x1.028f5c28p+1 0x1.028f5c28p+1 0x1.028f5c28p+1.
Proof.
  intros faces. eexists. split; [vm_compute; reflexivity|].
  repeat split.
Qed.

(** ** No radiance below zero *)

Lemma SFadd_comm (u v : spec_float) : SF64add u v = SF64add v u.
Proof.
  destruct u as [su|su| |su mu eu], v as [sv|sv| |sv mv ev];
    try destruct su; try destruct sv; try reflexivity.
  all: cbn [SF64add SFadd]; rewrite (Z.min_comm eu ev);
    match goal with
    | |- binary_normalize _ _ (?a + ?c)%Z _ _ = _ =>
        rewrite (Z.add_comm a c)
    end; reflexivity.
Qed.

Lemma add_comm (a c : float) : (a + c)%float = (c + a)%float.
Proof.
  apply Prim2SF_inj. rewrite !FloatAxioms.add_spec. apply SFadd_comm.
Qed.

(** The product of two doubles that are not negative is not negative. *)
Lemma not_negative_mul (a c : float) :
  PrimFloat.ltb a 0 = false -> PrimFloat.ltb c 0 = false ->
  PrimFloat.ltb (a * c) 0 = false.
Proof.
  rewrite !not_negative_spec, FloatAxioms.mul_spec.
  destruct (Prim2SF a) as [sa|sa| |sa ma ea],
           (Prim2SF c) as [sc|sc| |sc mc ec];
    try destruct sa; try destruct sc; intros Ha Hc;
    try discriminate Ha; try discriminate Hc; try reflexivity.
  cbn [SF64mul SFmul xorb].
  apply sign_clear_not_negative_sf, sf_sign_clear_round.
Qed.

(** A sum of a double that is not negative and one with its sign bit
    clear is not negative. *)
Lemma not_negative_add_r (a c : float) :
  PrimFloat.ltb a 0 = false -> sign_clear c ->
  PrimFloat.ltb (a + c) 0 = false.
Proof.
  intros Ha Hc. rewrite add_comm.
  apply sign_clear_not_negative, sign_clear_add; assumption.
Qed.

(** A maximum that grows from a double with its sign bit clear keeps it
    clear. *)
Lemma std_max_sign_clear (m d : float) :
  sign_clear m -> sign_clear (Dbl.std_max m d).
Proof.
  unfold Dbl.std_max, sign_clear. intros Hm.
  destruct (PrimFloat.ltb m d) eqn:Hlt; [|exact Hm].
  rewrite FloatAxioms.ltb_spec in Hlt.
  destruct (Prim2SF m) as [sm|sm| |sm mm em],
           (Prim2SF d) as [sd|sd| |sd md ed];
    try destruct sm; try destruct sd;
    try discriminate Hm; try discriminate Hlt; reflexivity.
Qed.

Lemma colour_not_negative_cmul (c d : Colour) :
  colour_not_negative c -> colour_not_negative d ->
  colour_not_negative (cmul c d).
Proof.
  intros (Hr & Hg & Hb) (Dr & Dg & Db).
  split; [|split]; apply not_negative_mul; assumption.
Qed.

Lemma colour_not_negative_cscale (c : Colour) (s : float) :
  colour_not_negative c -> PrimFloat.ltb s 0 = false ->
  colour_not_negative (cscale c s).
Proof.
  intros (Hr & Hg & Hb) Hs.
  split; [|split]; apply not_negative_mul; assumption.
Qed.

Lemma colour_sign_clear_not_negative (c : Colour) :
  colour_sign_clear c -> colour_not_negative c.
Proof.
  intros (Hr & Hg & Hb).
  split; [|split]; apply sign_clear_not_negative; assumption.
Qed.

Lemma colour_not_negative_cadd_r (c d : Colour) :
  colour_not_negative c -> colour_sign_clear d ->
  colour_not_negative (cadd c d).
Proof.
  intros (Hr & Hg & Hb) (Dr & Dg & Db).
  split; [|split]; apply not_negative_add_r; assumption.
Qed.

(** What the invariant says of a quad: neither its material colour nor
    its colour on screen has a channel below zero. *)
Local Abbreviation quad_not_negative :=
  (fun q : Quad =>
     colour_not_negative (materialColour q) /\
     colour_not_negative (screenColour q)).

Lemma lookup_total_not_negative (T : list float) (k : nat) :
  Forall (fun t => PrimFloat.ltb t 0 = false) T ->
  PrimFloat.ltb (T !!! k) 0 = false.
Proof.
  intros HT. destruct (decide (k < length T)) as [Hlt|Hge].
  - apply (Forall_lookup_total_1 _ T k HT Hlt).
  - rewrite list_lookup_total_alt, lookup_ge_None_2 by lia. reflexivity.
Qed.

Lemma lookup_total_quad_not_negative (qs : list Quad) (j : nat) :
  Forall quad_not_negative qs -> quad_not_negative (qs !!! j).
Proof.
  intros Hqs. destruct (decide (j < length qs)) as [Hlt|Hge].
  - apply (Forall_lookup_total_1 _ qs j Hqs Hlt).
  - rewrite list_lookup_total_alt, lookup_ge_None_2 by lia.
    repeat split.
Qed.

Lemma sumOthers_sign_clear (qs : list Quad) (T : list float) (i : nat) :
  Forall quad_not_negative qs ->
  Forall (fun t => PrimFloat.ltb t 0 = false) T ->
  colour_sign_clear (sumOthers qs T i).
Proof.
  intros Hqs HT. unfold sumOthers.
  apply foldl_cadd_sign_clear; [exact colour_sign_clear_black|].
  apply Forall_fmap, Forall_forall. intros j _.
  apply colour_not_negative_cscale.
  - apply (lookup_total_quad_not_negative qs j Hqs).
  - apply lookup_total_not_negative. exact HT.
Qed.

Lemma iterateLighting_not_negative (qs : list Quad) (T : list float) :
  Forall quad_not_negative qs ->
  Forall (fun t => PrimFloat.ltb t 0 = false) T ->
  Forall quad_not_negative (iterateLighting qs T).
Proof.
  intros Hqs HT. apply Forall_lookup. intros i q' Hq'.
  rewrite iterateLighting_at in Hq'.
  destruct (qs !! i) as [q|] eqn:Hq; [|discriminate Hq'].
  injection Hq' as <-.
  rewrite Forall_lookup in Hqs. destruct (Hqs i q Hq) as [Hmat Hscr].
  split; [exact Hmat|]. cbn [setScreenColour screenColour].
  destruct (isEmitter q).
  - rewrite cmul_white. exact Hmat.
  - apply colour_not_negative_cmul; [|exact Hmat].
    apply colour_sign_clear_not_negative, sumOthers_sign_clear;
      [apply Forall_lookup; exact Hqs | exact HT].
Qed.

Lemma iterateTimes_not_negative (k : nat) (qs : list Quad)
    (T : list float) :
  Forall quad_not_negative qs ->
  Forall (fun t => PrimFloat.ltb t 0 = false) T ->
  Forall quad_not_negative (iterateTimes k qs T).
Proof.
  intros Hqs HT. induction k as [|k IH]; [exact Hqs|].
  cbn [iterateTimes]. apply iterateLighting_not_negative; assumption.
Qed.



Section PipelineNotNegative.
Context {G : Geom}.

Lemma initLighting_not_negative (qs : list Quad) (vs : list Vertex) :
  Forall quad_not_negative qs ->
  Forall quad_not_negative (initLighting qs vs).
Proof.
  intros Hqs. unfold initLighting, initLightingWith.
  apply Forall_fmap. eapply Forall_impl; [exact Hqs|].
  intros q [Hmat Hscr]. cbv beta delta [compose]. unfold initQuad.
  cbv zeta.
  assert (Htint : forall c t : Colour,
            colour_not_negative c -> colour_sign_clear t ->
            colour_not_negative (cmul c t)).
  { intros c t Hc Ht. apply colour_not_negative_cmul; [exact Hc|].
    apply colour_sign_clear_not_negative. exact Ht. }
  destruct (emitterTest (paraCentre q vs));
    destruct (PrimFloat.ltb (x (paraCentre q vs)) (-0x1.ff7ced916872bp-1));
    try destruct (Dbl.gtb (x (paraCentre q vs)) 0x1.ff7ced916872bp-1);
    cbn [materialColour screenColour]; split;
    try assumption; try (repeat split; fail);
    apply Htint; try assumption; repeat split.
Qed.

Variable powf : float -> float -> float.
Hypothesis powf_not_negative :
  forall a, PrimFloat.ltb a 0 = false ->
            PrimFloat.ltb (powf a specularPower) 0 = false.

Lemma computeSpecularity_not_negative (qs : list Quad) (vs : list Vertex)
    (pos : list float) :
  Forall quad_not_negative qs ->
  Forall quad_not_negative (computeSpecularity powf qs vs pos).
Proof.
  intros Hqs. rewrite computeSpecularity_imap.
  apply Forall_lookup. intros i q' Hq'.
  rewrite list_lookup_imap in Hq'.
  destruct (qs !! i) as [q|] eqn:Hq; [|discriminate Hq'].
  injection Hq' as <-.
  rewrite Forall_lookup in Hqs. destruct (Hqs i q Hq) as [Hmat Hscr].
  destruct (isSpecular q); [|split; assumption].
  split; [exact Hmat|]. cbn [setScreenColour screenColour].
  apply colour_not_negative_cadd_r; [exact Hscr|].
  apply specularSum_sign_clear. exact powf_not_negative.
Qed.

Variable Position : Vertex.

Lemma scanMax_sign_clear (max : float) (qs : list Quad)
    (vs : list Vertex) :
  sign_clear max -> sign_clear (scanMax Position max qs vs).
Proof.
  revert max. induction qs as [|q qs IH]; intros max Hmax; [exact Hmax|].
  rewrite scanMax_cons. apply IH.
  destruct (negb (isEmitter q) && facesUs Position q vs); [|exact Hmax].
  repeat apply std_max_sign_clear. exact Hmax.
Qed.

Lemma brightnessScale_sign_clear (qs : list Quad) (vs : list Vertex) :
  sign_clear (brightnessScale Position qs vs).
Proof.
  unfold brightnessScale. cbv zeta.
  destruct (PrimFloat.ltb (visibleMax Position qs vs) TARGET);
    [|reflexivity].
  apply sign_clear_div; [reflexivity|].
  apply scanMax_sign_clear. reflexivity.
Qed.

Lemma normaliseBrightness_not_negative (qs : list Quad)
    (vs : list Vertex) :
  Forall quad_not_negative qs ->
  Forall quad_not_negative (normaliseBrightness Position qs vs).
Proof.
  intros Hqs. unfold normaliseBrightness. cbv zeta.
  apply Forall_fmap. eapply Forall_impl; [exact Hqs|].
  intros q [Hmat Hscr]. cbv beta delta [compose].
  destruct (negb (isEmitter q)); [|split; assumption].
  split; [exact Hmat|]. cbn [setScreenColour screenColour].
  apply colour_not_negative_cscale; [exact Hscr|].
  apply sign_clear_not_negative, brightnessScale_sign_clear.
Qed.

End PipelineNotNegative.

(** The matrix of the rendering calculator has no entry below zero when
    its weight tables have none. *)
Lemma render_matrix_not_negative (G : Geom)
    (glReadPixels :
       list Vertex -> list Quad -> bool -> Render.viewFn -> Camera -> Z ->
       Z -> list Byte.byte)
    (calcForwardLightWeights calcSideLightWeights :
       Z -> list float -> list float)
    (perp : Vertex -> Vertex) (this : Render.RenderTransferCalculator) :
  Forall (fun w => PrimFloat.ltb w 0 = false)
    (Render.forwardLightWeights calcForwardLightWeights this) ->
  Forall (fun w => PrimFloat.ltb w 0 = false)
    (Render.sideLightWeights calcSideLightWeights this) ->
  Forall (fun t => PrimFloat.ltb t 0 = false)
    (snd (Render.calcAllLights glReadPixels calcForwardLightWeights
            calcSideLightWeights perp this)).
Proof.
  intros Hf Hs. unfold Render.calcAllLights. cbv zeta.
  destruct (calcAllLights_loop glReadPixels calcForwardLightWeights
              calcSideLightWeights perp this (length (Render.m_faces this)))
    as [sums ->].
  cbn [snd]. apply Forall_concat, Forall_fmap, Forall_forall.
  intros i _. cbn. eapply Forall_impl.
  - apply lightSums_sign; [exact Hf | exact Hs].
  - intros t. apply sign_clear_not_negative.
Qed.

(** X18: [main] never hands a colour below zero to the renderer.  When
    the scene it starts from has no channel below zero in its material
    colours and colours on screen, the rasteriser draws the faces of the
    scene only (every pixel read back decodes to the background or to the
    index of a face, so that [sumWeights] stays inside [m_sums]), the
    forward and side weight tables (for resolution 256) have no weight
    below zero and [std::pow] of a base that is not negative is not
    negative, then whenever the lighting computation returns, no channel
    of any quad's [screenColour] is less than zero (each is a number >= 0,
    +infinity or NaN). *)
Theorem main_never_hands_on_a_negative_colour (G : Geom)
    (glReadPixels :
       list Vertex -> list Quad -> bool -> Render.viewFn -> Camera -> Z ->
       Z -> list Byte.byte)
    (calcForwardLightWeights calcSideLightWeights :
       Z -> list float -> list float)
    (perp : Vertex -> Vertex) (powf : float -> float -> float)
    (Position : Vertex) (fuel : nat) (faces : list Quad)
    (vertices : list Vertex) (out : list Quad) :
  (forall a, PrimFloat.ltb a 0 = false ->
             PrimFloat.ltb (powf a specularPower) 0 = false) ->
  Render.drawsFacesOnly glReadPixels vertices
    (initLighting faces vertices) 256 ->
  Forall (fun w => PrimFloat.ltb w 0 = false)
    (calcForwardLightWeights 256%Z []) ->
  Forall (fun w => PrimFloat.ltb w 0 = false)
    (calcSideLightWeights 256%Z []) ->
  Forall (fun q => colour_not_negative (materialColour q) /\
                   colour_not_negative (screenColour q)) faces ->
  main glReadPixels calcForwardLightWeights calcSideLightWeights perp powf
    Position fuel faces vertices = Some out ->
  Forall (fun q => colour_not_negative (screenColour q)) out.
Proof.
  intros Hpow _ Hfws Hsws Hfaces Hmain.
  unfold main in Hmain. cbv zeta in Hmain.
  set (qs := initLighting faces vertices) in *.
  set (T := snd (Render.calcAllLights _ _ _ _ _)) in Hmain.
  destruct (converge fuel T vertices qs) as [[[k qsk] lk]|] eqn:Hconv;
    [|discriminate Hmain].
  injection Hmain as <-.
  unfold converge in Hconv. apply convergeLoop_spec in Hconv.
  destruct Hconv as (_ & -> & _).
  assert (HT : Forall (fun t => PrimFloat.ltb t 0 = false) T).
  { unfold T. apply render_matrix_not_negative; assumption. }
  assert (Hqs : Forall quad_not_negative qs)
    by (apply initLighting_not_negative; exact Hfaces).
  eapply Forall_impl.
  - apply normaliseBrightness_not_negative.
    apply (computeSpecularity_not_negative powf Hpow).
    apply iterateTimes_not_negative; [exact Hqs | exact HT].
  - intros q [_ Hscr]. exact Hscr.
Qed.

(** The room, with the ceiling lamp seen in every frame of 256 by 1
    pixels. *)
Lemma main_never_hands_on_a_negative_colour_witness :
  exists out,
    main (G := refGeom) Demo.glReadPixels Demo.weightTable Demo.weightTable
      Demo.perp Ref.powf Scene.EYE_POS 5 Room.faces Room.vertices =
      Some out /\
    Forall (fun q => colour_not_negative (screenColour q)) out.
Proof.
  eexists. split.
  - vm_compute. reflexivity.
  - apply (main_never_hands_on_a_negative_colour refGeom Demo.glReadPixels
             Demo.weightTable Demo.weightTable Demo.perp Ref.powf
             Scene.EYE_POS 5 Room.faces Room.vertices).
    + exact Ref_powf_not_negative.
    + apply Demo_draws_faces_only. cbn. lia.
    + apply Forall_replicate. reflexivity.
    + apply Forall_replicate. reflexivity.
    + repeat constructor.
    + vm_compute. reflexivity.
Defined.

(** ** The normaliser never scales down *)

Section RoundingAux.
Local Open Scope Z_scope.

Lemma shr_record_of_loc_m (m : Z) (l : location) :
  shr_m (shr_record_of_loc m l) = m.
Proof. destruct l as [|[]]; reflexivity. Qed.

(** The first step of rounding: the mantissa is cut down to the exponent
    the format wants, if that is above the exponent it has. *)
Lemma shr_fexp_value (P : positive) (E : Z) (l : location) :
  let F := fexp prec emax (Z.pos (digits2_pos P) + E) in
  exists mrs,
    shr_fexp prec emax (Z.pos P) E l = (mrs, Z.max F E) /\
    shr_m mrs = Z.pos P / 2 ^ (Z.max F E - E).
Proof.
  intros F. unfold shr_fexp, shr.
  change (Zdigits2 (Z.pos P)) with (Z.pos (digits2_pos P)). fold F.
  destruct (F - E) as [|n|n] eqn:Hn.
  - exists (shr_record_of_loc (Z.pos P) l).
    replace (Z.max F E) with E by lia.
    rewrite Z.sub_diag, Z.div_1_r, shr_record_of_loc_m.
    split; reflexivity.
  - exists (SpecFloat.iter_pos shr_1 n (shr_record_of_loc (Z.pos P) l)).
    replace (Z.max F E) with (E + Z.pos n) by lia.
    split; [reflexivity|].
    rewrite iter_shr_1_m by (rewrite shr_record_of_loc_m; lia).
    rewrite shr_record_of_loc_m. f_equal. f_equal. lia.
  - exists (shr_record_of_loc (Z.pos P) l).
    replace (Z.max F E) with E by lia.
    rewrite Z.sub_diag, Z.div_1_r, shr_record_of_loc_m.
    split; reflexivity.
Qed.

(** Rounding a positive mantissa: the result has the exponent [e'] the
    first step arrives at and a mantissa that is not below the one cut
    down, or it has a larger exponent. *)
Lemma binary_round_aux_lower (s : bool) (P : positive) (E : Z)
    (l : location) :
  let F := fexp prec emax (Z.pos (digits2_pos P) + E) in
  let e' := Z.max F E in
  let a := Z.pos P / 2 ^ (e' - E) in
  0 < a ->
  exists (m3 : positive) (e3 : Z),
    binary_round_aux prec emax s (Z.pos P) E l =
      (if e3 <=? emax - prec then S754_finite s m3 e3
       else S754_infinity s) /\
    ((e3 = e' /\ a <= Z.pos m3) \/ e' < e3).
Proof.
  intros F e' a Ha. unfold binary_round_aux.
  destruct (shr_fexp_value P E l) as (mrs & -> & Hm).
  cbv beta iota.
  fold F in Hm |- *. fold e' in Hm |- *. fold a in Hm.
  pose proof (round_nearest_even_range (shr_m mrs) (loc_of_shr_record mrs))
    as Hr.
  destruct (round_nearest_even (shr_m mrs) (loc_of_shr_record mrs))
    as [|p1|p1] eqn:Hp1; rewrite Hm in Hr; try lia.
  destruct (shr_fexp_value p1 e' loc_Exact) as (mrs2 & -> & Hm2).
  cbv beta iota.
  set (F2 := fexp prec emax (Z.pos (digits2_pos p1) + e')) in *.
  assert (HF : -1074 <= e')
    by (unfold e', F; rewrite fexp_eq; lia).
  destruct (Z.max_spec F2 e') as [[Hlt Hmax] | [Hge Hmax]];
    rewrite Hmax in *.
  - rewrite Z.sub_diag, Z.div_1_r in Hm2. rewrite Hm2.
    exists p1, e'. split; [reflexivity|]. left. split; [reflexivity | lia].
  - destruct (Z.eq_dec F2 e') as [Heq|Hne].
    + rewrite Heq, Z.sub_diag, Z.div_1_r in Hm2. rewrite Hm2, Heq.
      exists p1, e'. split; [reflexivity|]. left.
      split; [reflexivity | lia].
    + assert (HF2 : F2 = Z.pos (digits2_pos p1) + e' - 53)
        by (unfold F2 in *; rewrite fexp_eq in *; lia).
      pose proof (digits2_pos_bounds p1) as Hd.
      assert (Hpos : 2 ^ 52 <= Z.pos p1 / 2 ^ (F2 - e')).
      { apply Z.div_le_lower_bound; [apply Z.pow_pos_nonneg; lia|].
        rewrite <- Z.pow_add_r by lia.
        replace (F2 - e' + 52) with (Z.pos (digits2_pos p1) - 1) by lia.
        lia. }
      rewrite <- Hm2 in Hpos.
      destruct (shr_m mrs2) as [|m3|m3] eqn:Hm3; try lia.
      exists m3, F2. split; [reflexivity|]. right. lia.
Qed.

(** A rounded positive mantissa is not less than a double at or below
    what the first step of rounding arrives at. *)
Lemma binary_round_aux_not_less (P m0 : positive) (E e0 : Z)
    (l : location) :
  let F := fexp prec emax (Z.pos (digits2_pos P) + E) in
  let e' := Z.max F E in
  let a := Z.pos P / 2 ^ (e' - E) in
  0 < a ->
  e0 < e' \/ (e0 = e' /\ Z.pos m0 <= a) ->
  SFltb (binary_round_aux prec emax false (Z.pos P) E l)
        (S754_finite false m0 e0) = false.
Proof.
  intros F e' a Ha Hle.
  destruct (binary_round_aux_lower false P E l Ha)
    as (m3 & e3 & -> & Hres).
  fold F in Hres. fold e' in Hres. fold a in Hres.
  destruct (e3 <=? emax - prec); [|reflexivity].
  apply SFltb_finite_pos. lia.
Qed.

End RoundingAux.

Section ScaleFacts.
Local Open Scope Z_scope.

(** A double that is not below 1.0 has a full mantissa and an exponent
    of at least -52. *)
Lemma not_below_one_shape (ms : positive) (es : Z) :
  valid_binary (S754_finite false ms es) = true ->
  SFltb (S754_finite false ms es) (Prim2SF 1) = false ->
  -52 <= es /\ 2 ^ 52 <= Z.pos ms.
Proof.
  intros Hv Hlt.
  change (Prim2SF 1) with (S754_finite false 4503599627370496 (-52)) in Hlt.
  destruct (valid_finite _ _ _ Hv) as (_ & He & Hd & Hn).
  pose proof (digits2_pos_bounds ms) as Hb.
  assert (Hes : -52 <= es).
  { destruct (Z_lt_le_dec es (-52)) as [Hlow|]; [|assumption].
    assert (SFltb (S754_finite false ms es)
              (S754_finite false 4503599627370496 (-52)) = true)
      by (apply SFltb_pos_iff; lia).
    congruence. }
  split; [exact Hes|].
  rewrite (Hn ltac:(lia)) in Hb. change (2 ^ (53 - 1)) with (2 ^ 52) in Hb.
  lia.
Qed.

(** Multiplying a positive double by one that is not below 1.0 does not
    make it smaller. *)
Lemma SFmul_not_less (mc ms : positive) (ec es : Z) :
  valid_binary (S754_finite false mc ec) = true ->
  valid_binary (S754_finite false ms es) = true ->
  SFltb (S754_finite false ms es) (Prim2SF 1) = false ->
  SFltb (SF64mul (S754_finite false mc ec) (S754_finite false ms es))
        (S754_finite false mc ec) = false.
Proof.
  intros Hvc Hvs Hone.
  destruct (not_below_one_shape ms es Hvs Hone) as [Hes Hms].
  destruct (valid_finite _ _ _ Hvc) as (Hfc & Hec & Hdc & _).
  cbn [SF64mul SFmul xorb].
  change (Z.pos (mc * ms)) with (Z.pos mc * Z.pos ms).
  rewrite <- Pos2Z.inj_mul.
  set (P := (mc * ms)%positive).
  assert (HP : Z.pos P = Z.pos mc * Z.pos ms) by apply Pos2Z.inj_mul.
  assert (HdP : Z.pos (digits2_pos mc) + 52 <= Z.pos (digits2_pos P))
    by (apply digits_scaled_le; [lia | rewrite HP; nia]).
  rewrite fexp_eq in Hfc.
  pose proof (digits2_pos_bounds P) as HbP.
  apply binary_round_aux_not_less.
  - set (F := fexp prec emax (Z.pos (digits2_pos P) + (ec + es))).
    assert (HF : F = Z.max (Z.pos (digits2_pos P) + (ec + es) - 53) (-1074))
      by apply fexp_eq.
    apply Z.div_str_pos. split; [apply Z.pow_pos_nonneg; lia|].
    destruct (Z.max_spec F (ec + es)) as [[Hlt ->] | [Hge ->]].
    + rewrite Z.sub_diag. change (2 ^ 0) with 1. lia.
    + destruct (Z.eq_dec F (-1074)) as [Hlow|Hhigh].
      * (* the cut goes down to the least exponent, which is [ec] *)
        assert (ec = -1074) by lia.
        apply Z.le_trans with (2 ^ 52); [|rewrite HP; nia].
        apply Z.pow_le_mono_r; lia.
      * replace (F - (ec + es)) with (Z.pos (digits2_pos P) - 53) by lia.
        apply Z.le_trans with (2 ^ (Z.pos (digits2_pos P) - 1)); [|lia].
        apply Z.pow_le_mono_r; lia.
  - set (F := fexp prec emax (Z.pos (digits2_pos P) + (ec + es))).
    assert (HF : F = Z.max (Z.pos (digits2_pos P) + (ec + es) - 53) (-1074))
      by apply fexp_eq.
    destruct (Z_lt_le_dec ec (Z.max F (ec + es))) as [Hlt|Hle];
      [left; exact Hlt|].
    right. assert (He' : Z.max F (ec + es) = ec) by lia.
    split; [symmetry; exact He'|]. rewrite He'.
    replace (ec - (ec + es)) with (- es) by lia.
    apply Z.div_le_lower_bound; [apply Z.pow_pos_nonneg; lia|].
    rewrite HP.
    assert (2 ^ (- es) <= 2 ^ 52) by (apply Z.pow_le_mono_r; lia).
    nia.
Qed.

(** [1.0 / x] is not below 1.0 when [x] is a positive double below 1.0. *)
Lemma SFdiv_one_not_less (m : positive) (e : Z) :
  valid_binary (S754_finite false m e) = true ->
  SFltb (S754_finite false m e) (Prim2SF 1) = true ->
  SFltb (SF64div (Prim2SF 1) (S754_finite false m e)) (Prim2SF 1) = false.
Proof.
  intros Hv Hlt.
  change (Prim2SF 1) with (S754_finite false 4503599627370496 (-52)) in *.
  apply SFltb_pos_iff in Hlt.
  destruct (valid_finite _ _ _ Hv) as (_ & He & Hd & Hn).
  pose proof (digits2_pos_bounds m) as Hb.
  set (d := Z.pos (digits2_pos m)) in *.
  assert (Hneg : e <= -53).
  { destruct Hlt as [Hlt|[-> Hm]]; [lia|].
    rewrite (Hn ltac:(lia)) in Hb. change (2 ^ (53 - 1)) with (2 ^ 52) in Hb.
    lia. }
  cbn [SF64div SFdiv xorb]. unfold SFdiv_core_binary.
  change (Zdigits2 4503599627370496) with 53.
  change (Zdigits2 (Z.pos m)) with d.
  rewrite fexp_eq.
  replace (Z.min (Z.max (53 + -52 - (d + e) - 53) (-1074)) (-52 - e))
    with (-52 - d - e) by lia.
  replace (-52 - e - (-52 - d - e)) with d by lia.
  unfold d at 1. cbv iota beta zeta.
  rewrite Z.shiftl_mul_pow2 by lia.
  change 4503599627370496 with (2 ^ 52).
  rewrite <- Z.pow_add_r by lia.
  pose proof (Z.div_eucl_eq (2 ^ (52 + d)) (Z.pos m) ltac:(lia)) as Heq.
  pose proof (Z.mod_pos_bound (2 ^ (52 + d)) (Z.pos m) ltac:(lia)) as Hr.
  unfold Z.modulo in Hr.
  change Z.div_eucl with IntDef.Z.div_eucl in *.
  destruct (IntDef.Z.div_eucl (2 ^ (52 + d)) (Z.pos m)) as [q r'].
  assert (Hpow : 2 ^ (52 + d) = 2 ^ 52 * 2 ^ d)
    by (apply Z.pow_add_r; lia).
  assert (Hpow' : 2 ^ d = 2 * 2 ^ (d - 1)).
  { replace d with (1 + (d - 1)) at 1 by lia.
    rewrite Z.pow_add_r by lia. reflexivity. }
  assert (Hq : 2 ^ 52 <= q <= 2 ^ 53).
  { change (2 ^ 53) with (2 * 2 ^ 52). split; nia. }
  destruct q as [|q|q]; try lia.
  pose proof (digits2_pos_bounds q) as Hbq.
  assert (Hdq : 53 <= Z.pos (digits2_pos q) <= 54).
  { split.
    - destruct (Z_lt_le_dec (Z.pos (digits2_pos q)) 53); [|assumption].
      assert (2 ^ Z.pos (digits2_pos q) <= 2 ^ 52)
        by (apply Z.pow_le_mono_r; lia).
      lia.
    - destruct (Z_lt_le_dec 54 (Z.pos (digits2_pos q))); [|assumption].
      assert (2 ^ 54 <= 2 ^ (Z.pos (digits2_pos q) - 1))
        by (apply Z.pow_le_mono_r; lia).
      change (2 ^ 54) with (2 * 2 ^ 53) in *. lia. }
  apply binary_round_aux_not_less.
  - rewrite fexp_eq. apply Z.div_str_pos.
    split; [apply Z.pow_pos_nonneg; lia|].
    apply Z.le_trans with (2 ^ 1); [apply Z.pow_le_mono_r; lia|].
    change (2 ^ 1) with 2. lia.
  - rewrite fexp_eq.
    destruct (Z_lt_le_dec (-52)
                (Z.max (Z.max (Z.pos (digits2_pos q) + (-52 - d - e) - 53)
                          (-1074)) (-52 - d - e))) as [Hbig|Hsmall];
      [left; exact Hbig|].
    right.
    assert (Hexp : Z.max (Z.max (Z.pos (digits2_pos q) + (-52 - d - e) - 53)
                            (-1074)) (-52 - d - e) = -52) by lia.
    split; [symmetry; exact Hexp|]. rewrite Hexp.
    replace (-52 - (-52 - d - e)) with 0 by lia.
    rewrite Z.div_1_r. lia.
Qed.

End ScaleFacts.

(** A channel that is not negative does not get smaller when it is
    multiplied by a factor that is not below 1.0. *)
Lemma mul_not_less (c s : float) :
  PrimFloat.ltb c 0 = false -> PrimFloat.ltb s 1 = false ->
  PrimFloat.ltb (c * s) c = false.
Proof.
  rewrite !FloatAxioms.ltb_spec, FloatAxioms.mul_spec.
  pose proof (Prim2SF_valid c) as Hvc. pose proof (Prim2SF_valid s) as Hvs.
  change (Prim2SF 0) with (S754_zero false).
  destruct (Prim2SF c) as [sc|sc| |sc mc ec], (Prim2SF s) as [ss|ss| |ss ms es];
    try destruct sc; try destruct ss; intros Hc Hs;
    try discriminate Hc; try discriminate Hs; try reflexivity.
  apply SFmul_not_less; assumption.
Qed.

(** [1.0 / max] is not below 1.0 when [max], which is not negative, is
    below 1.0. *)
Lemma div_one_not_less (max : float) :
  sign_clear max -> PrimFloat.ltb max 1 = true ->
  PrimFloat.ltb (1 / max) 1 = false.
Proof.
  unfold sign_clear.
  rewrite !FloatAxioms.ltb_spec, FloatAxioms.div_spec.
  pose proof (Prim2SF_valid max) as Hv.
  destruct (Prim2SF max) as [sm|sm| |sm m e];
    try destruct sm; intros Hsign Hlt;
    try discriminate Hsign; try discriminate Hlt; try reflexivity.
  apply SFdiv_one_not_less; assumption.
Qed.

Section NeverDarker.
Context {G : Geom}.
Variable Position : Vertex.

Lemma brightnessScale_not_below_one (qs : list Quad) (vs : list Vertex) :
  PrimFloat.ltb (brightnessScale Position qs vs) 1 = false.
Proof.
  unfold brightnessScale, TARGET. cbv zeta.
  destruct (PrimFloat.ltb (visibleMax Position qs vs) 1) eqn:Hlt;
    [|reflexivity].
  apply div_one_not_less; [|exact Hlt].
  apply scanMax_sign_clear. reflexivity.
Qed.

End NeverDarker.

(** X19: the normaliser never scales down.  Its factor is never below
    1.0 (it is 1.0, [1.0 / max] for a maximum below 1.0, which is at
    least 1.0, or +infinity), emitters keep their colour, and no channel
    that is not negative becomes smaller: the channel after the pass is
    never less than the channel before. *)
Theorem normaliser_never_darkens (G : Geom) (Position : Vertex)
    (qs : list Quad) (vs : list Vertex) (i : nat) :
  i < length qs ->
  let before := screenColour (qs !!! i) in
  let after := screenColour (normaliseBrightness Position qs vs !!! i) in
  PrimFloat.ltb (brightnessScale Position qs vs) 1 = false /\
  (isEmitter (qs !!! i) = true -> after = before) /\
  (PrimFloat.ltb (r before) 0 = false ->
   PrimFloat.ltb (r after) (r before) = false) /\
  (PrimFloat.ltb (g before) 0 = false ->
   PrimFloat.ltb (g after) (g before) = false) /\
  (PrimFloat.ltb (b before) 0 = false ->
   PrimFloat.ltb (b after) (b before) = false).
Proof.
  intros Hi before after.
  pose proof (brightnessScale_not_below_one Position qs vs) as Hscale.
  split; [exact Hscale|].
  unfold after, before, normaliseBrightness. cbv zeta.
  rewrite (list_lookup_total_fmap _ qs i Hi).
  destruct (isEmitter (qs !!! i)); cbn [negb].
  - split; [reflexivity|]. repeat split; intros _; apply ltb_irrefl.
  - split; [discriminate|].
    cbn [setScreenColour screenColour cscale r g b].
    repeat split; intros Hc; apply mul_not_less; assumption.
Qed.

Lemma normaliser_never_darkens_witness :
  let qs := [Scene.front Scene.dim; Scene.back Scene.dim] in
  PrimFloat.ltb
    (g (screenColour
          (normaliseBrightness (G := refGeom) Scene.EYE_POS qs
             Scene.vertices !!! 0)))
    (g Scene.dim) = false.
Proof.
  intros qs.
  exact (proj1 (proj2 (proj2 (proj2
           (normaliser_never_darkens refGeom Scene.EYE_POS qs
              Scene.vertices 0 ltac:(cbn; lia))))) eq_refl).
Defined.

(** ** The screenshot of the first frame *)

(** Once the flag is off, a frame clears, draws and swaps. *)
Lemma frames_later (n : nat) :
  Display.frames n false =
  (concat (replicate n
             [Display.glClear; Display.drawScene; Display.glutSwapBuffers]),
   false).
Proof.
  induction n as [|n IH]; [reflexivity|].
  change (Display.frames (S n) false)
    with (let '(later, firstRender) := Display.frames n false in
          ([Display.glClear; Display.drawScene; Display.glutSwapBuffers]
             ++ later, firstRender)).
  rewrite IH. reflexivity.
Qed.

(** X20: however many frames are displayed, the screenshot
    [../png/scene.png] is taken exactly once: in the first frame, after
    the scene is drawn and before the buffers are swapped.  Every later
    frame only clears, draws and swaps, and the flag [firstRender] stays
    off. *)
Theorem screenshot_is_taken_once (n : nat) :
  Display.frames (S n) true =
  ([Display.glClear; Display.drawScene;
    Display.screenshotPNG Display.scene_png; Display.glutSwapBuffers]
     ++ concat (replicate n
                  [Display.glClear; Display.drawScene;
                   Display.glutSwapBuffers]),
   false).
Proof.
  change (Display.frames (S n) true)
    with (let '(later, firstRender) := Display.frames n false in
          ([Display.glClear; Display.drawScene;
            Display.screenshotPNG Display.scene_png;
            Display.glutSwapBuffers] ++ later, firstRender)).
  rewrite frames_later. reflexivity.
Qed.
